(** * licensecheck / licenses/getspdx.go : the SPDX template to LRE translator

    A shallow embedding of [templateToLRE], of the helpers it calls ([wrap],
    [indentNL], [findAttr], [words], [wordCount], the three regular
    expressions), of [fieldMap] and of [convert]; then their properties.

    Go strings and byte slices are lists of 8-bit characters.  A Go panic is
    a value of the error monad [result]; every Go loop whose bound is not
    structural carries a fuel argument, and the lemmas named [*_fuel] show
    that the fuel handed over by the caller is never exhausted. *)

From Stdlib Require Import Ascii String DecimalString.
From Stdlib Require Import List ZArith Lia Bool Arith Sorted.
Import ListNotations.

(* ================================================================= *)
(** ** Bytes, strings and the primitives of the Go library *)

Definition bytes := list ascii.

Definition B (s : string) : bytes := list_ascii_of_string s.

Definition NL : ascii := "010"%char.
Definition TAB : ascii := "009"%char.
Definition SP : ascii := " "%char.
Definition DQ : ascii := "034"%char.

Fixpoint bytes_eqb (a b : bytes) : bool :=
  match a, b with
  | [], [] => true
  | c :: a', d :: b' => Ascii.eqb c d && bytes_eqb a' b'
  | _, _ => false
  end.

(** [strings.HasPrefix(s, p)] *)
Fixpoint HasPrefix (s p : bytes) {struct p} : bool :=
  match p, s with
  | [], _ => true
  | c :: p', d :: s' => Ascii.eqb c d && HasPrefix s' p'
  | _ :: _, [] => false
  end.

(** [strings.HasSuffix(s, p)] *)
Definition HasSuffix (s p : bytes) : bool := HasPrefix (rev s) (rev p).

(** [strings.Index(s, sep)]; Go's [-1] is [None]. *)
Fixpoint Index (s sep : bytes) : option nat :=
  if HasPrefix s sep then Some 0
  else match s with
       | [] => None
       | _ :: s' => option_map S (Index s' sep)
       end.

(** The Go slice expression [s[lo:hi]]. *)
Definition slice (s : bytes) (lo hi : nat) : bytes := firstn (hi - lo) (skipn lo s).

Fixpoint takeWhile (f : ascii -> bool) (s : bytes) : bytes :=
  match s with
  | [] => []
  | c :: r => if f c then c :: takeWhile f r else []
  end.

Fixpoint dropWhile (f : ascii -> bool) (s : bytes) : bytes :=
  match s with
  | [] => []
  | c :: r => if f c then dropWhile f r else s
  end.

(** [c == ' ' || c == '\t'] *)
Definition is_blank (c : ascii) : bool := Ascii.eqb c SP || Ascii.eqb c TAB.

(** [fmt.Sprintf("%d", n)] for a non-negative [n]. *)
Definition itoa (n : nat) : bytes := B (NilEmpty.string_of_uint (Nat.to_uint n)).

(* ================================================================= *)
(** ** Panics *)

Inductive panic : Type :=
| BadTemplate                 (* panic("bad template") *)
| BadTag (tag : bytes)        (* panic(tag) *)
| IndexOutOfRange.            (* runtime error: index or slice bounds out of range *)

Inductive result (A : Type) : Type :=
| Ok (a : A)
| Panic (p : panic).

Arguments Ok {A} a.
Arguments Panic {A} p.

Definition bind {A C : Type} (r : result A) (k : A -> result C) : result C :=
  match r with
  | Ok a => k a
  | Panic p => Panic p
  end.

Notation "x <- r ;; k" := (bind r (fun x => k))
  (at level 61, r at next level, right associativity).

(* ================================================================= *)
(** ** The line reflow engine: [wrap] and [indentNL] *)

(** [for i > 0 && all[i-1] != '\n' { i-- }], started at [i]. *)
Fixpoint lineStart (all : bytes) (i : nat) : nat :=
  match i with
  | 0 => 0
  | S i' => if Ascii.eqb (nth i' all SP) NL then i else lineStart all i'
  end.

(** [strings.SplitAfter(text, "\n")]: never empty, the last piece has no
    newline. *)
Fixpoint SplitAfterNL (text : bytes) : list bytes :=
  match text with
  | [] => [[]]
  | c :: r =>
      if Ascii.eqb c NL then [NL] :: SplitAfterNL r
      else match SplitAfterNL r with
           | l :: ls => (c :: l) :: ls
           | [] => [[c]]
           end
  end.

Definition Target : Z := 80.

(** [for j >= 0 && line[j] != ' ' && line[j] != '\t' { j-- }]; [None] is
    [j < 0].  The guard of the enclosing loop keeps [j < len(line)]. *)
Fixpoint backBlank (line : bytes) (j : nat) : option nat :=
  if is_blank (nth j line "000"%char) then Some j
  else match j with
       | 0 => None
       | S j' => backBlank line j'
       end.

(** [for j < len(line) && line[j] != ' ' && line[j] != '\t' { j++ }] *)
Definition fwdBlank (line : bytes) (j : nat) : nat :=
  j + length (takeWhile (fun c => negb (is_blank c)) (skipn j line)).

(** The break point that one iteration of the inner loop of [wrap] looks
    for from [j = Target-len(indent)]: backward first, forward if the
    backward scan ends with [j < 0]; [None] is the [break] at
    [j == len(line)]. *)
Definition breakPoint (line : bytes) (j0 : nat) : option nat :=
  match backBlank line j0 with
  | Some j => Some j
  | None =>
      let j := fwdBlank line j0 in
      if j =? length line then None else Some j
  end.

(** The inner [for len(line) > Target-len(indent)] loop of [wrap] and the two
    writes after it.  With a negative [Target-len(indent)] the backward scan
    is skipped and the forward scan reads [line[j]] at a negative [j]. *)
Fixpoint wrapLoop (fuel : nat) (indent line buf : bytes) : result bytes :=
  let w := (Target - Z.of_nat (length indent))%Z in
  if (Z.of_nat (length line) >? w)%Z then
    if (w <? 0)%Z then Panic IndexOutOfRange
    else
      match breakPoint line (Z.to_nat w), fuel with
      | Some j, S fuel' =>
          wrapLoop fuel' indent (dropWhile is_blank (skipn j line))
                   (buf ++ indent ++ firstn j line ++ [NL])
      | _, _ => Ok (buf ++ indent ++ line)
      end
  else Ok (buf ++ indent ++ line).

(** [for _, line := range lines { ... }] *)
Fixpoint wrapLines (lines : list bytes) (buf : bytes) : result bytes :=
  match lines with
  | [] => Ok buf
  | line :: rest =>
      let indent := takeWhile is_blank line in
      let line' := dropWhile is_blank line in
      buf' <- wrapLoop (length line') indent line' buf ;;
      wrapLines rest buf'
  end.

(** [wrap] adds literal text to the buffer, wrapping long lines. *)
Definition wrap (buf text : bytes) : result bytes :=
  let i := lineStart buf (length buf) in
  match SplitAfterNL text with
  | l0 :: ls => wrapLines ((skipn i buf ++ l0) :: ls) (firstn i buf)
  | [] => Ok (firstn i buf)
  end.

Definition indentNL (buf : bytes) : bytes :=
  let i := lineStart buf (length buf) in
  buf ++ [NL] ++ takeWhile is_blank (skipn i buf).

(* ================================================================= *)
(** ** Attributes and words *)

(** [findAttr(tag, name)]: the text between [name=] followed by a double
    quote, and the next double quote. *)
Definition findAttr (tag name : bytes) : bytes :=
  match Index tag (name ++ B "=" ++ [DQ]) with
  | None => []
  | Some i =>
      let tag' := skipn (i + length name + 2) tag in
      match Index tag' [DQ] with
      | None => []
      | Some j => firstn j tag'
      end
  end.

Definition between (lo hi : nat) (c : ascii) : bool :=
  (lo <=? nat_of_ascii c) && (nat_of_ascii c <=? hi).

Definition is_digit (c : ascii) : bool := between 48 57 c.

Definition is_alpha (c : ascii) : bool := between 65 90 c || between 97 122 c.

(** The class [[\d\w]] of [wordRE]: in Go's syntax [\w] is [[0-9A-Za-z_]]. *)
Definition is_word (c : ascii) : bool :=
  is_digit c || is_alpha c || Ascii.eqb c "_"%char.

(** The non-overlapping maximal runs of a character class, from the left: what
    [FindAllString(s, -1)] returns for the expression [[class]+]. *)
Fixpoint runs (f : ascii -> bool) (s : bytes) : list bytes :=
  match s with
  | [] => []
  | c :: r =>
      if f c then
        match r with
        | d :: _ =>
            if f d then
              match runs f r with
              | w :: ws => (c :: w) :: ws
              | [] => [[c]]
              end
            else [c] :: runs f r
        | [] => [[c]]
        end
      else runs f r
  end.

(** [words(s)] is [wordRE.FindAllString(s, -1)]. *)
Definition words (s : bytes) : list bytes := runs is_word s.

Definition wordCount (s : bytes) : nat := length (words s).

(* ================================================================= *)
(** ** The regular expressions of the output normalizer *)

(** [Regexp.ReplaceAll] for an expression that matches no empty string: [m s]
    is the length of the leftmost-first match that starts at the head of [s],
    [skip] counts the bytes of the current match still to be passed over. *)
Fixpoint replaceAll (m : bytes -> option nat) (repl : bytes) (skip : nat)
         (s : bytes) : bytes :=
  match s with
  | [] => []
  | c :: r =>
      match skip with
      | S k => replaceAll m repl k r
      | 0 =>
          match m s with
          | Some (S n) => repl ++ replaceAll m repl n r
          | _ => c :: replaceAll m repl 0 r
          end
      end
  end.

(** [trailingSpaceRE = (?m)[ \t]+$]: a greedy run of blanks that stops at a
    newline or at the end of the text. *)
Definition matchTrailingSpace (s : bytes) : option nat :=
  match takeWhile is_blank s, dropWhile is_blank s with
  | [], _ => None
  | run, [] => Some (length run)
  | run, c :: _ => if Ascii.eqb c NL then Some (length run) else None
  end.

(** The class of [blankRE]: full stop, comma, double quote, space, tab. *)
Definition is_blankish (c : ascii) : bool :=
  Ascii.eqb c "."%char || Ascii.eqb c ","%char || Ascii.eqb c DQ
  || Ascii.eqb c SP || Ascii.eqb c TAB.

(** The greedy iteration of the group [(class*\n)] at the head of [s]:
    the number of complete groups and the bytes they cover; [pending] is the
    length of the group being read. *)
Fixpoint blankGroups (s : bytes) (pending : nat) : nat * nat :=
  match s with
  | [] => (0, 0)
  | c :: r =>
      if Ascii.eqb c NL then
        let (k, n) := blankGroups r 0 in (S k, S pending + n)
      else if is_blankish c then blankGroups r (S pending)
      else (0, 0)
  end.

(** [blankRE]: a newline followed by two or more groups [(class*\n)]. *)
Definition matchBlank (s : bytes) : option nat :=
  match s with
  | c :: r =>
      if Ascii.eqb c NL then
        let (k, n) := blankGroups r 0 in
        if 2 <=? k then Some (S n) else None
      else None
  | [] => None
  end.

(** [unicode.IsSpace] on the bytes below [utf8.RuneSelf]. *)
Definition asciiSpace (c : ascii) : bool :=
  between 9 13 c || Ascii.eqb c SP.

Definition utf8 (l : list nat) : bytes := map ascii_of_nat l.

(** The UTF-8 encodings of the other runes of [unicode.IsSpace]: U+0085,
    U+00A0, U+1680, U+2000 to U+200A, U+2028, U+2029, U+202F, U+205F, U+3000. *)
Definition utf8Spaces : list bytes :=
  [utf8 [194; 133]; utf8 [194; 160]; utf8 [225; 154; 128]]
  ++ map (fun k => utf8 [226; 128; 128 + k]) (seq 0 11)
  ++ [utf8 [226; 128; 168]; utf8 [226; 128; 169]; utf8 [226; 128; 175];
      utf8 [226; 129; 159]; utf8 [227; 128; 128]].

(** The length of the white-space rune at the head of [s], if there is one. *)
Definition spaceRune (s : bytes) : option nat :=
  match s with
  | c :: _ =>
      if asciiSpace c then Some 1
      else option_map (@length ascii) (find (HasPrefix s) utf8Spaces)
  | [] => None
  end.

Fixpoint trimLeftSpace (fuel : nat) (s : bytes) : bytes :=
  match fuel, spaceRune s with
  | S f, Some n => trimLeftSpace f (skipn n s)
  | _, _ => s
  end.

(** The same from the right end: [utf8.DecodeLastRune] finds a white-space
    rune exactly when one of the encodings is a suffix. *)
Definition spaceRuneLast (s : bytes) : option nat :=
  match rev s with
  | c :: _ =>
      if asciiSpace c then Some 1
      else option_map (@length ascii) (find (HasSuffix s) utf8Spaces)
  | [] => None
  end.

Fixpoint trimRightSpace (fuel : nat) (s : bytes) : bytes :=
  match fuel, spaceRuneLast s with
  | S f, Some n => trimRightSpace f (firstn (length s - n) s)
  | _, _ => s
  end.

(** [bytes.TrimSpace] *)
Definition TrimSpace (s : bytes) : bytes :=
  let s := trimLeftSpace (length s) s in
  trimRightSpace (length s) s.

(* ================================================================= *)
(** ** The markup interpreter: [templateToLRE] *)

(** The variables of the scanning loop: the cursor [i], the mark [start] of
    the pending literal text, the output buffer and the stack [optStart]
    (a Go slice: the top is the last element). *)
Record state : Type := mkState {
  pos : nat;
  start : nat;
  buf : bytes;
  optStart : list nat
}.

(** The first [case] of the loop: one of the six doubled characters. *)
Definition structural (r : bytes) : bool :=
  HasPrefix r (B "((") || HasPrefix r (B "||") || HasPrefix r (B "))")
  || HasPrefix r (B "//") || HasPrefix r (B "??") || HasPrefix r (B "__").

(** The second [case]: [<<] that is not [<<<]. *)
Definition tagOpen (r : bytes) : bool :=
  HasPrefix r (B "<<") && negb (HasPrefix r (B "<<<")).

(** [case tag == "<<beginOptional>>"] *)
Definition beginOptional (b : bytes) (opt : list nat) : bytes * list nat :=
  (indentNL b ++ B "(( ", opt ++ [length b]).

(** [len(w) == 0 || len(w) == 1 && w[0] == "s"] *)
Definition trivialWords (w : list bytes) : bool :=
  match w with
  | [] => true
  | [x] => bytes_eqb x (B "s")
  | _ => false
  end.

(** [case tag == "<<endOptional>>"]: the index [optStart[len(optStart)-1]]
    and the slice [buf.Bytes()[start:]] panic when out of range. *)
Definition endOptional (b : bytes) (opt : list nat) : result (bytes * list nat) :=
  match rev opt with
  | [] => Panic IndexOutOfRange
  | s :: ropt =>
      if length b <? s then Panic IndexOutOfRange
      else
        let b1 := if existsb (Ascii.eqb NL) (skipn s b)
                  then indentNL b else b ++ B " " in
        let b2 := indentNL (b1 ++ B "))??") in
        if trivialWords (words (skipn s b2))
        then Ok (firstn s b2, rev ropt)
        else Ok (b2, rev ropt)
  end.

(** [case strings.HasPrefix(tag, "<<var;")], on the two attributes read from
    the tag.  The [continue] of the empty bullet skips the last [indentNL]. *)
Definition variable (name original : bytes) (b : bytes) : bytes :=
  let b := indentNL b in
  if bytes_eqb name (B "copyright") then
    indentNL (b ++ B "//** Copyright **//" ++ [NL])
  else
    let n := wordCount original in
    let n := if n <? 1 then 1 else n in
    if bytes_eqb name (B "bullet") && (n <? 5) then
      if 0 <? wordCount original
      then indentNL (b ++ B "(( " ++ original ++ B " ))??")
      else b ++ original ++ B " "
    else
      let n := if negb (bytes_eqb name (B "bullet")) && (n <? 5) then 5 else n in
      let b := if negb (bytes_eqb original [])
               then indentNL (b ++ B "//** " ++ original ++ B " **//")
               else b in
      indentNL (b ++ B "__" ++ itoa n ++ B "__").

(** One iteration of [for i := 0; i < len(t); { switch ... }]. *)
Definition step (t : bytes) (st : state) : result state :=
  let i := pos st in
  let r := skipn i t in
  if structural r then
    b <- wrap (buf st) (slice t (start st) (i + 1)) ;;
    let c := nth i t "000"%char in
    let i := i + length (takeWhile (Ascii.eqb c) r) in
    Ok (mkState i i b (optStart st))
  else if tagOpen r then
    b <- wrap (buf st) (slice t (start st) i) ;;
    match Index r (B ">>") with
    | None => Panic BadTemplate
    | Some j =>
        let tag := slice t i (i + j + 2) in
        let i := i + j + 2 in
        if bytes_eqb (findAttr tag (B "original")) (B "name") then
          b <- wrap b (B "name") ;;
          Ok (mkState i i b (optStart st))
        else
          let i := i + length (takeWhile (Ascii.eqb SP) (skipn i t)) in
          if bytes_eqb tag (B "<<beginOptional>>") then
            let (b, opt) := beginOptional b (optStart st) in
            Ok (mkState i i b opt)
          else if bytes_eqb tag (B "<<endOptional>>") then
            bo <- endOptional b (optStart st) ;;
            Ok (mkState i i (fst bo) (snd bo))
          else if HasPrefix tag (B "<<var;") then
            Ok (mkState i i
                  (variable (findAttr tag (B "name")) (findAttr tag (B "original")) b)
                  (optStart st))
          else Panic (BadTag tag)
    end
  else Ok (mkState (S i) (start st) (buf st) (optStart st)).

(** The scanning loop.  Every iteration moves the cursor forward, so that
    [length t] iterations are enough ([scan_fuel]). *)
Fixpoint scan (fuel : nat) (t : bytes) (st : state) : result state :=
  if pos st <? length t then
    match fuel with
    | 0 => Ok st
    | S f => st' <- step t st ;; scan f t st'
    end
  else Ok st.

Definition init : state := mkState 0 0 [] [].

(** The copyright check of the normalizer: the text that the warning on
    standard error quotes, if a warning is printed. *)
Definition copyrightWarning (data : bytes) : option bytes :=
  match Index data (B "//**Copyright**//") with
  | Some i =>
      if i <? 100 then
        let cut := TrimSpace (firstn i data) in
        if HasPrefix cut (B "((") && HasSuffix cut (B "))??") then None
        else if 0 <? length cut then Some cut
        else None
      else None
  | None => None
  end.

(** [trailingSpaceRE.ReplaceAll(data, nil)] *)
Definition stripTrailing (data : bytes) : bytes :=
  replaceAll matchTrailingSpace [] 0 data.

(** [blankRE.ReplaceAll(data, []byte("\n\n"))] *)
Definition collapseBlank (data : bytes) : bytes :=
  replaceAll matchBlank [NL; NL] 0 data.

(** [if len(data) > 0 && data[len(data)-1] != '\n' { data = append(data, '\n') }] *)
Definition ensureNL (data : bytes) : bytes :=
  match rev data with
  | c :: _ => if Ascii.eqb c NL then data else data ++ [NL]
  | [] => data
  end.

(** The output normalizer: everything of [templateToLRE] after the last
    [wrap].  The result is the returned string and the warning. *)
Definition normalize (data : bytes) : bytes * option bytes :=
  let data := stripTrailing data in
  let data := collapseBlank data in
  let warning := copyrightWarning data in
  let data := dropWhile (Ascii.eqb NL) data in
  (ensureNL data, warning).

(** [templateToLRE(file, t)]; [file] only labels the warning. *)
Definition templateToLRE (t : bytes) : result (bytes * option bytes) :=
  st <- scan (length t) t init ;;
  b <- wrap (buf st) (skipn (start st) t) ;;
  Ok (normalize b).

(* ================================================================= *)
(** ** Reachable loop states and the properties stated about them *)

(** The states of the scanning loop of [templateToLRE] on the template [t]. *)
Inductive reach (t : bytes) : state -> Prop :=
| reach_init : reach t init
| reach_step : forall st st',
    reach t st -> pos st < length t -> step t st = Ok st' -> reach t st'.

(** The loop stands in front of the tag [tag], the pending literal text has
    been flushed into [b] and the tag is not the name placeholder. *)
Definition atTag (t : bytes) (st : state) (tag b : bytes) : Prop :=
  pos st < length t
  /\ structural (skipn (pos st) t) = false
  /\ tagOpen (skipn (pos st) t) = true
  /\ wrap (buf st) (slice t (start st) (pos st)) = Ok b
  /\ (exists j, Index (skipn (pos st) t) (B ">>") = Some j
                /\ tag = slice t (pos st) (pos st + j + 2))
  /\ bytes_eqb (findAttr tag (B "original")) (B "name") = false.

(** Every offset of the stack points at a newline of the buffer, and the
    offsets grow strictly from the bottom to the top. *)
Definition stackOK (b : bytes) (opt : list nat) : Prop :=
  StronglySorted lt opt /\ Forall (fun s => nth_error b s = Some NL) opt.

(** At the offset [s] the buffer has a newline, an indentation and the
    opening marker of an optional block. *)
Definition openAt (b : bytes) (s : nat) : Prop :=
  exists ind rest,
    Forall (fun c => is_blank c = true) ind
    /\ skipn s b = NL :: (ind ++ B "((") ++ rest.

(** [strings.Split(s, "\n")]: the lines of a text. *)
Fixpoint lines (s : bytes) : list bytes :=
  match s with
  | [] => [[]]
  | c :: r =>
      if Ascii.eqb c NL then [] :: lines r
      else match lines r with
           | l :: ls => (c :: l) :: ls
           | [] => [[c]]
           end
  end.

(** The first line of a text and the lines behind it. *)
Definition firstLine (s : bytes) : bytes := hd [] (lines s).

Definition restLines (s : bytes) : list bytes := tl (lines s).

(** A line respects the target width, or it is an indentation followed by
    one token without a space or tab. *)
Definition lineOK (l : bytes) : Prop :=
  length l <= 80 \/ existsb is_blank (dropWhile is_blank l) = false.

(** The characters of the six doubled tokens. *)
Definition special (c : ascii) : bool :=
  existsb (Ascii.eqb c) (B "()|/?_").

(** A character that starts neither a doubled token nor a tag and is no
    white space. *)
Definition plain (c : ascii) : bool :=
  negb (special c) && negb (Ascii.eqb c "<"%char)
  && negb (is_blank c) && negb (Ascii.eqb c NL).

(** The word count in the words of the specification: a word is a maximal
    run of alphanumeric characters. *)
Definition is_alnum (c : ascii) : bool := is_digit c || is_alpha c.

Definition alnumWordCount (s : bytes) : nat := length (runs is_alnum s).

(** The first component of [normalize]: the returned document. *)
Definition normalized (data : bytes) : bytes := fst (normalize data).

(** The last [if] of the normalizer appends a newline to [data]. *)
Definition appendsNL (data : bytes) : bool :=
  let d := dropWhile (Ascii.eqb NL) (collapseBlank (stripTrailing data)) in
  negb (bytes_eqb (ensureNL d) d).

(** No blank is the last character of its line. *)
Fixpoint noTrailing (s : bytes) : Prop :=
  match s with
  | [] => True
  | c :: r =>
      (is_blank c = true -> exists d r', r = d :: r' /\ d <> NL) /\ noTrailing r
  end.

(** No suffix of [s] starts with a match of [m]. *)
Fixpoint noMatch (m : bytes -> option nat) (s : bytes) : Prop :=
  match s with
  | [] => True
  | _ :: r => m s = None /\ noMatch m r
  end.

(** The text is not empty and ends with a newline. *)
Definition endsNL (s : bytes) : Prop := exists body, s = body ++ [NL].

(** The text ends with exactly one newline. *)
Definition oneTrailingNL (s : bytes) : Prop :=
  exists body, s = body ++ [NL] /\ forall body', body <> body' ++ [NL].

(** Sample templates. *)
Definition varTag (name original : bytes) : bytes :=
  B "<<var;name=" ++ [DQ] ++ name ++ [DQ] ++ B ";original=" ++ [DQ] ++ original
    ++ [DQ] ++ B ">>".

Definition attr (name value : string) : bytes :=
  B name ++ B "=" ++ [DQ] ++ B value ++ [DQ].

Definition var (name original : string) : bytes :=
  B "<<var;" ++ attr "name" name ++ B ";" ++ attr "original" original ++ B ">>".

(** [y] is empty or starts with a character outside [f]. *)
Definition stops (f : ascii -> bool) (y : bytes) : Prop :=
  match y with
  | [] => True
  | c :: _ => f c = false
  end.

(** The shape of the pieces of [strings.SplitAfter]: every piece but the last
    ends with its only newline, the last has none. *)
Fixpoint splitOK (ls : list bytes) : Prop :=
  match ls with
  | [] => False
  | l :: rest =>
      match rest with
      | [] => ~ In NL l
      | _ :: _ => (exists body, l = body ++ [NL] /\ ~ In NL body) /\ splitOK rest
      end
  end.

(** The number of groups [(class*\n)] at the head of [s]. *)
Definition groupsAt (s : bytes) : nat := fst (blankGroups s 0).

(** A template with two nested optional blocks, the state of the loop in
    front of the inner end-optional tag and the buffer after the flush. *)
Definition wit_t : bytes :=
  B "a<<beginOptional>>b<<beginOptional>>c d<<endOptional>>e<<endOptional>>".

Definition wit_st : state :=
  mkState 39 36 (B "a" ++ [NL] ++ B "(( b" ++ [NL] ++ B "(( ") [1; 6].

Definition wit_b : bytes :=
  B "a" ++ [NL] ++ B "(( b" ++ [NL] ++ B "(( c d".

(* ================================================================= *)
(** ** Notions used by the further properties of the reflow engine *)

(** A character that is no space, tab or newline. *)
Definition solid (c : ascii) : bool := negb (is_blank c) && negb (Ascii.eqb c NL).

(** The tokens of a text: its maximal runs of solid characters. *)
Definition tokens (s : bytes) : list bytes := runs solid s.

(** The last, unterminated line of the buffer: [all[i:]] in [wrap] and
    [indentNL]. *)
Definition lastLine (b : bytes) : bytes := skipn (lineStart b (length b)) b.

(** The leading spaces and tabs of a line: [line[:i]] in [wrap]. *)
Definition indentation (l : bytes) : bytes := takeWhile is_blank l.

(** The lines that the outer loop of [wrap] works on: the pieces of the text,
    the first one behind the last line of the buffer. *)
Definition wrapInput (b text : bytes) : list bytes :=
  match SplitAfterNL text with
  | l0 :: ls => (lastLine b ++ l0) :: ls
  | [] => []
  end.

(* ================================================================= *)
(** ** Notions used by the further properties of the normalizer *)

(** A line without the spaces and tabs at its end. *)
Definition rstrip (l : bytes) : bytes := rev (dropWhile is_blank (rev l)).

(** A character that [blankRE] cannot match: no newline and none of the
    characters of its class. *)
Definition inked (c : ascii) : bool := negb (is_blankish c) && negb (Ascii.eqb c NL).

(* ================================================================= *)
(** ** The exclusion table: [strings.Fields], [fieldMap] and [exclude] *)

(** What [strings.Fields] does with the field [cur] read so far when a
    white-space rune or the end of the string is met. *)
Definition flush (cur : bytes) (rest : list bytes) : list bytes :=
  match cur with
  | [] => rest
  | _ :: _ => cur :: rest
  end.

(** [strings.Fields]: the text is cut around the runs of white-space runes
    ([unicode.IsSpace]), empty pieces are left out.  [skip] counts the bytes of
    the current white-space rune still to be passed over, [cur] is the field
    being read. *)
Fixpoint fieldsFrom (skip : nat) (cur : bytes) (s : bytes) : list bytes :=
  match s with
  | [] => flush cur []
  | c :: r =>
      match skip with
      | S k => fieldsFrom k cur r
      | 0 =>
          match spaceRune s with
          | Some (S n) => flush cur (fieldsFrom n [] r)
          | _ => fieldsFrom 0 (cur ++ [c]) r
          end
      end
  end.

Definition Fields (s : bytes) : list bytes := fieldsFrom 0 [] s.

(** A Go [map[string]bool]: the bindings, the newest first.  A key without
    binding reads as [false]. *)
Definition boolMap := list (bytes * bool).

Definition mapSet (m : boolMap) (k : bytes) (v : bool) : boolMap := (k, v) :: m.

Definition mapGet (m : boolMap) (k : bytes) : bool :=
  match find (fun e => bytes_eqb (fst e) k) m with
  | Some e => snd e
  | None => false
  end.

(** [fieldMap]: [for _, f := range strings.Fields(s) { m[f] = true }] *)
Definition fieldMap (s : bytes) : boolMap :=
  fold_left (fun m f => mapSet m f true) (Fields s) [].

(** The identifiers of the raw string literal given to [fieldMap]; in the
    literal each one stands on a line of its own behind a tab. *)
Definition excludeIds : list string :=
  ["AGPL-1.0-only";
   "AGPL-1.0-or-later";
   "AGPL-3.0-only";
   "AGPL-3.0-or-later";
   "CAL-1.0-Combined-Work-Exception";
   "BSD-1-Clause";
   "BSD-1-Clause-Clear";
   "BSD-2-Clause";
   "BSD-2-Clause-FreeBSD";
   "BSD-2-Clause-Patent";
   "BSD-2-Clause-Views";
   "BSD-3-Clause";
   "BSD-3-Clause-Attribution";
   "BSD-3-Clause-Clear";
   "BSD-3-Clause-LBNL";
   "BSD-3-Clause-No-Nuclear-License";
   "BSD-3-Clause-No-Nuclear-License-2014";
   "BSD-3-Clause-No-Nuclear-Warranty";
   "BSD-3-Clause-NoTrademark";
   "BSD-3-Clause-Open-MPI";
   "BSD-4-Clause";
   "BSD-4-Clause-UC";
   "BSD-Protection";
   "BSD-Source-Code";
   "GFDL-1.1-invariants-only";
   "GFDL-1.1-invariants-or-later";
   "GFDL-1.1-no-invariants-only";
   "GFDL-1.1-no-invariants-or-later";
   "GFDL-1.1-only";
   "GFDL-1.1-or-later";
   "GFDL-1.2-invariants-only";
   "GFDL-1.2-invariants-or-later";
   "GFDL-1.2-no-invariants-only";
   "GFDL-1.2-no-invariants-or-later";
   "GFDL-1.2-only";
   "GFDL-1.2-or-later";
   "GFDL-1.3-invariants-only";
   "GFDL-1.3-invariants-or-later";
   "GFDL-1.3-no-invariants-only";
   "GFDL-1.3-no-invariants-or-later";
   "GFDL-1.3-only";
   "GFDL-1.3-or-later";
   "GPL-1.0-only";
   "GPL-1.0-or-later";
   "GPL-2.0-Or-3.0";
   "GPL-2.0-only";
   "GPL-2.0-or-later";
   "GPL-3.0-only";
   "GPL-3.0-or-later";
   "HPND-sell-variant";
   "LGPL-2.0-only";
   "LGPL-2.0-or-later";
   "LGPL-2.1-only";
   "LGPL-2.1-or-later";
   "LGPL-3.0-only";
   "LGPL-3.0-or-later";
   "MIT";
   "MIT-0";
   "MITNFA";
   "MIT-NoAd";
   "MPL-2.0-no-copyleft-exception";
   "OFL-1.0-RFN";
   "OFL-1.0-no-RFN";
   "OFL-1.1-RFN";
   "OFL-1.1-no-RFN"]%string.

Definition excludeText : bytes :=
  concat (map (fun id => [NL; TAB] ++ B id) excludeIds) ++ [NL].

Definition exclude : boolMap := fieldMap excludeText.

(** A byte of an identifier: ASCII and no white space. *)
Definition fieldByte (c : ascii) : bool :=
  (nat_of_ascii c <? 128) && negb (asciiSpace c).

(* ================================================================= *)
(** ** The command: [convert] *)

(** The fields of the SPDX JSON data that [json.Unmarshal] fills. *)
Record spdx : Type := mkSpdx {
  IsDeprecatedLicenseID : bool;
  LicenseText : bytes;
  StandardLicenseTemplate : bytes;
  Name : bytes;
  LicenseComments : bytes;
  LicenseID : bytes;
  SeeAlso : list bytes;
  IsOSIApproved : bool
}.

(** What [convert] does to the world, in the order in which it does it.  A
    [WriteFile] is recorded whether it succeeds or not; [LogError path] is the
    [log.Print(err)] behind a failed operation on [path]. *)
Inductive event : Type :=
| ReadFile (path : bytes)
| Stat (path : bytes)
| WriteFile (path data : bytes)
| LogError (path : bytes)
| LogBadJSON (file : bytes)
| LogDeprecated (id : bytes)
| LogNoText
| Warning (file cut : bytes).

(** The answers of the operating system to the calls of one run of [convert],
    one for each call site. *)
Record answers : Type := mkAnswers {
  jsonFile : option bytes;   (* ioutil.ReadFile(file): the content, if no error *)
  targetStat : bool;         (* os.Stat(target) returns no error *)
  targetWritten : bool;      (* ioutil.WriteFile(target, ...) returns no error *)
  textFile : option bytes;   (* ioutil.ReadFile of the license text *)
  textWritten : bool;        (* ioutil.WriteFile of the test license *)
  t1Stat : bool;             (* os.Stat of the test script returns no error *)
  t1Written : bool           (* ioutil.WriteFile of the test script *)
}.

(** The events so far and the global [exitStatus]. *)
Record run : Type := mkRun {
  trace : list event;
  exitStatus : nat
}.

Definition emit (e : event) (r : run) : run :=
  mkRun (trace r ++ [e]) (exitStatus r).

(** [log.Print(...); exitStatus = 1; return] *)
Definition failWith (e : event) (r : run) : run :=
  mkRun (trace r ++ [e]) 1.

(** [if !strings.HasSuffix(file, ".json") { file = "_spdx/json/details/" + file + ".json" }] *)
Definition jsonPath (file : bytes) : bytes :=
  if HasSuffix file (B ".json") then file
  else B "_spdx/json/details/" ++ file ++ B ".json".

(** The comment that [convert] writes in front of the translation. *)
Definition header (info : spdx) : bytes :=
  B "//**" ++ [NL] ++ Name info ++ [NL]
    ++ B "https://spdx.org/licenses/" ++ LicenseID info ++ B ".json" ++ [NL]
    ++ concat (map (fun url => url ++ [NL]) (SeeAlso info))
    ++ B "**//" ++ [NL; NL].

(** [fmt.Sprintf("0%%\nscan\n100%%\n%s 100%% 0,$\n\n%s", id, text)] *)
Definition t1Data (id text : bytes) : bytes :=
  B "0%" ++ [NL] ++ B "scan" ++ [NL] ++ B "100%" ++ [NL] ++ id ++ B " 100% 0,$"
    ++ [NL; NL] ++ text.

Definition targetPath (id : bytes) : bytes := id ++ B ".lre".

Definition testTextPath (id : bytes) : bytes := B "../testdata/licenses/" ++ id ++ B ".txt".

Definition t1Path (id : bytes) : bytes := B "../testdata/" ++ id ++ B ".t1".

Section Convert.

(** [json.Unmarshal] into an [spdx] value, [None] for an error; the flag [-f]
    and the global [isAll]. *)
Variable unmarshal : bytes -> option spdx.
Variable forceOverwrite : bool.
Variable isAll : bool.

(** [convert], from the copy of the license text on: everything behind the
    successful [ioutil.WriteFile(target, ...)]. *)
Definition copyText (file id : bytes) (a : answers) (r : run) : run :=
  match Index file (B "json/details") with
  | None => failWith LogNoText r
  | Some i =>
      let textPath := firstn i file ++ B "text/" ++ id ++ B ".txt" in
      let r := emit (ReadFile textPath) r in
      match textFile a with
      | None => failWith (LogError textPath) r
      | Some text =>
          let r := emit (WriteFile (testTextPath id) text) r in
          if negb (textWritten a) then failWith (LogError (testTextPath id)) r
          else
            let r := emit (Stat (t1Path id)) r in
            if t1Stat a then r
            else
              let r := emit (WriteFile (t1Path id) (t1Data id text)) r in
              if negb (t1Written a) then failWith (LogError (t1Path id)) r
              else r
      end
  end.

(** [convert(file)] *)
Definition convert (file : bytes) (a : answers) (r : run) : result run :=
  let file := jsonPath file in
  let r := emit (ReadFile file) r in
  match jsonFile a with
  | None => Ok (failWith (LogError file) r)
  | Some data =>
      match unmarshal data with
      | None => Ok (failWith (LogBadJSON file) r)
      | Some info =>
          let id := LicenseID info in
          if IsDeprecatedLicenseID info then
            Ok (if isAll then r else emit (LogDeprecated id) r)
          else
            lre <- templateToLRE (StandardLicenseTemplate info) ;;
            let r := match snd lre with
                     | Some cut => emit (Warning file cut) r
                     | None => r
                     end in
            let content := header info ++ fst lre in
            if mapGet exclude id then Ok r
            else
              let r := emit (Stat (targetPath id)) r in
              if targetStat a && negb forceOverwrite then Ok r
              else
                let r := emit (WriteFile (targetPath id) content) r in
                if negb (targetWritten a) then Ok (failWith (LogError (targetPath id)) r)
                else Ok (copyText file id a r)
      end
  end.

End Convert.

(** The files that a run writes or tries to write, with their content. *)
Definition writes (r : run) : list (bytes * bytes) :=
  flat_map (fun e => match e with WriteFile p d => [(p, d)] | _ => [] end) (trace r).

(** The run has logged an error. *)
Definition isError (e : event) : bool :=
  match e with
  | LogError _ | LogBadJSON _ | LogNoText => true
  | _ => false
  end.

(** A sample license and the answers of a system on which every call
    succeeds and no output file exists yet. *)
Definition sampleInfo : spdx :=
  mkSpdx false (B "Hello World") (B "Hello <<beginOptional>>big <<endOptional>>World")
         (B "Sample License") [] (B "Sample-1.0") [B "https://example.org/sample"] false.

Definition sampleAnswers : answers :=
  mkAnswers (Some (B "{}")) false true (Some (B "Hello World")) true false true.

(** A license of the exclusion table. *)
Definition excludedInfo : spdx :=
  mkSpdx false (B "Permission is granted") (B "Permission is granted")
         (B "MIT License") [] (B "MIT") [] true.

(** The translation of the template of the sample license and the run of
    [convert] on it. *)
Definition sampleLRE : bytes :=
  B "Hello" ++ [NL] ++ B "(( big" ++ [NL] ++ B "))??" ++ [NL] ++ B "World" ++ [NL].

Definition sampleRun : run :=
  mkRun [ReadFile (B "_spdx/json/details/Sample-1.0.json");
         Stat (B "Sample-1.0.lre");
         WriteFile (B "Sample-1.0.lre") (header sampleInfo ++ sampleLRE);
         ReadFile (B "_spdx/text/Sample-1.0.txt");
         WriteFile (B "../testdata/licenses/Sample-1.0.txt") (B "Hello World");
         Stat (B "../testdata/Sample-1.0.t1");
         WriteFile (B "../testdata/Sample-1.0.t1")
                   (t1Data (B "Sample-1.0") (B "Hello World"))]
        0.

(** A character of literal text: it starts no doubled token and no tag. *)
Definition literal (c : ascii) : bool := negb (special c) && negb (Ascii.eqb c "<"%char).

(** The offset [s] was pushed in front of a begin-optional tag, and the
    first [s] bytes of the buffer [b] are the buffer as it was flushed
    there. *)
Definition openedAt (t : bytes) (b : bytes) (s : nat) : Prop :=
  exists st0 b0,
    reach t st0 /\ atTag t st0 (B "<<beginOptional>>") b0
    /\ length b0 = s /\ firstn s b = b0.

(** The calls of [wrap] that [templateToLRE] makes in the loop state [st],
    with the buffer and the text they are given: the flush in front of a
    doubled token, the flush in front of a tag, the name placeholder, and the
    call behind the loop. *)
Definition wrapCall (t : bytes) (st : state) (b text : bytes) : Prop :=
  (pos st < length t /\ structural (skipn (pos st) t) = true
   /\ b = buf st /\ text = slice t (start st) (pos st + 1))
  \/ (pos st < length t /\ structural (skipn (pos st) t) = false
      /\ tagOpen (skipn (pos st) t) = true
      /\ b = buf st /\ text = slice t (start st) (pos st))
  \/ (pos st < length t /\ structural (skipn (pos st) t) = false
      /\ tagOpen (skipn (pos st) t) = true
      /\ wrap (buf st) (slice t (start st) (pos st)) = Ok b
      /\ (exists j, Index (skipn (pos st) t) (B ">>") = Some j
                    /\ bytes_eqb (findAttr (slice t (pos st) (pos st + j + 2))
                                           (B "original")) (B "name") = true)
      /\ text = B "name")
  \/ (length t <= pos st /\ b = buf st /\ text = skipn (start st) t).

(* ================================================================= *)
(** ** Notions and samples used by the statements about optional blocks,
       the width of the lines and the second pass of the normalizer *)

(** A template whose optional block holds the plural suffix only, the state
    of the loop in front of the end-optional tag and the buffer after the
    flush. *)
Definition wit3_t : bytes := B "name<<beginOptional>>s<<endOptional>>.".

Definition wit3_st : state := mkState 22 21 (B "name" ++ [NL] ++ B "(( ") [4].

Definition wit3_b : bytes := B "name" ++ [NL] ++ B "(( s".

(** [lineOK] as a test. *)
Definition lineOKb (l : bytes) : bool :=
  (length l <=? 80) || negb (existsb is_blank (dropWhile is_blank l)).

(** The states that the loop of [templateToLRE] passes through, from [st]
    on. *)
Fixpoint states (fuel : nat) (t : bytes) (st : state) : list state :=
  st :: (if pos st <? length t then
           match fuel with
           | 0 => []
           | S f =>
               match step t st with
               | Ok st' => states f t st'
               | Panic _ => []
               end
           end
         else []).

(** A template with literal text, a [<] that opens no tag, an optional
    block and a variable. *)
Definition wit5_t : bytes :=
  B "a <b> <<beginOptional>>c<<endOptional>> " ++ var "x" "y z" ++ B " d".

Definition wit5_doc : bytes :=
  B "a <b>" ++ [NL] ++ B "(( c" ++ [NL] ++ B "))??" ++ [NL; NL]
    ++ B "//** y z **//" ++ [NL] ++ B "__5__" ++ [NL] ++ B "d" ++ [NL].

(** The document ends with a newline and two near-blank lines behind it:
    lines that hold nothing but the characters of the class of [blankRE]. *)
Definition twoNearBlankLinesAtEnd (doc : bytes) : Prop :=
  exists a g1 g2,
    doc = a ++ NL :: g1 ++ NL :: g2 ++ [NL]
    /\ Forall (fun c => is_blankish c = true) g1
    /\ Forall (fun c => is_blankish c = true) g2.

(** A template whose optional block holds an underscore only, the state of
    the loop in front of the end-optional tag and the buffer after the
    flush. *)
Definition cex3_t : bytes := B "Signed<<beginOptional>>_<<endOptional>>here".

Definition cex3_st : state := mkState 24 23 (B "Signed" ++ [NL] ++ B "(( ") [6].

Definition cex3_b : bytes := B "Signed" ++ [NL] ++ B "(( _".

(** A line that the variable handler writes and ends with a newline, at a
    variable tag that the loop meets: a line of the text that the handler
    appends behind the newline of its first [indentNL], the last,
    unterminated one apart. *)
Definition handlerLine (t : bytes) (l : bytes) : Prop :=
  exists st tag b,
    reach t st /\ atTag t st tag b /\ HasPrefix tag (B "<<var;") = true
    /\ In l (removelast
               (lines (skipn (S (length b))
                             (variable (findAttr tag (B "name"))
                                       (findAttr tag (B "original")) b)))).

(* ================================================================= *)
(** ** Evaluations of the translator *)

Example translate_hello_world :
  templateToLRE (B "Hello <<var;" ++ attr "name" "x" ++ B ";"
                   ++ attr "original" "World" ++ B "/>>!")
  = Ok (B "Hello" ++ [NL] ++ B "//** World **//" ++ [NL] ++ B "__5__"
          ++ [NL] ++ B "!" ++ [NL], None).
Proof. vm_compute. reflexivity. Qed.

Example translate_plural_suffix :
  templateToLRE (B "name<<beginOptional>>s<<endOptional>>")
  = Ok (B "name" ++ [NL], None).
Proof. vm_compute. reflexivity. Qed.

Example translate_nested_optional :
  templateToLRE (B "a<<beginOptional>>b<<beginOptional>>s<<endOptional>>c<<endOptional>>")
  = Ok (B "a" ++ [NL] ++ B "(( bc" ++ [NL] ++ B "))??" ++ [NL], None).
Proof. vm_compute. reflexivity. Qed.

(** C1 (the code departs from the claim).  A text in front of the copyright
    marker stays in the returned document.  For the marker that the
    [copyright] variable writes, [//** Copyright **//], no warning is printed
    either, because the check looks for the marker without its spaces; where
    that spelling occurs (here through an [original] attribute) the warning
    is printed and the text before it is still returned. *)
Theorem C1_preamble_not_removed :
  templateToLRE (B "Hello " ++ var "copyright" "c")
  = Ok (B "Hello" ++ [NL] ++ B "//** Copyright **//" ++ [NL; NL], None)
  /\ templateToLRE (B "ab " ++ var "x" "//**Copyright**//")
     = Ok (B "ab" ++ [NL] ++ B "//** //**Copyright**// **//" ++ [NL]
             ++ B "__5__" ++ [NL],
           Some (B "ab" ++ [NL] ++ B "//**")).
Proof. split; vm_compute; reflexivity. Qed.

(** C6 (the code departs from the claim).  A template without any tag whose
    only line is indented by 81 spaces makes [wrap] read [line[-1]]: the
    translation panics although the markup is well formed. *)
Theorem C6_wrap_panics_on_deep_indent :
  Index (repeat SP 81 ++ B "x") (B "<<") = None
  /\ templateToLRE (repeat SP 81 ++ B "x") = Panic IndexOutOfRange
  /\ templateToLRE (repeat SP 80 ++ B "x") = Ok (repeat SP 80 ++ B "x" ++ [NL], None).
Proof. repeat split; vm_compute; reflexivity. Qed.

(* ================================================================= *)
(** ** Lists of bytes *)

Lemma bytes_eqb_eq (a b : bytes) : bytes_eqb a b = true <-> a = b.
Proof.
  revert b; induction a as [|c a IH]; intros [|d b]; simpl; split;
    try congruence; try reflexivity.
  - rewrite andb_true_iff, Ascii.eqb_eq, IH. intros [-> ->]. reflexivity.
  - intros E. injection E as -> ->. rewrite Ascii.eqb_refl. simpl.
    apply IH. reflexivity.
Qed.

Lemma bytes_eqb_neq (a b : bytes) : bytes_eqb a b = false <-> a <> b.
Proof.
  rewrite <- bytes_eqb_eq. destruct (bytes_eqb a b); split; congruence.
Qed.

Lemma takeWhile_dropWhile f (s : bytes) : takeWhile f s ++ dropWhile f s = s.
Proof.
  induction s as [|c r IH]; simpl; [reflexivity|].
  destruct (f c); simpl; [rewrite IH|]; reflexivity.
Qed.

Lemma takeWhile_Forall f (s : bytes) : Forall (fun c => f c = true) (takeWhile f s).
Proof.
  induction s as [|c r IH]; simpl; [constructor|].
  destruct (f c) eqn:E; constructor; assumption.
Qed.

Lemma dropWhile_head f (s : bytes) c r : dropWhile f s = c :: r -> f c = false.
Proof.
  induction s as [|d s IH]; simpl; [discriminate|].
  destruct (f d) eqn:E; [exact IH|]. intros H. injection H as -> ->. exact E.
Qed.

Lemma dropWhile_stops f (s : bytes) : stops f (dropWhile f s).
Proof.
  destruct (dropWhile f s) eqn:E; simpl; [exact I|].
  eapply dropWhile_head; eassumption.
Qed.

Lemma takeWhile_app_stops f (x y : bytes) :
  stops f y -> takeWhile f (x ++ y) = takeWhile f x.
Proof.
  intros Hy. induction x as [|c x IH]; simpl.
  - destruct y as [|d y]; simpl in *; [reflexivity|]. rewrite Hy. reflexivity.
  - destruct (f c); [rewrite IH|]; reflexivity.
Qed.

Lemma dropWhile_app_stops f (x y : bytes) :
  stops f y -> dropWhile f (x ++ y) = dropWhile f x ++ y.
Proof.
  intros Hy. induction x as [|c x IH]; simpl.
  - destruct y as [|d y]; simpl in *; [reflexivity|]. rewrite Hy. reflexivity.
  - destruct (f c); [exact IH|]. reflexivity.
Qed.

Lemma takeWhile_all f (x : bytes) :
  Forall (fun c => f c = true) x -> takeWhile f x = x.
Proof.
  induction 1 as [|c x Hc _ IH]; simpl; [reflexivity|].
  rewrite Hc, IH. reflexivity.
Qed.

Lemma dropWhile_all f (x : bytes) :
  Forall (fun c => f c = true) x -> dropWhile f x = [].
Proof.
  induction 1 as [|c x Hc _ IH]; simpl; [reflexivity|].
  rewrite Hc. exact IH.
Qed.

Lemma takeWhile_stops f (y : bytes) : stops f y -> takeWhile f y = [].
Proof. destruct y as [|c y]; simpl; [reflexivity|]. intros ->. reflexivity. Qed.

Lemma dropWhile_id f (y : bytes) : stops f y -> dropWhile f y = y.
Proof. destruct y as [|c y]; simpl; [reflexivity|]. intros ->. reflexivity. Qed.

Lemma dropWhile_length f (s : bytes) : length (dropWhile f s) <= length s.
Proof.
  induction s as [|c s IH]; simpl; [lia|]. destruct (f c); simpl; lia.
Qed.

Lemma In_firstn (A : Type) (x : A) n l : In x (firstn n l) -> In x l.
Proof.
  intros H. rewrite <- (firstn_skipn n l). apply in_or_app. left. exact H.
Qed.

Lemma In_skipn (A : Type) (x : A) n l : In x (skipn n l) -> In x l.
Proof.
  intros H. rewrite <- (firstn_skipn n l). apply in_or_app. right. exact H.
Qed.

Lemma skipn_length_app (A : Type) (a b : list A) : skipn (length a) (a ++ b) = b.
Proof.
  rewrite skipn_app, skipn_all, Nat.sub_diag. reflexivity.
Qed.

Lemma nth_error_app_l (A : Type) (x y : list A) k a :
  nth_error x k = Some a -> nth_error (x ++ y) k = Some a.
Proof.
  intros H. rewrite nth_error_app1; [exact H|].
  apply nth_error_Some. congruence.
Qed.

(* ================================================================= *)
(** ** The start of the last line *)

Lemma lineStart_le (all : bytes) i : lineStart all i <= i.
Proof.
  induction i as [|i IH]; simpl; [lia|].
  destruct (Ascii.eqb (nth i all SP) NL); lia.
Qed.

Lemma lineStart_no_NL (all : bytes) i k :
  lineStart all i <= k -> k < i -> nth k all SP <> NL.
Proof.
  induction i as [|i IH]; simpl; [lia|].
  destruct (Ascii.eqb (nth i all SP) NL) eqn:E; [lia|].
  intros H1 H2. destruct (Nat.eq_dec k i) as [->|N].
  - apply Ascii.eqb_neq. exact E.
  - apply IH; lia.
Qed.

(** An offset that holds a newline lies before the start of the last line. *)
Lemma lineStart_after_NL (b : bytes) s :
  nth_error b s = Some NL -> s < lineStart b (length b).
Proof.
  intros H. assert (Hs : s < length b) by (apply nth_error_Some; congruence).
  destruct (Nat.lt_ge_cases s (lineStart b (length b))) as [L|G]; [exact L|].
  exfalso. apply (lineStart_no_NL b (length b) s G Hs).
  erewrite nth_error_nth; [reflexivity|exact H].
Qed.

Lemma lineStart_tail_no_NL (b : bytes) :
  ~ In NL (skipn (lineStart b (length b)) b).
Proof.
  intros H. apply In_nth_error in H. destruct H as [k Hk].
  rewrite nth_error_skipn in Hk.
  assert (L : lineStart b (length b) + k < length b)
    by (apply nth_error_Some; congruence).
  apply (lineStart_no_NL b (length b)) with (k := lineStart b (length b) + k);
    [lia|exact L|].
  erewrite nth_error_nth; [reflexivity|exact Hk].
Qed.

Lemma lineStart_none (b : bytes) : ~ In NL b -> lineStart b (length b) = 0.
Proof.
  intros H. destruct (lineStart b (length b)) as [|k] eqn:E; [reflexivity|].
  exfalso. apply H.
  assert (G : forall i, lineStart b i = S k -> nth k b SP = NL).
  { induction i as [|i IH]; simpl; [discriminate|].
    destruct (Ascii.eqb (nth i b SP) NL) eqn:E2.
    - intros [= <-]. apply Ascii.eqb_eq. exact E2.
    - exact IH. }
  specialize (G _ E). rewrite <- G. apply nth_In.
  pose proof (lineStart_le b (length b)). lia.
Qed.

(* ================================================================= *)
(** ** The break point of [wrap] *)

Lemma blank_in_range (line : bytes) j :
  is_blank (nth j line "000"%char) = true -> j < length line.
Proof.
  intros H. destruct (Nat.lt_ge_cases j (length line)) as [L|G]; [exact L|].
  rewrite nth_overflow in H by exact G. discriminate.
Qed.

Lemma backBlank_Some (line : bytes) j0 j :
  backBlank line j0 = Some j ->
  j <= j0 /\ is_blank (nth j line "000"%char) = true.
Proof.
  induction j0 as [|j0 IH]; simpl.
  - destruct (is_blank (nth 0 line "000"%char)) eqn:E; [|discriminate].
    intros [= <-]. split; [lia|exact E].
  - destruct (is_blank (nth (S j0) line "000"%char)) eqn:E.
    + intros [= <-]. split; [lia|exact E].
    + intros H. apply IH in H. split; [lia|apply H].
Qed.

Lemma backBlank_None (line : bytes) j0 :
  backBlank line j0 = None ->
  forall k, k <= j0 -> is_blank (nth k line "000"%char) = false.
Proof.
  induction j0 as [|j0 IH]; simpl.
  - destruct (is_blank (nth 0 line "000"%char)) eqn:E; [discriminate|].
    intros _ k Hk. replace k with 0 by lia. exact E.
  - destruct (is_blank (nth (S j0) line "000"%char)) eqn:E; [discriminate|].
    intros H k Hk. destruct (Nat.eq_dec k (S j0)) as [->|N]; [exact E|].
    apply IH; [exact H|lia].
Qed.

Lemma takeWhile_nth f (s : bytes) k d :
  k < length (takeWhile f s) -> f (nth k s d) = true.
Proof.
  revert k; induction s as [|c s IH]; simpl; intros k Hk; [lia|].
  destruct (f c) eqn:E; simpl in Hk; [|lia].
  destruct k as [|k]; [exact E|]. apply IH. lia.
Qed.

Lemma takeWhile_length f (s : bytes) : length (takeWhile f s) <= length s.
Proof.
  induction s as [|c s IH]; simpl; [lia|]. destruct (f c); simpl; lia.
Qed.

Lemma takeWhile_stop_nth f (s : bytes) d :
  length (takeWhile f s) < length s -> f (nth (length (takeWhile f s)) s d) = false.
Proof.
  induction s as [|c s IH]; simpl; [lia|].
  destruct (f c) eqn:E; simpl; [|intros _; exact E].
  intros H. apply IH. lia.
Qed.

Lemma nth_skipn_plus (s : bytes) j k d : nth k (skipn j s) d = nth (j + k) s d.
Proof.
  revert s; induction j as [|j IH]; intros s; simpl; [reflexivity|].
  destruct s as [|c s]; [destruct k; reflexivity|]. apply IH.
Qed.

Lemma fwdBlank_spec (line : bytes) j0 :
  j0 <= length line ->
  j0 <= fwdBlank line j0 <= length line
  /\ (forall k, j0 <= k -> k < fwdBlank line j0 ->
                is_blank (nth k line "000"%char) = false)
  /\ (fwdBlank line j0 <> length line ->
      is_blank (nth (fwdBlank line j0) line "000"%char) = true).
Proof.
  intros Hj. unfold fwdBlank.
  set (f := fun c => negb (is_blank c)).
  pose proof (takeWhile_length f (skipn j0 line)) as L.
  rewrite length_skipn in L. repeat split; try lia.
  - intros k H1 H2.
    assert (E : f (nth (k - j0) (skipn j0 line) "000"%char) = true)
      by (apply takeWhile_nth; lia).
    rewrite nth_skipn_plus in E. replace (j0 + (k - j0)) with k in E by lia.
    unfold f in E. destruct (is_blank (nth k line "000"%char)); [discriminate|reflexivity].
  - intros N.
    assert (E : f (nth (length (takeWhile f (skipn j0 line))) (skipn j0 line) "000"%char) = false)
      by (apply takeWhile_stop_nth; rewrite length_skipn; lia).
    rewrite nth_skipn_plus in E. subst f. cbv beta in E.
    match type of E with negb ?b = false => destruct b end;
      [reflexivity|discriminate].
Qed.

Lemma breakPoint_Some (line : bytes) j0 j :
  j0 <= length line ->
  breakPoint line j0 = Some j ->
  j < length line
  /\ is_blank (nth j line "000"%char) = true
  /\ (j <= j0 \/ forall k, k < j -> is_blank (nth k line "000"%char) = false).
Proof.
  intros Hj. unfold breakPoint.
  destruct (backBlank line j0) as [j'|] eqn:Eb.
  - intros [= <-]. apply backBlank_Some in Eb. destruct Eb as [Le Bl].
    split; [apply blank_in_range; exact Bl|]. split; [exact Bl|]. left. exact Le.
  - destruct (fwdBlank_spec line j0 Hj) as (R & F1 & F2). cbv zeta.
    destruct (fwdBlank line j0 =? length line) eqn:E; [discriminate|].
    apply Nat.eqb_neq in E. intros [= <-].
    split; [lia|]. split; [apply F2; exact E|]. right.
    intros k Hk. destruct (Nat.le_gt_cases k j0) as [A|A].
    + apply (backBlank_None line j0 Eb). exact A.
    + apply F1; lia.
Qed.

Lemma breakPoint_None (line : bytes) j0 :
  j0 <= length line ->
  breakPoint line j0 = None ->
  forall k, is_blank (nth k line "000"%char) = false.
Proof.
  intros Hj. unfold breakPoint.
  destruct (backBlank line j0) as [j'|] eqn:Eb; [discriminate|].
  destruct (fwdBlank_spec line j0 Hj) as (R & F1 & F2). cbv zeta.
  destruct (fwdBlank line j0 =? length line) eqn:E; [|discriminate].
  apply Nat.eqb_eq in E. intros _ k.
  destruct (Nat.le_gt_cases k j0) as [A|A].
  - apply (backBlank_None line j0 Eb). exact A.
  - destruct (Nat.lt_ge_cases k (length line)) as [C|C].
    + apply F1; lia.
    + rewrite nth_overflow by exact C. reflexivity.
Qed.

(* ================================================================= *)
(** ** Lines of a text and the width of the lines written by [wrap] *)

Lemma lines_not_nil (s : bytes) : lines s <> [].
Proof.
  induction s as [|c s IH]; simpl; [discriminate|].
  destruct (Ascii.eqb c NL); [discriminate|].
  destruct (lines s); [contradiction|discriminate].
Qed.

Lemma lines_no_NL (x : bytes) : ~ In NL x -> lines x = [x].
Proof.
  induction x as [|c x IH]; simpl; intros H; [reflexivity|].
  destruct (Ascii.eqb c NL) eqn:E.
  - apply Ascii.eqb_eq in E. exfalso. apply H. left. exact E.
  - rewrite IH; [reflexivity|]. intros G. apply H. right. exact G.
Qed.

Lemma lines_app_NL (a b : bytes) : lines (a ++ NL :: b) = lines a ++ lines b.
Proof.
  induction a as [|c a IH]; simpl; [reflexivity|].
  destruct (Ascii.eqb c NL); rewrite IH; [reflexivity|].
  pose proof (lines_not_nil a) as N.
  destruct (lines a) as [|l ls]; [contradiction|reflexivity].
Qed.

Lemma lineOK_token (ind tok : bytes) :
  Forall (fun c => is_blank c = true) ind ->
  Forall (fun c => is_blank c = false) tok ->
  lineOK (ind ++ tok).
Proof.
  intros Hi Ht. right.
  rewrite dropWhile_app_stops by (destruct Ht as [|c tok Hc _]; simpl; auto).
  rewrite dropWhile_all by exact Hi. simpl.
  induction Ht as [|c tok Hc _ IH]; simpl; [reflexivity|].
  rewrite Hc. exact IH.
Qed.

Lemma Forall_nth_blank (line : bytes) :
  (forall k, is_blank (nth k line "000"%char) = false) ->
  Forall (fun c => is_blank c = false) line.
Proof.
  intros H. apply Forall_forall. intros c Hc.
  apply (In_nth _ _ "000"%char) in Hc. destruct Hc as (k & _ & <-). apply H.
Qed.

Lemma Forall_firstn_blank (line : bytes) j :
  (forall k, k < j -> is_blank (nth k line "000"%char) = false) ->
  Forall (fun c => is_blank c = false) (firstn j line).
Proof.
  intros H. apply Forall_forall. intros c Hc.
  apply (In_nth _ _ "000"%char) in Hc. destruct Hc as (k & Hk & <-).
  rewrite length_firstn in Hk.
  rewrite nth_firstn. replace (k <? j) with true by (symmetry; apply Nat.ltb_lt; lia).
  apply H. lia.
Qed.

Lemma blank_not_NL (c : ascii) : is_blank c = true -> c <> NL.
Proof. intros H ->. discriminate. Qed.

Lemma Forall_blank_no_NL (ind : bytes) :
  Forall (fun c => is_blank c = true) ind -> ~ In NL ind.
Proof.
  intros H G. rewrite Forall_forall in H. apply H in G. discriminate.
Qed.

Lemma wrapLoop_eq fuel indent line b :
  wrapLoop fuel indent line b =
  if (Z.of_nat (length line) >? Target - Z.of_nat (length indent))%Z then
    if (Target - Z.of_nat (length indent) <? 0)%Z then Panic IndexOutOfRange
    else
      match breakPoint line (Z.to_nat (Target - Z.of_nat (length indent))), fuel with
      | Some j, S fuel' =>
          wrapLoop fuel' indent (dropWhile is_blank (skipn j line))
                   (b ++ indent ++ firstn j line ++ [NL])
      | _, _ => Ok (b ++ indent ++ line)
      end
  else Ok (b ++ indent ++ line).
Proof. destruct fuel; reflexivity. Qed.

(** What the inner loop of [wrap] writes for one line [body ++ tl], where
    [tl] is the newline that ends the line, if there is one. *)
Lemma wrapLoop_spec fuel ind :
  Forall (fun c => is_blank c = true) ind ->
  forall body tl b out,
  length (body ++ tl) <= fuel ->
  ~ In NL body -> tl = [] \/ tl = [NL] ->
  wrapLoop fuel ind (body ++ tl) b = Ok out ->
  exists X, out = b ++ X ++ tl /\ Forall lineOK (lines X).
Proof.
  intros Hind. pose proof (Forall_blank_no_NL ind Hind) as HindNL.
  induction fuel as [|fuel IH]; intros body tl b out Hlen Hbody Htl;
    rewrite wrapLoop_eq; unfold Target;
    (destruct (Z.of_nat (length (body ++ tl)) >? 80 - Z.of_nat (length ind))%Z eqn:Ec;
     [ destruct (80 - Z.of_nat (length ind) <? 0)%Z eqn:Ew; [discriminate|]
     | intros [= <-]; exists (ind ++ body); split;
       [ rewrite <- app_assoc; reflexivity
       | rewrite lines_no_NL by (rewrite in_app_iff; tauto);
         apply Forall_cons; [|apply Forall_nil]; left;
         rewrite length_app in *; rewrite Z.gtb_ltb in Ec; apply Z.ltb_ge in Ec; lia ] ]).
  - (* no fuel: the line is empty and cannot exceed the width *)
    apply Z.gtb_lt in Ec. apply Z.ltb_ge in Ew. lia.
  - apply Z.gtb_lt in Ec. apply Z.ltb_ge in Ew.
    assert (Hj0 : Z.to_nat (80 - Z.of_nat (length ind)) <= length (body ++ tl)) by lia.
    assert (Hstop : stops is_blank tl) by (destruct Htl as [->| ->]; simpl; auto).
    destruct (breakPoint (body ++ tl) (Z.to_nat (80 - Z.of_nat (length ind))))
      as [j|] eqn:Eb.
    + destruct (breakPoint_Some _ _ _ Hj0 Eb) as (Hjl & Hjb & Hcase).
      assert (Hjbody : j < length body).
      { destruct (Nat.lt_ge_cases j (length body)) as [L|G]; [exact L|].
        exfalso. rewrite app_nth2 in Hjb by exact G.
        rewrite length_app in Hjl.
        destruct Htl as [->| ->]; simpl in Hjl; [lia|].
        replace (j - length body) with 0 in Hjb by lia. discriminate. }
      rewrite firstn_app, skipn_app.
      replace (j - length body) with 0 by lia. simpl firstn. simpl skipn.
      rewrite app_nil_r. rewrite dropWhile_app_stops by exact Hstop.
      intros Hrec. apply IH in Hrec; [| |intros G|exact Htl].
      * destruct Hrec as (X & -> & HX).
        exists (ind ++ firstn j body ++ NL :: X). split.
        { repeat rewrite <- app_assoc. reflexivity. }
        replace (ind ++ firstn j body ++ NL :: X)
          with ((ind ++ firstn j body) ++ NL :: X) by (rewrite <- app_assoc; reflexivity).
        rewrite lines_app_NL. apply Forall_app. split; [|exact HX].
        rewrite lines_no_NL.
        2:{ rewrite in_app_iff. intros [G|G]; [tauto|].
            apply Hbody. eapply In_firstn; exact G. }
        apply Forall_cons; [|apply Forall_nil].
        destruct Hcase as [Le|Tok].
        -- left. rewrite length_app, length_firstn. lia.
        -- apply lineOK_token; [exact Hind|].
           apply Forall_firstn_blank. intros k Hk.
           specialize (Tok k Hk). rewrite app_nth1 in Tok by lia. exact Tok.
      * (* the rest is shorter: the blank at [j] is dropped *)
        rewrite app_nth1 in Hjb by exact Hjbody.
        assert (Hd : length (dropWhile is_blank (skipn j body)) < length (skipn j body)).
        { rewrite <- (firstn_skipn j body) in Hjb at 1.
          rewrite app_nth2 in Hjb by (rewrite length_firstn; lia).
          rewrite length_firstn in Hjb.
          replace (j - Nat.min j (length body)) with 0 in Hjb by lia.
          assert (Hs : length (skipn j body) <> 0) by (rewrite length_skipn; lia).
          destruct (skipn j body) as [|c r]; [simpl in Hs; lia|].
          simpl in Hjb. simpl. rewrite Hjb.
          pose proof (dropWhile_length is_blank r). lia. }
        rewrite length_skipn in Hd. rewrite length_app in *. lia.
      * apply Hbody. 
        assert (In NL (skipn j body)).
        { rewrite <- (takeWhile_dropWhile is_blank (skipn j body)).
          apply in_or_app. right. exact G. }
        eapply In_skipn; eassumption.
    + intros [= <-]. exists (ind ++ body). split.
      { rewrite <- app_assoc. reflexivity. }
      rewrite lines_no_NL by (rewrite in_app_iff; tauto).
      apply Forall_cons; [|apply Forall_nil]. apply lineOK_token; [exact Hind|].
      pose proof (Forall_nth_blank _ (breakPoint_None _ _ Hj0 Eb)) as F.
      apply Forall_app in F. apply F.
Qed.

Lemma SplitAfterNL_ok (text : bytes) : splitOK (SplitAfterNL text).
Proof.
  induction text as [|c r IH]; simpl; [tauto|].
  destruct (Ascii.eqb c NL) eqn:E.
  - destruct (SplitAfterNL r) as [|l ls]; [contradiction|].
    split; [|exact IH]. exists []. split; [reflexivity|tauto].
  - apply Ascii.eqb_neq in E.
    destruct (SplitAfterNL r) as [|l ls]; [contradiction|].
    simpl in IH. destruct ls as [|l2 ls].
    + simpl. intros [G|G]; [exact (E G)|exact (IH G)].
    + destruct IH as ((body & -> & Hb) & IH). split; [|exact IH].
      exists (c :: body). split; [reflexivity|].
      simpl. intros [G|G]; [exact (E G)|exact (Hb G)].
Qed.

Lemma splitOK_prepend (p l : bytes) ls :
  ~ In NL p -> splitOK (l :: ls) -> splitOK ((p ++ l) :: ls).
Proof.
  intros Hp. simpl. destruct ls as [|l2 ls].
  - intros H G. apply in_app_or in G. tauto.
  - intros ((body & -> & Hb) & H). split; [|exact H].
    exists (p ++ body). split; [rewrite app_assoc; reflexivity|].
    intros G. apply in_app_or in G. tauto.
Qed.

Lemma wrapLines_spec ls :
  forall b out,
  splitOK ls -> wrapLines ls b = Ok out ->
  exists T, out = b ++ T /\ Forall lineOK (lines T).
Proof.
  induction ls as [|l rest IH]; intros b out Hs; [contradiction|].
  simpl in Hs. simpl wrapLines. destruct rest as [|l2 rest].
  - pose proof (wrapLoop_spec (length (dropWhile is_blank l)) (takeWhile is_blank l)
                  (takeWhile_Forall is_blank l) (dropWhile is_blank l) [] b) as W.
    rewrite app_nil_r in W.
    destruct (wrapLoop (length (dropWhile is_blank l)) (takeWhile is_blank l)
                (dropWhile is_blank l) b) as [o|p] eqn:E; [|discriminate].
    simpl. intros [= <-].
    destruct (W o (le_n _)) as (X & -> & HX); [| left; reflexivity | reflexivity |].
    + intros G. apply Hs.
      rewrite <- (takeWhile_dropWhile is_blank l). apply in_or_app. right. exact G.
    + exists X. rewrite app_nil_r. split; [reflexivity|exact HX].
  - destruct Hs as ((body & -> & Hb) & Hs).
    assert (St : stops is_blank [NL]) by reflexivity.
    rewrite takeWhile_app_stops, dropWhile_app_stops by exact St.
    pose proof (wrapLoop_spec (length (dropWhile is_blank body ++ [NL]))
                  (takeWhile is_blank body) (takeWhile_Forall is_blank body)
                  (dropWhile is_blank body) [NL] b) as W.
    destruct (wrapLoop (length (dropWhile is_blank body ++ [NL]))
                (takeWhile is_blank body) (dropWhile is_blank body ++ [NL]) b)
      as [o|p] eqn:E; [|discriminate].
    simpl bind. intros Hrec.
    destruct (W o (le_n _)) as (X & -> & HX); [| right; reflexivity | reflexivity |].
    + intros G. apply Hb.
      rewrite <- (takeWhile_dropWhile is_blank body). apply in_or_app. right. exact G.
    + apply IH in Hrec; [|exact Hs]. destruct Hrec as (T & -> & HT).
      exists (X ++ NL :: T). split.
      * repeat rewrite <- app_assoc. reflexivity.
      * rewrite lines_app_NL. apply Forall_app. split; assumption.
Qed.

(** [wrap] keeps the buffer up to the start of its last line and writes
    lines that respect the width. *)
Lemma wrap_spec (b text out : bytes) :
  wrap b text = Ok out ->
  exists T, out = firstn (lineStart b (length b)) b ++ T
            /\ Forall lineOK (lines T).
Proof.
  unfold wrap. pose proof (SplitAfterNL_ok text) as Hs.
  destruct (SplitAfterNL text) as [|l0 ls]; [contradiction|].
  apply wrapLines_spec. apply splitOK_prepend; [|exact Hs].
  apply lineStart_tail_no_NL.
Qed.

(** [wrap] keeps every newline of the buffer where it is. *)
Lemma wrap_keeps_NL (b text out : bytes) s :
  wrap b text = Ok out -> nth_error b s = Some NL -> nth_error out s = Some NL.
Proof.
  intros W H. destruct (wrap_spec _ _ _ W) as (T & -> & _).
  apply nth_error_app_l. rewrite nth_error_firstn.
  pose proof (lineStart_after_NL b s H) as L.
  apply Nat.ltb_lt in L. rewrite L. exact H.
Qed.

Lemma indentNL_app (b : bytes) :
  indentNL b = b ++ NL :: takeWhile is_blank (skipn (lineStart b (length b)) b).
Proof. reflexivity. Qed.

(** After a newline followed by text without newline, the last line starts
    behind that newline. *)
Lemma lineStart_app_NL (pre x : bytes) :
  ~ In NL x ->
  lineStart (pre ++ NL :: x) (length (pre ++ NL :: x)) = S (length pre).
Proof.
  intros Hx.
  assert (G : forall k, k <= length x ->
              lineStart (pre ++ NL :: x) (S (length pre) + k) = S (length pre)).
  { induction k as [|k IH]; intros Hk.
    - rewrite Nat.add_0_r. simpl. rewrite app_nth2 by lia.
      rewrite Nat.sub_diag. reflexivity.
    - replace (S (length pre) + S k) with (S (S (length pre) + k)) by lia.
      simpl lineStart at 1.
      replace (nth (S (length pre + k)) (pre ++ NL :: x) SP) with (nth k x SP).
      + destruct (Ascii.eqb (nth k x SP) NL) eqn:E.
        * exfalso. apply Hx. apply Ascii.eqb_eq in E. rewrite <- E.
          apply nth_In. lia.
        * apply IH. lia.
      + rewrite app_nth2 by lia.
        replace (S (length pre + k) - length pre) with (S k) by lia. reflexivity. }
  rewrite length_app. simpl length.
  replace (length pre + S (length x)) with (S (length pre) + length x) by lia.
  apply G. lia.
Qed.

Lemma skipn_app_NL (pre x : bytes) :
  skipn (S (length pre)) (pre ++ NL :: x) = x.
Proof.
  rewrite skipn_app. rewrite skipn_all2 by lia.
  replace (S (length pre) - length pre) with 1 by lia. reflexivity.
Qed.

(** [indentNL] after a marker written behind an [indentNL]: the marker
    sits on a line of its own and the indentation is kept. *)
Lemma indentNL_marker (b m : bytes) :
  ~ In NL m -> stops is_blank m ->
  indentNL (indentNL b ++ m)
  = b ++ NL :: takeWhile is_blank (skipn (lineStart b (length b)) b) ++ m
      ++ NL :: takeWhile is_blank (skipn (lineStart b (length b)) b).
Proof.
  intros Hm Hs. rewrite (indentNL_app b).
  set (ind := takeWhile is_blank (skipn (lineStart b (length b)) b)).
  assert (Hind : Forall (fun c => is_blank c = true) ind)
    by apply takeWhile_Forall.
  rewrite <- app_assoc. simpl app.
  unfold indentNL.
  rewrite lineStart_app_NL.
  2:{ intros G. apply in_app_or in G. destruct G as [G|G]; [|tauto].
      exact (Forall_blank_no_NL ind Hind G). }
  rewrite skipn_app_NL, takeWhile_app_stops by exact Hs.
  rewrite takeWhile_all by exact Hind.
  repeat rewrite <- app_assoc. simpl app. rewrite <- app_assoc. reflexivity.
Qed.

(* ================================================================= *)
(** ** The invariant of the optional block stack *)

Lemma StronglySorted_snoc (l : list nat) x :
  StronglySorted lt (l ++ [x]) <-> StronglySorted lt l /\ Forall (fun y => y < x) l.
Proof.
  induction l as [|a l IH]; simpl.
  - split; [intros _; split; constructor|intros _; repeat constructor].
  - split.
    + intros H. apply StronglySorted_inv in H. destruct H as [H1 H2].
      apply IH in H1. destruct H1 as [H1 H3].
      apply Forall_app in H2. destruct H2 as [H2 H4].
      split; [constructor; assumption|].
      constructor; [|exact H3]. inversion H4; assumption.
    + intros [H1 H2]. apply StronglySorted_inv in H1. destruct H1 as [H1 H3].
      inversion H2; subst. constructor.
      * apply IH. split; assumption.
      * apply Forall_app. split; [exact H3|]. repeat constructor. assumption.
Qed.

Lemma rev_cons_inv (A : Type) (l : list A) x r : rev l = x :: r -> l = rev r ++ [x].
Proof.
  intros H. rewrite <- (rev_involutive l), H. reflexivity.
Qed.

Lemma stackOK_nil (b : bytes) : stackOK b [].
Proof. split; constructor. Qed.

Lemma stackOK_app (b x : bytes) opt : stackOK b opt -> stackOK (b ++ x) opt.
Proof.
  intros [H1 H2]. split; [exact H1|].
  eapply Forall_impl; [|exact H2]. intros s. apply nth_error_app_l.
Qed.

Lemma stackOK_wrap (b text out : bytes) opt :
  wrap b text = Ok out -> stackOK b opt -> stackOK out opt.
Proof.
  intros W [H1 H2]. split; [exact H1|].
  eapply Forall_impl; [|exact H2]. intros s. apply wrap_keeps_NL with (text := text).
  exact W.
Qed.

Lemma stackOK_push (b x : bytes) opt :
  stackOK b opt -> stackOK (indentNL b ++ x) (opt ++ [length b]).
Proof.
  intros [H1 H2]. unfold indentNL. split.
  - apply StronglySorted_snoc. split; [exact H1|].
    eapply Forall_impl; [|exact H2]. intros s Hs. apply nth_error_Some. congruence.
  - apply Forall_app. split.
    + eapply Forall_impl; [|exact H2]. intros s Hs.
      repeat apply nth_error_app_l. exact Hs.
    + repeat constructor. apply nth_error_app_l.
      rewrite nth_error_app2 by lia. rewrite Nat.sub_diag. reflexivity.
Qed.

Lemma stackOK_pop (b : bytes) opt s :
  stackOK b (opt ++ [s]) ->
  stackOK b opt /\ Forall (fun y => y < s) opt /\ nth_error b s = Some NL.
Proof.
  intros [H1 H2]. apply StronglySorted_snoc in H1. destruct H1 as [H1 H3].
  apply Forall_app in H2. destruct H2 as [H2 H4].
  split; [split; assumption|]. split; [exact H3|]. inversion H4; assumption.
Qed.

Lemma stackOK_truncate (b : bytes) opt s :
  stackOK b opt -> Forall (fun y => y < s) opt -> stackOK (firstn s b) opt.
Proof.
  intros [H1 H2] H3. split; [exact H1|].
  rewrite Forall_forall in *. intros y Hy.
  rewrite nth_error_firstn. specialize (H3 y Hy). apply Nat.ltb_lt in H3.
  rewrite H3. apply H2. exact Hy.
Qed.

(** The variable handler only appends to the buffer. *)
Lemma variable_app (name original b : bytes) :
  exists x, variable name original b = b ++ x.
Proof.
  unfold variable.
  repeat match goal with
         | |- context [if ?c then _ else _] => destruct c
         end;
    repeat rewrite indentNL_app; repeat rewrite <- app_assoc;
    eexists; reflexivity.
Qed.

(** The end-optional handler on a stack whose top is a newline of the
    buffer: the newline branch is taken, and the block is cut off or the
    closing marker stays. *)
Lemma endOptional_spec (b : bytes) opt s ropt :
  rev opt = s :: ropt -> nth_error b s = Some NL ->
  existsb (Ascii.eqb NL) (skipn s b) = true
  /\ endOptional b opt
     = Ok (if trivialWords (words (skipn s (indentNL (indentNL b ++ B "))??"))))
           then firstn s b
           else indentNL (indentNL b ++ B "))??"),
           rev ropt).
Proof.
  intros Hr Hs.
  assert (L : s < length b) by (apply nth_error_Some; congruence).
  assert (E : existsb (Ascii.eqb NL) (skipn s b) = true).
  { apply existsb_exists. exists NL. split; [|reflexivity].
    rewrite <- (firstn_skipn s b) in Hs.
    rewrite nth_error_app2 in Hs by (rewrite length_firstn; lia).
    rewrite length_firstn in Hs. replace (s - Nat.min s (length b)) with 0 in Hs by lia.
    destruct (skipn s b) as [|c r]; [discriminate|].
    simpl in Hs. injection Hs as ->. left. reflexivity. }
  split; [exact E|].
  unfold endOptional. rewrite Hr.
  replace (length b <? s) with false by (symmetry; apply Nat.ltb_ge; lia).
  rewrite E.
  destruct (trivialWords _); [|reflexivity].
  f_equal. f_equal. repeat rewrite indentNL_app. repeat rewrite <- app_assoc.
  rewrite firstn_app. replace (s - length b) with 0 by lia.
  rewrite firstn_O, app_nil_r. reflexivity.
Qed.

(** Every iteration of the loop keeps the invariant of the stack. *)
Lemma step_stackOK (t : bytes) (st st' : state) :
  step t st = Ok st' ->
  stackOK (buf st) (optStart st) -> stackOK (buf st') (optStart st').
Proof.
  unfold step. intros H Inv.
  destruct (structural (skipn (pos st) t)).
  { destruct (wrap (buf st) (slice t (start st) (pos st + 1))) as [b|] eqn:W;
      [|discriminate].
    cbn [bind] in H. injection H as <-. cbn [buf optStart fst snd]. eapply stackOK_wrap; eassumption. }
  destruct (tagOpen (skipn (pos st) t)).
  2:{ injection H as <-. exact Inv. }
  destruct (wrap (buf st) (slice t (start st) (pos st))) as [b|] eqn:W;
    [|discriminate].
  assert (Ib : stackOK b (optStart st)) by (eapply stackOK_wrap; eassumption).
  cbn [bind] in H.
  destruct (Index (skipn (pos st) t) (B ">>")) as [j|]; [|discriminate].
  destruct (bytes_eqb (findAttr _ (B "original")) (B "name")).
  { destruct (wrap b (B "name")) as [b2|] eqn:W2; [|discriminate].
    cbn [bind] in H. injection H as <-. cbn [buf optStart fst snd]. eapply stackOK_wrap; eassumption. }
  destruct (bytes_eqb _ (B "<<beginOptional>>")).
  { unfold beginOptional in H. injection H as <-. cbn [buf optStart fst snd].
    apply stackOK_push. exact Ib. }
  destruct (bytes_eqb _ (B "<<endOptional>>")).
  { destruct (rev (optStart st)) as [|s ropt] eqn:Er.
    - unfold endOptional in H. rewrite Er in H. discriminate.
    - pose proof (rev_cons_inv _ _ _ _ Er) as Eo. rewrite Eo in Ib.
      apply stackOK_pop in Ib. destruct Ib as (Ir & Lt & Hs).
      destruct (endOptional_spec b (optStart st) s ropt Er Hs) as [_ Ee].
      rewrite Ee in H. cbn [bind] in H. injection H as <-. cbn [buf optStart fst snd].
      destruct (trivialWords _).
      + apply stackOK_truncate; assumption.
      + repeat rewrite indentNL_app. repeat rewrite <- app_assoc.
        apply stackOK_app. exact Ir. }
  destruct (HasPrefix _ (B "<<var;")); [|discriminate].
  injection H as <-. cbn [buf optStart fst snd].
  match goal with
  | |- stackOK (variable ?n ?o ?c) _ => destruct (variable_app n o c) as [x ->]
  end.
  apply stackOK_app. exact Ib.
Qed.

Lemma reach_stackOK (t : bytes) (st : state) :
  reach t st -> stackOK (buf st) (optStart st).
Proof.
  induction 1 as [|st st' _ IH _ Hs]; [apply stackOK_nil|].
  eapply step_stackOK; eassumption.
Qed.

(** *** The opening marker of every open block stays in the buffer *)

Lemma wrapLoop_prefix fuel ind :
  forall line b out, wrapLoop fuel ind line b = Ok out -> exists X, out = b ++ X.
Proof.
  induction fuel as [|fuel IH]; intros line b out; rewrite wrapLoop_eq;
    destruct (Z.of_nat (length line) >? Target - Z.of_nat (length ind))%Z;
    try (intros [= <-]; eexists; reflexivity);
    destruct (Target - Z.of_nat (length ind) <? 0)%Z; try discriminate;
    destruct (breakPoint line _) as [j|];
    try (intros [= <-]; eexists; reflexivity).
  intros H. apply IH in H. destruct H as [X ->].
  eexists. rewrite <- app_assoc. reflexivity.
Qed.

Lemma wrapLines_prefix ls :
  forall b out, wrapLines ls b = Ok out -> exists X, out = b ++ X.
Proof.
  induction ls as [|l ls IH]; intros b out; cbn [wrapLines].
  - intros [= <-]. exists []. rewrite app_nil_r. reflexivity.
  - destruct (wrapLoop _ _ _ b) as [o|] eqn:E; [|discriminate]. cbn [bind].
    intros H. apply IH in H. destruct H as [X ->].
    apply wrapLoop_prefix in E. destruct E as [Y ->].
    eexists. rewrite <- app_assoc. reflexivity.
Qed.

(** The inner loop of [wrap] never breaks inside the first token. *)
Lemma wrapLoop_head fuel ind (tok rest b out : bytes) :
  Forall (fun c => is_blank c = false) tok ->
  wrapLoop fuel ind (tok ++ rest) b = Ok out ->
  exists Y, out = b ++ ind ++ tok ++ Y.
Proof.
  intros Htok. rewrite wrapLoop_eq. unfold Target.
  destruct (Z.of_nat (length (tok ++ rest)) >? 80 - Z.of_nat (length ind))%Z eqn:Ec;
    [|intros [= <-]; exists rest; reflexivity].
  destruct (80 - Z.of_nat (length ind) <? 0)%Z eqn:Ew; [discriminate|].
  apply Z.gtb_lt in Ec. apply Z.ltb_ge in Ew.
  destruct (breakPoint (tok ++ rest) _) as [j|] eqn:Eb;
    [|intros [= <-]; exists rest; reflexivity].
  destruct fuel as [|fuel]; [intros [= <-]; exists rest; reflexivity|].
  intros H. apply wrapLoop_prefix in H. destruct H as [X ->].
  assert (Hj0 : Z.to_nat (80 - Z.of_nat (length ind)) <= length (tok ++ rest)) by lia.
  destruct (breakPoint_Some _ _ _ Hj0 Eb) as (_ & Hb & _).
  assert (Hj : length tok <= j).
  { destruct (Nat.le_gt_cases (length tok) j) as [L|G]; [exact L|].
    rewrite app_nth1 in Hb by exact G.
    rewrite Forall_forall in Htok.
    rewrite (Htok _ (nth_In tok "000"%char G)) in Hb. discriminate. }
  rewrite firstn_app. rewrite firstn_all2 by exact Hj.
  eexists. repeat rewrite <- app_assoc. reflexivity.
Qed.

Lemma lineStart_pred (b : bytes) n :
  lineStart b n = 0 \/ nth (lineStart b n - 1) b SP = NL.
Proof.
  induction n as [|n IH]; simpl; [left; reflexivity|].
  destruct (Ascii.eqb (nth n b SP) NL) eqn:E; [|exact IH].
  right. replace (S n - 1) with n by lia. apply Ascii.eqb_eq. exact E.
Qed.

Lemma openAt_NL (b : bytes) s : openAt b s -> nth_error b s = Some NL.
Proof.
  intros (ind & rest & _ & E).
  rewrite <- (Nat.add_0_r s), <- nth_error_skipn, E. reflexivity.
Qed.

(** A newline behind the offset of an open block lies behind its marker. *)
Lemma openAt_next_NL (b : bytes) s k ind rest :
  Forall (fun c => is_blank c = true) ind ->
  skipn s b = NL :: (ind ++ B "((") ++ rest ->
  nth_error b (s + k) = Some NL ->
  k = 0 \/ length (ind ++ B "((") < k.
Proof.
  intros Hind E H. rewrite <- nth_error_skipn, E in H.
  destruct k as [|k]; [left; reflexivity|]. right. cbn [nth_error] in H.
  destruct (Nat.lt_ge_cases k (length (ind ++ B "(("))) as [L|G]; [|lia].
  exfalso. rewrite nth_error_app1 in H by exact L.
  apply nth_error_In in H. apply in_app_or in H. destruct H as [H|H].
  - exact (Forall_blank_no_NL ind Hind H).
  - simpl in H. intuition discriminate.
Qed.

Lemma openAt_app (b x : bytes) s : openAt b s -> openAt (b ++ x) s.
Proof.
  intros (ind & rest & Hind & E). exists ind, (rest ++ x). split; [exact Hind|].
  assert (L : s < length b).
  { destruct (Nat.lt_ge_cases s (length b)) as [L|G]; [exact L|].
    rewrite skipn_all2 in E by exact G. discriminate. }
  rewrite skipn_app, E. replace (s - length b) with 0 by lia.
  cbn [skipn app]. rewrite <- app_assoc. reflexivity.
Qed.

Lemma firstn_marker (k : nat) (m rest : bytes) :
  length m < k ->
  firstn k (NL :: m ++ rest) = NL :: m ++ firstn (k - 1 - length m) rest.
Proof.
  intros H. destruct k as [|k]; [lia|]. cbn [firstn]. f_equal.
  rewrite firstn_app. rewrite firstn_all2 by lia. f_equal. f_equal. lia.
Qed.

Lemma openAt_truncate (b : bytes) s s2 :
  openAt b s -> s < s2 -> nth_error b s2 = Some NL -> openAt (firstn s2 b) s.
Proof.
  intros (ind & rest & Hind & E) Hlt H2.
  replace s2 with (s + (s2 - s)) in H2 by lia.
  destruct (openAt_next_NL b s (s2 - s) ind rest Hind E H2) as [Z|G]; [lia|].
  exists ind, (firstn (s2 - s - 1 - length (ind ++ B "((")) rest).
  split; [exact Hind|].
  rewrite skipn_firstn_comm, E. apply firstn_marker. exact G.
Qed.

Lemma openAt_push (b x : bytes) : openAt (indentNL b ++ B "(( " ++ x) (length b).
Proof.
  exists (takeWhile is_blank (skipn (lineStart b (length b)) b)), (B " " ++ x).
  split; [apply takeWhile_Forall|].
  rewrite indentNL_app, <- app_assoc, skipn_length_app.
  cbn [app]. repeat rewrite <- app_assoc. reflexivity.
Qed.

Lemma openAt_wrap (b text out : bytes) s :
  wrap b text = Ok out -> openAt b s -> openAt out s.
Proof.
  intros W O. pose proof (openAt_NL b s O) as Hs.
  destruct O as (ind & rest & Hind & E).
  pose proof (lineStart_after_NL b s Hs) as Li.
  pose proof (lineStart_le b (length b)) as Le.
  set (i := lineStart b (length b)) in *.
  destruct (Nat.le_gt_cases (s + 1 + length (ind ++ B "((")) i) as [Far|Near].
  - (* the marker lies before the last line *)
    destruct (wrap_spec _ _ _ W) as (T & -> & _). fold i.
    exists ind, (firstn (i - s - 1 - length (ind ++ B "((")) rest ++ T).
    split; [exact Hind|].
    rewrite skipn_app, length_firstn.
    replace (s - Nat.min i (length b)) with 0 by lia. cbn [skipn].
    rewrite skipn_firstn_comm, E, firstn_marker by lia.
    cbn [app]. rewrite <- app_assoc. reflexivity.
  - (* the marker starts the last line *)
    assert (Ei : i = S s).
    { destruct (lineStart_pred b (length b)) as [Z|P];
        [fold i in Z; lia|fold i in P].
      assert (Q : nth_error b (s + (i - 1 - s)) = Some NL).
      { replace (s + (i - 1 - s)) with (i - 1) by lia.
        rewrite <- P. apply nth_error_nth'. lia. }
      destruct (openAt_next_NL b s _ ind rest Hind E Q); lia. }
    assert (Et : skipn i b = (ind ++ B "((") ++ rest).
    { rewrite Ei. replace (S s) with (1 + s) by lia.
      rewrite <- skipn_skipn, E. reflexivity. }
    assert (Ef : firstn i b = firstn s b ++ [NL]).
    { rewrite <- (firstn_skipn s b) at 1. rewrite E.
      rewrite firstn_app, length_firstn.
      replace (i - Nat.min s (length b)) with 1 by lia.
      rewrite firstn_all2 by (rewrite length_firstn; lia). reflexivity. }
    unfold wrap in W. fold i in W. rewrite Et, Ef in W.
    pose proof (SplitAfterNL_ok text) as K.
    destruct (SplitAfterNL text) as [|l0 ls]; [contradiction|]. clear K.
    cbn [wrapLines] in W.
    destruct (wrapLoop _ _ _ _) as [o1|] eqn:E1; [|discriminate]. cbn [bind] in W.
    apply wrapLines_prefix in W. destruct W as [Z ->].
    assert (Stp : stops is_blank (B "((" ++ rest ++ l0)) by reflexivity.
    repeat rewrite <- app_assoc in E1.
    rewrite takeWhile_app_stops, dropWhile_app_stops in E1 by exact Stp.
    rewrite takeWhile_all, dropWhile_all in E1 by exact Hind.
    cbn [app] in E1.
    change ("("%char :: "("%char :: rest ++ l0) with (B "((" ++ (rest ++ l0)) in E1.
    apply wrapLoop_head in E1; [|repeat constructor].
    destruct E1 as [Y ->].
    exists ind, (Y ++ Z). split; [exact Hind|].
    repeat rewrite <- app_assoc.
    assert (Ls : length (firstn s b) = s) by (rewrite length_firstn; lia).
    rewrite <- Ls at 1. rewrite skipn_length_app. reflexivity.
Qed.

(** Every offset of the stack is followed by the opening marker. *)
Lemma step_openOK (t : bytes) (st st' : state) :
  step t st = Ok st' ->
  stackOK (buf st) (optStart st) ->
  Forall (openAt (buf st)) (optStart st) ->
  Forall (openAt (buf st')) (optStart st').
Proof.
  unfold step. intros H Inv Op.
  assert (Ow : forall b text out, wrap b text = Ok out ->
               Forall (openAt b) (optStart st) -> Forall (openAt out) (optStart st)).
  { intros b text out W F. eapply Forall_impl; [|exact F].
    intros s. apply openAt_wrap with (text := text). exact W. }
  destruct (structural (skipn (pos st) t)).
  { destruct (wrap (buf st) (slice t (start st) (pos st + 1))) as [b|] eqn:W;
      [|discriminate].
    cbn [bind] in H. injection H as <-. cbn [buf optStart]. eapply Ow; eassumption. }
  destruct (tagOpen (skipn (pos st) t)).
  2:{ injection H as <-. exact Op. }
  destruct (wrap (buf st) (slice t (start st) (pos st))) as [b|] eqn:W;
    [|discriminate].
  assert (Ib : stackOK b (optStart st)) by (eapply stackOK_wrap; eassumption).
  assert (Ob : Forall (openAt b) (optStart st)) by (eapply Ow; eassumption).
  cbn [bind] in H.
  destruct (Index (skipn (pos st) t) (B ">>")) as [j|]; [|discriminate].
  destruct (bytes_eqb (findAttr _ (B "original")) (B "name")).
  { destruct (wrap b (B "name")) as [b2|] eqn:W2; [|discriminate].
    cbn [bind] in H. injection H as <-. cbn [buf optStart]. eapply Ow; eassumption. }
  destruct (bytes_eqb _ (B "<<beginOptional>>")).
  { unfold beginOptional in H. injection H as <-. cbn [buf optStart].
    apply Forall_app. split.
    - eapply Forall_impl; [|exact Ob]. intros s Hs.
      rewrite indentNL_app, <- app_assoc. apply openAt_app. exact Hs.
    - constructor; [|constructor].
      pose proof (openAt_push b []) as P. rewrite app_nil_r in P. exact P. }
  destruct (bytes_eqb _ (B "<<endOptional>>")).
  { destruct (rev (optStart st)) as [|s ropt] eqn:Er.
    - unfold endOptional in H. rewrite Er in H. discriminate.
    - pose proof (rev_cons_inv _ _ _ _ Er) as Eo. rewrite Eo in Ib, Ob.
      apply stackOK_pop in Ib. destruct Ib as (Ir & Lt & Hs).
      apply Forall_app in Ob. destruct Ob as [Ob _].
      destruct (endOptional_spec b (optStart st) s ropt Er Hs) as [_ Ee].
      rewrite Ee in H. cbn [bind] in H. injection H as <-. cbn [buf optStart fst snd].
      destruct (trivialWords _).
      + rewrite Forall_forall in *. intros y Hy.
        apply openAt_truncate; [apply Ob; exact Hy|apply Lt; exact Hy|exact Hs].
      + eapply Forall_impl; [|exact Ob]. intros y Hy.
        repeat rewrite indentNL_app. repeat rewrite <- app_assoc.
        apply openAt_app. exact Hy. }
  destruct (HasPrefix _ (B "<<var;")); [|discriminate].
  injection H as <-. cbn [buf optStart].
  match goal with
  | |- Forall (openAt (variable ?n ?o ?c)) _ => destruct (variable_app n o c) as [x ->]
  end.
  eapply Forall_impl; [|exact Ob]. intros y. apply openAt_app.
Qed.

Lemma reach_openOK (t : bytes) (st : state) :
  reach t st -> Forall (openAt (buf st)) (optStart st).
Proof.
  induction 1 as [|st st' R IH _ Hs]; [constructor|].
  eapply step_openOK; [exact Hs|apply (reach_stackOK t); exact R|exact IH].
Qed.

Lemma scan_reach fuel (t : bytes) :
  forall st st', scan fuel t st = Ok st' -> reach t st -> reach t st'.
Proof.
  induction fuel as [|fuel IH]; intros st st'; simpl.
  - destruct (pos st <? length t); intros [= <-]; auto.
  - destruct (pos st <? length t) eqn:E; [|intros [= <-]; auto].
    destruct (step t st) as [st1|] eqn:Es; [|discriminate].
    simpl. intros H R. apply (IH _ _ H).
    apply Nat.ltb_lt in E. eapply reach_step; eassumption.
Qed.

Lemma wit_reach : reach wit_t wit_st.
Proof.
  apply (scan_reach 7 wit_t init wit_st); [vm_compute; reflexivity|apply reach_init].
Defined.

Lemma wit_atTag : atTag wit_t wit_st (B "<<endOptional>>") wit_b.
Proof.
  unfold atTag. split; [vm_compute; lia|].
  do 3 (split; [vm_compute; reflexivity|]).
  split; [exists 13; split; vm_compute; reflexivity|vm_compute; reflexivity].
Defined.

(** The loop iteration in front of an end-optional tag runs the handler on
    the flushed buffer. *)
Lemma step_at_endOptional (t : bytes) (st : state) (b : bytes) :
  atTag t st (B "<<endOptional>>") b ->
  exists i, step t st = (bo <- endOptional b (optStart st) ;;
                         Ok (mkState i i (fst bo) (snd bo))).
Proof.
  intros (_ & Hs & Ho & W & (j & Hj & Ht) & Hn).
  unfold step. rewrite Hs, Ho, W. cbn [bind]. rewrite Hj, <- Ht, Hn.
  eexists. reflexivity.
Qed.

Lemma StronglySorted_lt_le (l : list nat) :
  StronglySorted lt l -> StronglySorted le l.
Proof.
  induction 1 as [|a l _ IH H]; constructor; [exact IH|].
  eapply Forall_impl; [|exact H]. intros; lia.
Qed.

(** In front of a tag, the offset on top of the stack points at the newline
    and the opening marker of the innermost open block, in the flushed
    buffer, and the other offsets are smaller. *)
Lemma reach_top (t : bytes) (st : state) (tag b : bytes) s ropt :
  reach t st -> atTag t st tag b -> rev (optStart st) = s :: ropt ->
  nth_error b s = Some NL /\ openAt b s /\ Forall (fun y => y < s) (rev ropt).
Proof.
  intros R (_ & _ & _ & W & _ & _) Er.
  pose proof (reach_stackOK t st R) as Inv.
  pose proof (reach_openOK t st R) as Op.
  apply (stackOK_wrap _ _ _ _ W) in Inv.
  rewrite (rev_cons_inv _ _ _ _ Er) in Inv, Op.
  apply stackOK_pop in Inv. destruct Inv as (_ & Lt & Hs).
  apply Forall_app in Op. destruct Op as [_ Op].
  inversion Op as [|? ? Os _]; subst.
  split; [exact Hs|]. split; [|exact Lt].
  apply (openAt_wrap _ _ _ _ W). exact Os.
Qed.

(** C9.  When the loop of a reachable state stands in front of an
    end-optional tag, the offset on top of the stack holds a newline of the
    flushed buffer (the one that the begin-optional handler wrote right after
    recording the offset).  The test for a newline since that offset
    therefore succeeds, and the handler computes its result with the
    newline-with-indent branch: the single space is never written. *)
Theorem C9_end_optional_newline_branch (t : bytes) (st : state) (b : bytes) s ropt :
  reach t st ->
  atTag t st (B "<<endOptional>>") b ->
  rev (optStart st) = s :: ropt ->
  nth_error b s = Some NL
  /\ existsb (Ascii.eqb NL) (skipn s b) = true
  /\ endOptional b (optStart st)
     = Ok (if trivialWords (words (skipn s (indentNL (indentNL b ++ B "))??"))))
           then firstn s b
           else indentNL (indentNL b ++ B "))??"),
           rev ropt).
Proof.
  intros R A Er.
  destruct (reach_top t st _ b s ropt R A Er) as (Hs & _ & _).
  split; [exact Hs|]. apply endOptional_spec; assumption.
Qed.

Lemma C9_witness :
  reach wit_t wit_st
  /\ nth_error wit_b 6 = Some NL
  /\ existsb (Ascii.eqb NL) (skipn 6 wit_b) = true
  /\ endOptional wit_b (optStart wit_st)
     = Ok (if trivialWords (words (skipn 6 (indentNL (indentNL wit_b ++ B "))??"))))
           then firstn 6 wit_b
           else indentNL (indentNL wit_b ++ B "))??"),
           rev [1]).
Proof.
  split; [exact wit_reach|].
  exact (C9_end_optional_newline_branch wit_t wit_st wit_b 6 [1]
           wit_reach wit_atTag eq_refl).
Defined.

(** C10.  In every reachable state of the loop the offsets of the stack are
    non-decreasing from the bottom to the top and none exceeds the length of
    the buffer.  In front of an end-optional tag the popped offset is within
    the flushed buffer, so that the handler reads the buffer in range and
    succeeds, and the buffer it leaves agrees with the flushed buffer on
    everything before the offset of each block that is still open. *)
Theorem C10_stack_offsets_in_range (t : bytes) (st : state) :
  reach t st ->
  StronglySorted le (optStart st)
  /\ Forall (fun s => s <= length (buf st)) (optStart st)
  /\ forall b s ropt,
       atTag t st (B "<<endOptional>>") b ->
       rev (optStart st) = s :: ropt ->
       s <= length b
       /\ exists b',
            endOptional b (optStart st) = Ok (b', rev ropt)
            /\ Forall (fun s' => s' <= s /\ firstn s' b' = firstn s' b) (rev ropt).
Proof.
  intros R. pose proof (reach_stackOK t st R) as Inv.
  split; [apply StronglySorted_lt_le; apply Inv|].
  split.
  { destruct Inv as [_ H]. eapply Forall_impl; [|exact H].
    intros s Hs. apply Nat.lt_le_incl. apply nth_error_Some. congruence. }
  intros b s ropt A Er.
  destruct (reach_top t st _ b s ropt R A Er) as (Hs & _ & Lt).
  assert (L : s < length b) by (apply nth_error_Some; congruence).
  split; [lia|].
  destruct (endOptional_spec b (optStart st) s ropt Er Hs) as [_ Ee].
  eexists. split; [exact Ee|].
  eapply Forall_impl; [|exact Lt]. cbv beta. intros s' Hs'. split; [lia|].
  destruct (trivialWords _).
  - rewrite firstn_firstn. f_equal. lia.
  - rewrite indentNL_marker by (try reflexivity; vm_compute; intuition discriminate).
    rewrite firstn_app. replace (s' - length b) with 0 by lia.
    rewrite firstn_O, app_nil_r. reflexivity.
Qed.

Lemma C10_witness :
  reach wit_t wit_st
  /\ StronglySorted le (optStart wit_st)
  /\ Forall (fun s => s <= length (buf wit_st)) (optStart wit_st)
  /\ 6 <= length wit_b
  /\ exists b',
       endOptional wit_b (optStart wit_st) = Ok (b', rev [1])
       /\ Forall (fun s' => s' <= 6 /\ firstn s' b' = firstn s' wit_b) (rev [1]).
Proof.
  split; [exact wit_reach|].
  destruct (C10_stack_offsets_in_range wit_t wit_st wit_reach) as (H1 & H2 & H3).
  split; [exact H1|]. split; [exact H2|].
  exact (H3 wit_b 6 [1] wit_atTag eq_refl).
Defined.

(* ================================================================= *)
(** ** The two replacements of the normalizer *)

Lemma replaceAll_skip m repl (s : bytes) :
  forall n, replaceAll m repl n s = replaceAll m repl 0 (skipn n s).
Proof.
  induction s as [|c r IH]; intros [|n]; simpl; try reflexivity.
  apply IH.
Qed.

Lemma replaceAll_cons m repl c (r : bytes) :
  replaceAll m repl 0 (c :: r)
  = match m (c :: r) with
    | Some (S n) => repl ++ replaceAll m repl 0 (skipn n r)
    | _ => c :: replaceAll m repl 0 r
    end.
Proof.
  simpl. destruct (m (c :: r)) as [[|n]|]; try reflexivity.
  rewrite replaceAll_skip. reflexivity.
Qed.

Lemma replaceAll_noMatch m repl (s : bytes) :
  noMatch m s -> replaceAll m repl 0 s = s.
Proof.
  induction s as [|c r IH]; [reflexivity|].
  intros [H1 H2]. rewrite replaceAll_cons, H1, IH by exact H2. reflexivity.
Qed.

Lemma noMatch_dropWhile m f (s : bytes) : noMatch m s -> noMatch m (dropWhile f s).
Proof.
  induction s as [|c r IH]; intros H; [exact H|].
  simpl. destruct (f c); [apply IH; apply H|exact H].
Qed.

(** *** Trailing space *)

Lemma mts_nonblank c (r : bytes) :
  is_blank c = false -> matchTrailingSpace (c :: r) = None.
Proof. intros H. unfold matchTrailingSpace. simpl. rewrite H. reflexivity. Qed.

Lemma mts_run (l y : bytes) c :
  Forall (fun c => is_blank c = true) (c :: l) -> stops is_blank y ->
  matchTrailingSpace ((c :: l) ++ y)
  = match y with
    | [] => Some (S (length l))
    | d :: _ => if Ascii.eqb d NL then Some (S (length l)) else None
    end.
Proof.
  intros Hl Hy. unfold matchTrailingSpace.
  rewrite takeWhile_app_stops, dropWhile_app_stops by exact Hy.
  rewrite takeWhile_all, dropWhile_all by exact Hl. reflexivity.
Qed.

Lemma noTrailing_run (l : bytes) x z :
  Forall (fun c => is_blank c = true) l -> x <> NL ->
  noTrailing (x :: z) -> noTrailing (l ++ x :: z).
Proof.
  intros Hl Hx Hz. induction Hl as [|c l Hc Hl IH]; [exact Hz|].
  simpl. split; [|exact IH]. intros _.
  destruct l as [|d l]; simpl.
  - exists x, z. split; [reflexivity|exact Hx].
  - eexists _, _. split; [reflexivity|].
    apply blank_not_NL. inversion Hl; assumption.
Qed.

Lemma strip_run (l : bytes) x y :
  Forall (fun c => is_blank c = true) l -> is_blank x = false -> x <> NL ->
  stripTrailing (l ++ x :: y) = l ++ x :: stripTrailing y.
Proof.
  intros Hl Hx Hn. unfold stripTrailing.
  induction Hl as [|c l Hc Hl IH]; simpl app.
  - rewrite replaceAll_cons, mts_nonblank by exact Hx. reflexivity.
  - rewrite replaceAll_cons.
    change (c :: l ++ x :: y) with ((c :: l) ++ x :: y).
    rewrite mts_run by (try constructor; simpl; assumption).
    apply Ascii.eqb_neq in Hn. rewrite Hn, IH. reflexivity.
Qed.

Lemma strip_noTrailing_n n :
  forall d, length d <= n -> noTrailing (stripTrailing d).
Proof.
  induction n as [|n IH]; intros d Hd.
  { destruct d; [exact I|simpl in Hd; lia]. }
  pose proof (takeWhile_dropWhile is_blank d) as Ed.
  pose proof (takeWhile_Forall is_blank d) as Hl.
  pose proof (dropWhile_stops is_blank d) as Hy.
  destruct (dropWhile is_blank d) as [|x y] eqn:Ey.
  - (* the text ends with the run *)
    rewrite app_nil_r in Ed. rewrite <- Ed.
    destruct (takeWhile is_blank d) as [|c l]; [exact I|].
    unfold stripTrailing. rewrite replaceAll_cons.
    pose proof (mts_run l [] c Hl I) as M. rewrite app_nil_r in M. rewrite M.
    rewrite skipn_all2 by lia. exact I.
  - simpl in Hy.
    assert (Ly : length y <= n).
    { rewrite <- Ed in Hd. rewrite length_app in Hd. simpl in Hd. lia. }
    destruct (Ascii.eqb x NL) eqn:Ex.
    + (* the run stops at a newline and is removed *)
      assert (T : stripTrailing (takeWhile is_blank d ++ x :: y) = x :: stripTrailing y).
      { unfold stripTrailing.
        destruct (takeWhile is_blank d) as [|c l].
        - simpl app. rewrite replaceAll_cons, mts_nonblank by exact Hy. reflexivity.
        - rewrite <- app_comm_cons, replaceAll_cons, app_comm_cons.
          rewrite (mts_run l (x :: y) c Hl Hy), Ex.
          rewrite skipn_app, skipn_all2 by lia.
          replace (length l - length l) with 0 by lia.
          change (replaceAll matchTrailingSpace [] 0 (x :: y)
                  = x :: replaceAll matchTrailingSpace [] 0 y).
          rewrite replaceAll_cons, mts_nonblank by exact Hy. reflexivity. }
      rewrite <- Ed, T. split; [rewrite Hy; discriminate|]. apply IH. exact Ly.
    + apply Ascii.eqb_neq in Ex.
      rewrite <- Ed, strip_run by assumption.
      apply noTrailing_run; [exact Hl|exact Ex|].
      split; [rewrite Hy; discriminate|]. apply IH. exact Ly.
Qed.

Lemma strip_noTrailing (d : bytes) : noTrailing (stripTrailing d).
Proof. apply (strip_noTrailing_n (length d)). lia. Qed.

(** A text without trailing blanks has no match of [trailingSpaceRE]. *)
Lemma noTrailing_noMatch (s : bytes) :
  noTrailing s -> noMatch matchTrailingSpace s.
Proof.
  induction s as [|c r IH]; [intros; exact I|].
  intros [H1 H2]. split; [|apply IH; exact H2].
  destruct (is_blank c) eqn:Ec; [|apply mts_nonblank; exact Ec].
  (* the run that starts at [c] stops at a character that is no newline *)
  specialize (H1 eq_refl). clear IH.
  revert c Ec H1 H2. induction r as [|d r IH]; intros c Ec H1 H2.
  - destruct H1 as (d & r' & E & _). discriminate.
  - destruct H1 as (d' & r' & E & Hd). injection E as <- <-.
    destruct (is_blank d) eqn:Ed.
    + destruct H2 as [H3 H4]. specialize (IH d Ed (H3 Ed) H4).
      unfold matchTrailingSpace in *. simpl in *. rewrite Ec. rewrite Ed in *.
      destruct (dropWhile is_blank r) as [|e r2]; [discriminate|].
      destruct (Ascii.eqb e NL); [discriminate|reflexivity].
    + unfold matchTrailingSpace. simpl. rewrite Ec, Ed.
      apply Ascii.eqb_neq in Hd. rewrite Hd. reflexivity.
Qed.

Lemma noTrailing_strip (s : bytes) : noTrailing s -> stripTrailing s = s.
Proof. intros H. apply replaceAll_noMatch. apply noTrailing_noMatch. exact H. Qed.

(** *** Runs of near-blank lines *)

Lemma blankish_not_NL (c : ascii) : is_blankish c = true -> Ascii.eqb c NL = false.
Proof.
  destruct (Ascii.eqb c NL) eqn:E; [|reflexivity].
  apply Ascii.eqb_eq in E. subst c. discriminate.
Qed.

Lemma blankGroups_pending (s : bytes) :
  forall p, blankGroups s p
            = match blankGroups s 0 with
              | (0, _) => (0, 0)
              | (S k, n) => (S k, n + p)
              end.
Proof.
  induction s as [|c r IH]; intros p; simpl; [reflexivity|].
  destruct (Ascii.eqb c NL).
  - destruct (blankGroups r 0) as [k n]. f_equal. lia.
  - destruct (is_blankish c); [|reflexivity].
    rewrite (IH (S p)), (IH 1).
    destruct (blankGroups r 0) as [[|k] n]; [reflexivity|]. f_equal. lia.
Qed.

Lemma blankGroups_zero (s : bytes) :
  forall p n, blankGroups s p = (0, n) -> n = 0.
Proof.
  induction s as [|c r IH]; intros p n; simpl.
  - intros [= <-]. reflexivity.
  - destruct (Ascii.eqb c NL).
    + destruct (blankGroups r 0). discriminate.
    + destruct (is_blankish c); [apply IH|intros [= <-]; reflexivity].
Qed.

Lemma groupsAt_NL (r : bytes) : groupsAt (NL :: r) = S (groupsAt r).
Proof.
  unfold groupsAt. simpl. destruct (blankGroups r 0). reflexivity.
Qed.

Lemma groupsAt_blankish c (r : bytes) :
  is_blankish c = true -> groupsAt (c :: r) = groupsAt r.
Proof.
  intros H. unfold groupsAt. simpl.
  rewrite (blankish_not_NL c H), H, blankGroups_pending.
  destruct (blankGroups r 0) as [[|k] n]; reflexivity.
Qed.

Lemma groupsAt_other c (r : bytes) :
  Ascii.eqb c NL = false -> is_blankish c = false -> groupsAt (c :: r) = 0.
Proof. intros H1 H2. unfold groupsAt. simpl. rewrite H1, H2. reflexivity. Qed.

Lemma matchBlank_not_NL c (r : bytes) :
  Ascii.eqb c NL = false -> matchBlank (c :: r) = None.
Proof. intros H. simpl. rewrite H. reflexivity. Qed.

Lemma matchBlank_NL (r : bytes) :
  matchBlank (NL :: r)
  = if 2 <=? groupsAt r then Some (S (snd (blankGroups r 0))) else None.
Proof.
  unfold groupsAt. simpl. destruct (blankGroups r 0). reflexivity.
Qed.

(** The greedy iteration is maximal: no group starts where it ends. *)
Lemma blankGroups_maximal (s : bytes) :
  forall p k n, blankGroups s p = (S k, n) ->
  p <= n /\ n - p <= length s /\ groupsAt (skipn (n - p) s) = 0.
Proof.
  induction s as [|c r IH]; intros p k n; cbn [blankGroups]; [discriminate|].
  destruct (Ascii.eqb c NL).
  - destruct (blankGroups r 0) as [k' n'] eqn:E. intros H.
    injection H as Hk Hn.
    replace (n - p) with (S n') by lia.
    cbn [skipn length].
    destruct k' as [|k'].
    + apply blankGroups_zero in E as E0. subst n'.
      split; [lia|]. split; [lia|]. unfold groupsAt. simpl skipn.
      rewrite E. reflexivity.
    + destruct (IH 0 k' n' E) as (_ & H2 & H3). rewrite Nat.sub_0_r in *.
      split; [lia|]. split; [lia|exact H3].
  - destruct (is_blankish c); [|discriminate].
    intros H. destruct (IH (S p) k n H) as (H1 & H2 & H3).
    replace (n - p) with (S (n - S p)) by lia. cbn [skipn length].
    split; [lia|]. split; [lia|exact H3].
Qed.

(** The collapsed text has no match of [blankRE], and a text that starts
    with fewer than two groups keeps that property. *)
Lemma collapse_noMatch_n n :
  forall d, length d <= n ->
  noMatch matchBlank (collapseBlank d)
  /\ (groupsAt d = 0 -> groupsAt (collapseBlank d) = 0)
  /\ (groupsAt d <= 1 -> groupsAt (collapseBlank d) <= 1).
Proof.
  induction n as [|n IH]; intros d Hd.
  { destruct d; [|simpl in Hd; lia]. repeat split; auto. }
  destruct d as [|c r]; [repeat split; auto|].
  simpl in Hd. assert (Hr : length r <= n) by lia.
  unfold collapseBlank. rewrite replaceAll_cons. fold (collapseBlank r).
  destruct (Ascii.eqb c NL) eqn:Ec.
  - apply Ascii.eqb_eq in Ec. subst c.
    rewrite matchBlank_NL, groupsAt_NL.
    destruct (2 <=? groupsAt r) eqn:E2.
    + apply Nat.leb_le in E2.
      destruct (blankGroups r 0) as [k m] eqn:Eg.
      assert (Ek : k = groupsAt r) by (unfold groupsAt; rewrite Eg; reflexivity).
      destruct k as [|k]; [lia|].
      destruct (blankGroups_maximal r 0 k m Eg) as (_ & M2 & M3).
      rewrite Nat.sub_0_r in *. simpl snd.
      fold (collapseBlank (skipn m r)).
      destruct (IH (skipn m r)) as (I1 & I2 & _).
      { rewrite length_skipn. lia. }
      specialize (I2 M3).
      split; [|split; intros; lia].
      simpl app. split.
      * rewrite matchBlank_NL, groupsAt_NL, I2. reflexivity.
      * split; [|exact I1]. rewrite matchBlank_NL, I2. reflexivity.
    + apply Nat.leb_gt in E2.
      destruct (IH r Hr) as (I1 & I2 & I3).
      rewrite groupsAt_NL. split; [|split].
      * split; [|exact I1]. rewrite matchBlank_NL.
        replace (2 <=? groupsAt (collapseBlank r)) with false; [reflexivity|].
        symmetry. apply Nat.leb_gt. assert (groupsAt r <= 1) by lia.
        specialize (I3 H). lia.
      * discriminate.
      * intros H. assert (G0 : groupsAt r = 0) by lia. rewrite (I2 G0). lia.
  - rewrite matchBlank_not_NL by exact Ec.
    destruct (IH r Hr) as (I1 & I2 & I3).
    split; [split; [apply matchBlank_not_NL; exact Ec|exact I1]|].
    destruct (is_blankish c) eqn:Eb.
    + rewrite !groupsAt_blankish by exact Eb. split; assumption.
    + rewrite !groupsAt_other by assumption. split; intros; lia.
Qed.

Lemma collapse_noMatch (d : bytes) : noMatch matchBlank (collapseBlank d).
Proof. apply (collapse_noMatch_n (length d)). lia. Qed.

(** Collapsing keeps the lines free of trailing blanks. *)
Lemma collapse_noTrailing_n n :
  forall d, length d <= n -> noTrailing d -> noTrailing (collapseBlank d).
Proof.
  induction n as [|n IH]; intros d Hd.
  { destruct d; [intros; exact I|simpl in Hd; lia]. }
  destruct d as [|c r]; [intros; exact I|].
  simpl in Hd. intros [H1 H2].
  unfold collapseBlank. rewrite replaceAll_cons.
  destruct (matchBlank (c :: r)) as [[|m]|] eqn:Em.
  - exfalso. destruct (Ascii.eqb c NL) eqn:Ec.
    + apply Ascii.eqb_eq in Ec. subst c. rewrite matchBlank_NL in Em.
      destruct (2 <=? groupsAt r); discriminate.
    + rewrite matchBlank_not_NL in Em by exact Ec. discriminate.
  - fold (collapseBlank (skipn m r)). simpl app.
    split; [discriminate|]. split; [discriminate|].
    apply IH; [rewrite length_skipn; lia|].
    clear -H2. revert r H2. induction m as [|m IHm]; intros r H2; [exact H2|].
    destruct r as [|d r]; [exact I|]. apply IHm. apply H2.
  - fold (collapseBlank r). split; [|apply IH; [lia|exact H2]].
    intros Hc. destruct (H1 Hc) as (d & r' & -> & Hd').
    unfold collapseBlank. rewrite replaceAll_cons.
    apply Ascii.eqb_neq in Hd'. rewrite matchBlank_not_NL by exact Hd'.
    eexists _, _. split; [reflexivity|]. apply Ascii.eqb_neq. exact Hd'.
Qed.

Lemma collapse_noTrailing (d : bytes) :
  noTrailing d -> noTrailing (collapseBlank d).
Proof. apply (collapse_noTrailing_n (length d)). lia. Qed.

(* ================================================================= *)
(** ** The normalizer *)

Lemma noTrailing_dropWhile f (s : bytes) : noTrailing s -> noTrailing (dropWhile f s).
Proof.
  induction s as [|c r IH]; intros H; [exact H|].
  simpl. destruct (f c); [apply IH; apply H|exact H].
Qed.

Lemma noMatch_app m (a s : bytes) : noMatch m (a ++ s) -> noMatch m s.
Proof.
  induction a as [|c a IH]; [auto|]. intros [_ H]. apply IH. exact H.
Qed.

Lemma ensureNL_cases (d : bytes) :
  (d = [] /\ ensureNL d = [])
  \/ (exists body, d = body ++ [NL] /\ ensureNL d = d)
  \/ (exists body c, d = body ++ [c] /\ c <> NL /\ ensureNL d = d ++ [NL]).
Proof.
  unfold ensureNL. destruct (rev d) as [|c r] eqn:E.
  - left. apply (f_equal (@rev ascii)) in E. rewrite rev_involutive in E.
    subst d. split; reflexivity.
  - right. apply rev_cons_inv in E. destruct (Ascii.eqb c NL) eqn:Ec.
    + left. apply Ascii.eqb_eq in Ec. subst c. exists (rev r). split; [exact E|reflexivity].
    + right. apply Ascii.eqb_neq in Ec. exists (rev r), c. repeat split; assumption.
Qed.

Lemma app_last_inj (A : Type) (a b : list A) x y :
  a ++ [x] = b ++ [y] -> a = b /\ x = y.
Proof. intros H. apply app_inj_tail in H. exact H. Qed.

(** The document that the normalizer returns: no newline in front, and a
    text that is not empty ends with one or two newlines. *)
Lemma normalized_shape (d : bytes) :
  hd_error (normalized d) <> Some NL
  /\ (normalized d = []
      \/ exists body, normalized d = body ++ [NL]
                      /\ forall body', body <> body' ++ [NL; NL]).
Proof.
  unfold normalized, normalize. cbn [fst].
  set (d3 := dropWhile (Ascii.eqb NL) (collapseBlank (stripTrailing d))).
  assert (St : stops (Ascii.eqb NL) d3) by apply dropWhile_stops.
  assert (Nm : noMatch matchBlank d3)
    by (apply noMatch_dropWhile; apply collapse_noMatch).
  destruct (ensureNL_cases d3) as [[E1 E2]|[(body & E1 & E2)|(body & c & E1 & Hc & E2)]];
    rewrite E2.
  - split; [discriminate|]. left. reflexivity.
  - split.
    + destruct d3 as [|x r]; [discriminate|]. simpl in *.
      intros [= ->]. discriminate.
    + right. exists body. split; [exact E1|]. intros body' ->.
      rewrite E1 in Nm. rewrite <- app_assoc in Nm. apply noMatch_app in Nm.
      destruct Nm as [Nm _]. discriminate.
  - split.
    + destruct d3 as [|x r]; [destruct body; discriminate|]. simpl in *.
      intros [= ->]. discriminate.
    + right. exists d3. split; [reflexivity|]. intros body' E.
      rewrite E in E1. replace (body' ++ [NL; NL]) with ((body' ++ [NL]) ++ [NL]) in E1
        by (rewrite <- app_assoc; reflexivity).
      apply app_last_inj in E1. destruct E1 as [_ E1]. congruence.
Qed.

(** *** Texts that end with a newline *)

Lemma endsNL_cons c (s : bytes) : endsNL s -> endsNL (c :: s).
Proof. intros [body ->]. exists (c :: body). reflexivity. Qed.

Lemma endsNL_app (a s : bytes) : endsNL s -> endsNL (a ++ s).
Proof. intros [body ->]. exists (a ++ body). rewrite app_assoc. reflexivity. Qed.

Lemma endsNL_tail c (s : bytes) : endsNL (c :: s) -> s <> [] -> endsNL s.
Proof.
  intros [body E] H. destruct body as [|d body].
  - destruct s; [contradiction|discriminate].
  - injection E as _ ->. exists body. reflexivity.
Qed.

Lemma endsNL_skipn (s : bytes) n : endsNL s -> skipn n s <> [] -> endsNL (skipn n s).
Proof.
  revert s; induction n as [|n IH]; intros s H N; [exact H|].
  destruct s as [|c s]; [contradiction|]. cbn [skipn] in *.
  apply IH; [|exact N]. apply (endsNL_tail c); [exact H|].
  intros ->. apply N. destruct n; reflexivity.
Qed.

Lemma endsNL_dropWhile f (s : bytes) :
  endsNL s -> dropWhile f s = [] \/ endsNL (dropWhile f s).
Proof.
  induction s as [|c s IH]; intros H; [left; reflexivity|].
  cbn [dropWhile]. destruct (f c); [|right; exact H].
  destruct s as [|d s]; [left; reflexivity|].
  apply IH. apply (endsNL_tail c); [exact H|discriminate].
Qed.

Lemma strip_endsNL_n n :
  forall d, length d <= n -> endsNL d -> endsNL (stripTrailing d).
Proof.
  induction n as [|n IH]; intros d Hd Hn.
  { destruct Hn as [body ->]. rewrite length_app in Hd. simpl in Hd. lia. }
  pose proof (takeWhile_dropWhile is_blank d) as Ed.
  pose proof (takeWhile_Forall is_blank d) as Hl.
  pose proof (dropWhile_stops is_blank d) as Hy.
  destruct (dropWhile is_blank d) as [|x y] eqn:Ey.
  - (* a text of blanks does not end with a newline *)
    exfalso. rewrite app_nil_r in Ed. rewrite <- Ed in Hn.
    destruct Hn as [body E]. rewrite E in Hl.
    apply Forall_app in Hl. destruct Hl as [_ Hl].
    inversion Hl as [|? ? K _]. discriminate.
  - cbn [stops] in Hy.
    assert (Ly : length y <= n).
    { rewrite <- Ed in Hd. rewrite length_app in Hd. simpl in Hd. lia. }
    assert (Hxy : endsNL (x :: y)).
    { rewrite <- Ed in Hn. destruct (takeWhile is_blank d) as [|c l]; [exact Hn|].
      apply (endsNL_skipn _ (length (c :: l))) in Hn;
        rewrite skipn_length_app in *; [exact Hn|discriminate]. }
    assert (Rec : y = [] \/ endsNL (stripTrailing y)).
    { destruct y as [|z y]; [left; reflexivity|]. right.
      apply IH; [exact Ly|]. apply (endsNL_tail x); [exact Hxy|discriminate]. }
    destruct (Ascii.eqb x NL) eqn:Ex.
    + assert (T : stripTrailing d = x :: stripTrailing y).
      { rewrite <- Ed. unfold stripTrailing.
        destruct (takeWhile is_blank d) as [|c l].
        - cbn [app]. rewrite replaceAll_cons, mts_nonblank by exact Hy. reflexivity.
        - rewrite <- app_comm_cons, replaceAll_cons, app_comm_cons.
          rewrite (mts_run l (x :: y) c Hl Hy), Ex.
          rewrite skipn_app, skipn_all2 by lia.
          replace (length l - length l) with 0 by lia.
          change (replaceAll matchTrailingSpace [] 0 (x :: y)
                  = x :: replaceAll matchTrailingSpace [] 0 y).
          rewrite replaceAll_cons, mts_nonblank by exact Hy. reflexivity. }
      rewrite T. destruct Rec as [-> |Rec].
      * apply Ascii.eqb_eq in Ex. subst x. exists []. reflexivity.
      * apply endsNL_cons. exact Rec.
    + apply Ascii.eqb_neq in Ex.
      rewrite <- Ed, strip_run by assumption.
      apply endsNL_app. destruct Rec as [-> |Rec].
      * exfalso. destruct Hxy as [[|? body] E]; [|destruct body; discriminate].
        injection E as ->. apply Ex. reflexivity.
      * apply endsNL_cons. exact Rec.
Qed.

Lemma collapse_endsNL_n n :
  forall d, length d <= n -> endsNL d -> endsNL (collapseBlank d).
Proof.
  induction n as [|n IH]; intros d Hd Hn.
  { destruct Hn as [body ->]. rewrite length_app in Hd. simpl in Hd. lia. }
  destruct d as [|c r]; [destruct Hn as [[|] ?]; discriminate|].
  simpl in Hd. unfold collapseBlank. rewrite replaceAll_cons.
  destruct (matchBlank (c :: r)) as [[|m]|] eqn:Em.
  - fold (collapseBlank r). destruct r as [|d r].
    + exact Hn.
    + apply endsNL_cons. apply IH; [simpl in *; lia|].
      apply (endsNL_tail c); [exact Hn|discriminate].
  - fold (collapseBlank (skipn m r)). cbn [app].
    destruct (skipn m r) as [|x y] eqn:Es.
    + exists [NL]. reflexivity.
    + do 2 apply endsNL_cons. apply IH.
      * rewrite <- Es, length_skipn. lia.
      * rewrite <- Es. apply endsNL_skipn.
        -- destruct r as [|d r]; [destruct m; discriminate|].
           apply (endsNL_tail c); [exact Hn|discriminate].
        -- rewrite Es. discriminate.
  - fold (collapseBlank r). destruct r as [|d r].
    + exact Hn.
    + apply endsNL_cons. apply IH; [simpl in *; lia|].
      apply (endsNL_tail c); [exact Hn|discriminate].
Qed.

Lemma ensureNL_endsNL (s : bytes) : s = [] \/ endsNL s -> ensureNL s = s.
Proof.
  intros [-> |[body ->]]; [reflexivity|].
  unfold ensureNL. rewrite rev_app_distr. reflexivity.
Qed.

(** No newline has to be appended to a text that is empty or ends with a
    newline. *)
Lemma appendsNL_endsNL (d : bytes) : d = [] \/ endsNL d -> appendsNL d = false.
Proof.
  intros H. unfold appendsNL. apply negb_false_iff. apply bytes_eqb_eq.
  apply ensureNL_endsNL. destruct H as [-> |H]; [left; reflexivity|].
  apply endsNL_dropWhile.
  apply (collapse_endsNL_n (length (stripTrailing d))); [lia|].
  apply (strip_endsNL_n (length d)); [lia|exact H].
Qed.

(** C7 as stated fails: the template [x\n\n.] is translated to [x\n\n.\n],
    where the appended newline completes a run of near-blank lines; a second
    pass collapses the run and drops the last line. *)
Lemma C7_counterexample :
  templateToLRE (B "x" ++ [NL; NL] ++ B ".")
  = Ok (B "x" ++ [NL; NL] ++ B "." ++ [NL], None)
  /\ normalized (B "x" ++ [NL; NL] ++ B ".") = B "x" ++ [NL; NL] ++ B "." ++ [NL]
  /\ normalized (normalized (B "x" ++ [NL; NL] ++ B ".")) = B "x" ++ [NL; NL]
  /\ normalized (normalized (B "x" ++ [NL; NL] ++ B "."))
     <> normalized (B "x" ++ [NL; NL] ++ B ".").
Proof.
  repeat split; try (vm_compute; reflexivity).
  vm_compute. discriminate.
Qed.

Lemma templateToLRE_normalized (t out : bytes) w :
  templateToLRE t = Ok (out, w) -> exists b, out = normalized b.
Proof.
  unfold templateToLRE.
  destruct (scan (length t) t init) as [st|]; [|discriminate]. cbn [bind].
  destruct (wrap (buf st) (skipn (start st) t)) as [b|]; [|discriminate].
  cbn [bind]. intros H. exists b. unfold normalized.
  assert (E : normalize b = (out, w)) by congruence.
  rewrite E. reflexivity.
Qed.

(** C8 (amended).  The returned document does not start with a newline and,
    unless it is empty, ends with a newline; the character before the last
    two is no newline, so the document ends with one or two newlines. *)
Theorem C8_no_leading_newline_and_trailing_newline (t out : bytes) w :
  templateToLRE t = Ok (out, w) ->
  hd_error out <> Some NL
  /\ (out = []
      \/ exists body, out = body ++ [NL]
                      /\ forall body', body <> body' ++ [NL; NL]).
Proof.
  intros H. destruct (templateToLRE_normalized t out w H) as [b ->].
  apply normalized_shape.
Qed.

Lemma C8_witness :
  hd_error (B "a" ++ [NL; NL]) <> Some NL
  /\ (B "a" ++ [NL; NL] = []
      \/ exists body, B "a" ++ [NL; NL] = body ++ [NL]
                      /\ forall body', body <> body' ++ [NL; NL]).
Proof.
  apply (C8_no_leading_newline_and_trailing_newline (B "a" ++ [NL; NL]) _ None).
  vm_compute. reflexivity.
Defined.

(** C8 as stated fails: the template [a\n\n] is returned as it is, with two
    trailing newlines, and the empty template gives the empty document, with
    none. *)
Lemma C8_counterexample :
  templateToLRE (B "a" ++ [NL; NL]) = Ok (B "a" ++ [NL; NL], None)
  /\ ~ oneTrailingNL (B "a" ++ [NL; NL])
  /\ templateToLRE [] = Ok ([], None)
  /\ ~ oneTrailingNL [].
Proof.
  split; [vm_compute; reflexivity|]. split.
  - intros (body & E & H). change (B "a" ++ [NL; NL]) with (B "a" ++ [NL] ++ [NL]) in E.
    rewrite app_assoc in E. apply app_last_inj in E. destruct E as [E _].
    apply (H (B "a")). symmetry. exact E.
  - split; [vm_compute; reflexivity|].
    intros (body & E & _). destruct body; discriminate.
Qed.

(* ================================================================= *)
(** ** Literal text and doubled structural characters *)

Lemma plain_not_tag (c : ascii) (rest : bytes) :
  plain c = true -> structural (c :: rest) = false /\ tagOpen (c :: rest) = false.
Proof.
  destruct c as [[] [] [] [] [] [] [] []]; intros H; try discriminate H;
    split; reflexivity.
Qed.

Lemma plain_solid (c : ascii) : plain c = true -> is_blank c = false /\ c <> NL.
Proof.
  unfold plain. intros H. apply andb_true_iff in H. destruct H as [H H2].
  apply andb_true_iff in H. destruct H as [_ H1].
  apply negb_true_iff in H1, H2. split; [exact H1|].
  apply Ascii.eqb_neq. exact H2.
Qed.

Lemma special_solid (c : ascii) : special c = true -> is_blank c = false /\ c <> NL.
Proof.
  destruct c as [[] [] [] [] [] [] [] []]; intros H; try discriminate H;
    split; try reflexivity; discriminate.
Qed.

Lemma special_structural (c : ascii) (rest : bytes) :
  special c = true -> structural (c :: c :: rest) = true.
Proof.
  destruct c as [[] [] [] [] [] [] [] []]; intros H; try discriminate H; reflexivity.
Qed.

Lemma step_plain (t : bytes) (st : state) c rest :
  skipn (pos st) t = c :: rest -> plain c = true ->
  step t st = Ok (mkState (S (pos st)) (start st) (buf st) (optStart st)).
Proof.
  intros E H. unfold step. rewrite E.
  destruct (plain_not_tag c rest H) as [-> ->]. reflexivity.
Qed.

(** The loop passes over plain characters one at a time. *)
Lemma scan_plain (t : bytes) (p : bytes) :
  forall a rest fuel i s b o,
  t = a ++ p ++ rest -> i = length a ->
  Forall (fun c => plain c = true) p -> length p <= fuel ->
  scan fuel t (mkState i s b o)
  = scan (fuel - length p) t (mkState (i + length p) s b o).
Proof.
  induction p as [|c p IH]; intros a rest fuel i s b o Et Ei Hp Hf.
  - simpl. rewrite Nat.add_0_r, Nat.sub_0_r. reflexivity.
  - destruct fuel as [|fuel]; [simpl in Hf; lia|].
    inversion Hp as [|? ? Hc Hp']; subst.
    cbn [scan pos].
    replace (length a <? length (a ++ (c :: p) ++ rest)) with true.
    2:{ symmetry. apply Nat.ltb_lt. rewrite !length_app. simpl. lia. }
    rewrite (step_plain _ _ c (p ++ rest)); [|cbn [pos]; apply skipn_length_app|exact Hc].
    cbn [bind pos start buf optStart].
    rewrite (IH (a ++ [c]) rest fuel (S (length a)) s b o).
    + simpl length. f_equal. f_equal. lia.
    + rewrite <- app_assoc. reflexivity.
    + rewrite length_app. simpl. lia.
    + exact Hp'.
    + simpl in Hf. lia.
Qed.

Lemma scan_done fuel (t : bytes) (st : state) :
  length t <= pos st -> scan fuel t st = Ok st.
Proof.
  intros H. apply Nat.ltb_ge in H. destruct fuel; simpl; rewrite H; reflexivity.
Qed.

Lemma SplitAfterNL_no_NL (x : bytes) : ~ In NL x -> SplitAfterNL x = [x].
Proof.
  induction x as [|c x IH]; simpl; intros H; [reflexivity|].
  destruct (Ascii.eqb c NL) eqn:E.
  - apply Ascii.eqb_eq in E. exfalso. apply H. left. exact E.
  - rewrite IH; [reflexivity|]. intros G. apply H. right. exact G.
Qed.

Lemma breakPoint_solid (line : bytes) j0 :
  Forall (fun c => is_blank c = false) line -> j0 <= length line ->
  breakPoint line j0 = None.
Proof.
  intros H Hj.
  assert (N : forall k, is_blank (nth k line "000"%char) = false).
  { intros k. destruct (Nat.lt_ge_cases k (length line)) as [L|G].
    - rewrite Forall_forall in H. apply H. apply nth_In. exact L.
    - rewrite nth_overflow by exact G. reflexivity. }
  unfold breakPoint.
  assert (Bk : backBlank line j0 = None).
  { clear Hj. induction j0 as [|j IH]; simpl; rewrite N; [reflexivity|exact IH]. }
  rewrite Bk. cbv zeta.
  replace (fwdBlank line j0) with (length line); [rewrite Nat.eqb_refl; reflexivity|].
  unfold fwdBlank. rewrite takeWhile_all.
  - rewrite length_skipn. lia.
  - apply Forall_forall. intros c Hc. apply In_skipn in Hc.
    rewrite Forall_forall in H. rewrite (H c Hc). reflexivity.
Qed.

(** Text without white space is appended as it is. *)
Lemma wrap_solid (b x : bytes) :
  Forall (fun c => is_blank c = false /\ c <> NL) (b ++ x) ->
  wrap b x = Ok (b ++ x).
Proof.
  intros H.
  assert (Hnl : ~ In NL (b ++ x)).
  { intros G. rewrite Forall_forall in H. apply H in G. tauto. }
  assert (Hbl : Forall (fun c => is_blank c = false) (b ++ x)).
  { eapply Forall_impl; [|exact H]. cbv beta. tauto. }
  unfold wrap.
  rewrite lineStart_none by (intros G; apply Hnl; apply in_or_app; tauto).
  rewrite SplitAfterNL_no_NL by (intros G; apply Hnl; apply in_or_app; tauto).
  cbn [skipn firstn wrapLines].
  assert (St : stops is_blank (b ++ x)).
  { destruct Hbl; simpl; auto. }
  rewrite takeWhile_stops, dropWhile_id by exact St.
  rewrite wrapLoop_eq. cbn [length app]. unfold Target.
  destruct (Z.of_nat (length (b ++ x)) >? 80 - Z.of_nat 0)%Z eqn:Ec; [|reflexivity].
  cbn [Z.of_nat]. rewrite Z.sub_0_r. cbn [Z.ltb Z.compare].
  rewrite breakPoint_solid; [reflexivity|exact Hbl|].
  apply Z.gtb_lt in Ec. lia.
Qed.

(** The normalizer on a text without white space only appends the newline. *)
Lemma normalized_solid (x : bytes) :
  x <> [] -> Forall (fun c => is_blank c = false /\ c <> NL) x ->
  normalized x = x ++ [NL].
Proof.
  intros Hx H. unfold normalized, normalize. cbn [fst].
  assert (Nt : noTrailing x).
  { clear Hx. induction H as [|c x [Hc _] _ IH]; [exact I|].
    split; [rewrite Hc; discriminate|]. exact IH. }
  assert (Nm : noMatch matchBlank x).
  { clear Hx Nt. induction H as [|c x [_ Hc] _ IH]; [exact I|].
    split; [|exact IH]. apply matchBlank_not_NL. apply Ascii.eqb_neq. exact Hc. }
  rewrite (noTrailing_strip x Nt).
  unfold collapseBlank. rewrite (replaceAll_noMatch _ _ x Nm).
  assert (St : stops (Ascii.eqb NL) x).
  { destruct H as [|c x [_ Hc] _]; cbn [stops]; [exact I|].
    apply Ascii.eqb_neq. congruence. }
  rewrite (dropWhile_id _ x St).
  destruct (ensureNL_cases x) as [[E _]|[(body & E & _)|(body & c & E & Hc & ->)]].
  - contradiction.
  - exfalso. rewrite E in H. apply Forall_app in H. destruct H as [_ H].
    inversion H as [|? ? [_ G] _]. apply G. reflexivity.
  - reflexivity.
Qed.

(** The loop iteration in front of a run of a doubled structural character:
    the pending text and the first character of the run are flushed, the
    cursor and the mark move behind the run, the stack is not touched. *)
Lemma step_special (t p q b b' : bytes) c n s o :
  t = p ++ repeat c n ++ q -> 2 <= n -> special c = true ->
  stops (Ascii.eqb c) q ->
  wrap b (slice t s (length p + 1)) = Ok b' ->
  step t (mkState (length p) s b o)
  = Ok (mkState (length p + n) (length p + n) b' o).
Proof.
  intros Et Hn Hc Hq W. unfold step. cbn [pos start buf optStart].
  assert (Es : skipn (length p) t = repeat c n ++ q)
    by (rewrite Et; apply skipn_length_app).
  rewrite Es. destruct n as [|[|n]]; try lia.
  cbn [repeat app]. rewrite special_structural by exact Hc.
  rewrite W. cbn [bind].
  assert (En : nth (length p) t "000"%char = c).
  { rewrite Et, app_nth2, Nat.sub_diag by lia. reflexivity. }
  rewrite En.
  change (c :: c :: repeat c n ++ q) with (repeat c (S (S n)) ++ q).
  rewrite takeWhile_app_stops by exact Hq.
  rewrite takeWhile_all, repeat_length; [reflexivity|].
  apply Forall_forall. intros x Hx. apply repeat_spec in Hx. subst x.
  apply Ascii.eqb_refl.
Qed.

Lemma slice_run (p q : bytes) c n s :
  s <= length p -> 1 <= n ->
  slice (p ++ repeat c n ++ q) s (length p + 1)
  = slice (p ++ repeat c n ++ q) s (length p) ++ [c].
Proof.
  intros Hs Hn. unfold slice. rewrite skipn_app.
  replace (s - length p) with 0 by lia. cbn [skipn].
  assert (L : length (skipn s p) = length p - s) by apply length_skipn.
  destruct n as [|n]; [lia|]. cbn [repeat app].
  rewrite (firstn_app (length p + 1 - s)), (firstn_app (length p - s)), L.
  replace (length p + 1 - s - (length p - s)) with 1 by lia.
  replace (length p - s - (length p - s)) with 0 by lia.
  assert (F1 : firstn (length p + 1 - s) (skipn s p) = skipn s p)
    by (apply firstn_all2; lia).
  assert (F2 : firstn (length p - s) (skipn s p) = skipn s p)
    by (apply firstn_all2; lia).
  rewrite F1, F2. cbn [firstn]. rewrite app_nil_r. reflexivity.
Qed.

(** C2 (amended).  A run of [n >= 2] copies of a structural character [c]
    in the literal text of a template is not read as a tag and is not copied
    either: the loop iteration in front of the run flushes the pending
    literal text followed by one copy of [c], moves the cursor and the mark
    behind the whole run and leaves the stack alone.  Between two pieces of
    plain text the document is therefore the text before the run, one [c],
    the text behind the run and the final newline. *)
Theorem C2_doubled_run_collapses_to_one (p q : bytes) c n :
  special c = true -> 2 <= n -> stops (Ascii.eqb c) q ->
  (forall s b o b',
      s <= length p ->
      wrap b (slice (p ++ repeat c n ++ q) s (length p) ++ [c]) = Ok b' ->
      step (p ++ repeat c n ++ q) (mkState (length p) s b o)
      = Ok (mkState (length p + n) (length p + n) b' o))
  /\ (Forall (fun x => plain x = true) p ->
      Forall (fun x => plain x = true) q ->
      exists w, templateToLRE (p ++ repeat c n ++ q) = Ok (p ++ [c] ++ q ++ [NL], w)).
Proof.
  intros Hc Hn Stq. split.
  { intros s b o b' Hs W. apply (step_special _ p q b b' c n s o eq_refl Hn Hc Stq).
    rewrite slice_run by lia. exact W. }
  intros Hp Hq.
  set (t := p ++ repeat c n ++ q).
  assert (Lt : length t = length p + n + length q).
  { unfold t. rewrite !length_app, repeat_length. lia. }
  assert (Sp : Forall (fun x => is_blank x = false /\ x <> NL) p)
    by (eapply Forall_impl; [|exact Hp]; apply plain_solid).
  assert (Sq : Forall (fun x => is_blank x = false /\ x <> NL) q)
    by (eapply Forall_impl; [|exact Hq]; apply plain_solid).
  assert (Sc : is_blank c = false /\ c <> NL) by (apply special_solid; exact Hc).
  unfold templateToLRE. fold t. unfold init.
  rewrite (scan_plain t p [] (repeat c n ++ q) (length t) 0 0 [] [] eq_refl eq_refl Hp)
    by lia.
  cbn [plus]. replace (length t - length p) with (S (n - 1 + length q)) by lia.
  cbn [scan pos].
  replace (length p <? length t) with true by (symmetry; apply Nat.ltb_lt; lia).
  assert (Sl : slice t 0 (length p + 1) = p ++ [c]).
  { unfold slice, t. cbn [skipn]. rewrite Nat.sub_0_r.
    rewrite firstn_app. replace (length p + 1 - length p) with 1 by lia.
    rewrite firstn_all2 by lia. destruct n as [|n]; [lia|]. reflexivity. }
  rewrite (step_special t p q [] (p ++ [c]) c n 0 [] eq_refl Hn Hc Stq).
  2:{ rewrite Sl. apply (wrap_solid [] (p ++ [c])). cbn [app].
      apply Forall_app. split; [exact Sp|]. constructor; [exact Sc|constructor]. }
  cbn [bind].
  rewrite (scan_plain t q (p ++ repeat c n) [] (n - 1 + length q) (length p + n)
             (length p + n) (p ++ [c]) []).
  2:{ unfold t. rewrite app_nil_r, <- app_assoc. reflexivity. }
  2:{ rewrite length_app, repeat_length. reflexivity. }
  2:{ exact Hq. }
  2:{ lia. }
  rewrite scan_done by (cbn [pos]; lia).
  cbn [bind buf start].
  replace (skipn (length p + n) t) with q.
  2:{ unfold t. rewrite app_assoc.
      replace (length p + n) with (length (p ++ repeat c n))
        by (rewrite length_app, repeat_length; reflexivity).
      rewrite skipn_length_app. reflexivity. }
  assert (Sx : Forall (fun x => is_blank x = false /\ x <> NL) ((p ++ [c]) ++ q)).
  { apply Forall_app. split; [|exact Sq]. apply Forall_app. split; [exact Sp|].
    constructor; [exact Sc|constructor]. }
  rewrite (wrap_solid (p ++ [c]) q Sx). cbn [bind].
  exists (snd (normalize ((p ++ [c]) ++ q))).
  f_equal. rewrite (surjective_pairing (normalize ((p ++ [c]) ++ q))).
  f_equal. fold (normalized ((p ++ [c]) ++ q)).
  rewrite normalized_solid; [|destruct p; discriminate|exact Sx].
  repeat rewrite <- app_assoc. reflexivity.
Qed.

Lemma C2_witness :
  step (B "a" ++ repeat "?"%char 2 ++ B "b") (mkState 1 0 [] [])
  = Ok (mkState 3 3 (B "a?") [])
  /\ exists w, templateToLRE (B "a" ++ repeat "?"%char 2 ++ B "b")
               = Ok (B "a" ++ ["?"%char] ++ B "b" ++ [NL], w).
Proof.
  destruct (C2_doubled_run_collapses_to_one (B "a") (B "b") "?"%char 2)
    as [H1 H2]; [reflexivity|lia|reflexivity|].
  split.
  - apply (H1 0 [] [] (B "a?")); [simpl; lia|vm_compute; reflexivity].
  - apply H2; repeat constructor.
Defined.

(** C2 as stated fails: the template [a??b] is translated to [a?b], the
    doubled character does not reach the document. *)
Lemma C2_counterexample :
  templateToLRE (B "a??b") = Ok (B "a?b" ++ [NL], None)
  /\ Index (B "a?b" ++ [NL]) (B "a??b") = None.
Proof. split; vm_compute; reflexivity. Qed.

(* ================================================================= *)
(** ** The variable substitution policy *)

(** C4 (amended).  For a variable that is neither [bullet] nor [copyright]
    the handler ends with the marker [__n__], where [n] is the word count of
    [original] raised to 5 when it is below 5, and [n] is at least 5.  A word
    is a maximal run of the class of [wordRE]: letters, digits and the
    underscore. *)
Theorem C4_wildcard_at_least_five (name original b : bytes) :
  name <> B "bullet" -> name <> B "copyright" ->
  let n := if wordCount original <? 5 then 5 else wordCount original in
  5 <= n
  /\ variable name original b
     = indentNL ((if bytes_eqb original [] then indentNL b
                  else indentNL (indentNL b ++ B "//** " ++ original ++ B " **//"))
                 ++ B "__" ++ itoa n ++ B "__").
Proof.
  intros Hb Hc n. split.
  { unfold n. destruct (wordCount original <? 5) eqn:E; [lia|].
    apply Nat.ltb_ge in E. exact E. }
  unfold variable.
  apply bytes_eqb_neq in Hb, Hc. rewrite Hb, Hc. cbn [andb negb].
  assert (En : (if (if wordCount original <? 1 then 1 else wordCount original) <? 5
                then 5
                else if wordCount original <? 1 then 1 else wordCount original) = n).
  { unfold n. destruct (wordCount original <? 1) eqn:E1.
    - apply Nat.ltb_lt in E1.
      replace (wordCount original <? 5) with true
        by (symmetry; apply Nat.ltb_lt; lia).
      reflexivity.
    - reflexivity. }
  rewrite En. destruct (bytes_eqb original []); reflexivity.
Qed.

Lemma C4_witness :
  5 <= 5
  /\ variable (B "x") (B "World") (B "Hello ")
     = indentNL (indentNL (indentNL (B "Hello ") ++ B "//** " ++ B "World" ++ B " **//")
                 ++ B "__" ++ itoa 5 ++ B "__").
Proof.
  apply (C4_wildcard_at_least_five (B "x") (B "World") (B "Hello ")); discriminate.
Defined.

(** C4 as stated fails where the words of the code differ from runs of
    alphanumeric characters: [a_b_c_d_e_f] is one word for [wordRE] and six
    runs of letters; the marker written is [__5__], not [__6__]. *)
Lemma C4_counterexample :
  alnumWordCount (B "a_b_c_d_e_f") = 6
  /\ wordCount (B "a_b_c_d_e_f") = 1
  /\ variable (B "x") (B "a_b_c_d_e_f") []
     = [NL] ++ B "//** a_b_c_d_e_f **//" ++ [NL] ++ B "__5__" ++ [NL]
  /\ Index (variable (B "x") (B "a_b_c_d_e_f") []) (B "__6__") = None
  /\ templateToLRE (varTag (B "x") (B "a_b_c_d_e_f"))
     = Ok (B "//** a_b_c_d_e_f **//" ++ [NL] ++ B "__5__" ++ [NL], None).
Proof. repeat split; vm_compute; reflexivity. Qed.

(* ================================================================= *)
(** ** The fuel of the loops is never exhausted *)

(** Each iteration of the inner loop of [wrap] shortens the line. *)
Lemma wrapLoop_rest_shorter (line : bytes) j0 j :
  j0 <= length line -> breakPoint line j0 = Some j ->
  length (dropWhile is_blank (skipn j line)) < length line.
Proof.
  intros Hj Eb. destruct (breakPoint_Some _ _ _ Hj Eb) as (Hl & Hb & _).
  rewrite <- (firstn_skipn j line) in Hb at 1.
  rewrite app_nth2 in Hb by (rewrite length_firstn; lia).
  rewrite length_firstn in Hb. replace (j - Nat.min j (length line)) with 0 in Hb by lia.
  assert (Hs : length (skipn j line) = length line - j) by apply length_skipn.
  destruct (skipn j line) as [|c r]; [simpl in Hs; lia|].
  simpl in Hb. simpl. rewrite Hb.
  pose proof (dropWhile_length is_blank r). simpl in Hs. lia.
Qed.

Lemma wrapLoop_fuel f1 :
  forall f2 ind line b,
  length line <= f1 -> length line <= f2 ->
  wrapLoop f1 ind line b = wrapLoop f2 ind line b.
Proof.
  induction f1 as [|f1 IH]; intros f2 ind line b H1 H2;
    rewrite (wrapLoop_eq f2), wrapLoop_eq; unfold Target;
    destruct (Z.of_nat (length line) >? 80 - Z.of_nat (length ind))%Z eqn:Ec;
    try reflexivity;
    destruct (80 - Z.of_nat (length ind) <? 0)%Z eqn:Ew; try reflexivity;
    apply Z.gtb_lt in Ec; apply Z.ltb_ge in Ew.
  - lia.
  - destruct (breakPoint line (Z.to_nat (80 - Z.of_nat (length ind)))) as [j|] eqn:Eb;
      [|reflexivity].
    assert (L : length (dropWhile is_blank (skipn j line)) < length line)
      by (apply (wrapLoop_rest_shorter line (Z.to_nat (80 - Z.of_nat (length ind))) j);
          [lia|exact Eb]).
    destruct f2 as [|f2]; [lia|]. apply IH; lia.
Qed.

Lemma skipn_nth (s : bytes) :
  forall i d, i < length s -> skipn i s = nth i s d :: skipn (S i) s.
Proof.
  induction s as [|c s IH]; intros i d H; [simpl in H; lia|].
  destruct i as [|i]; [reflexivity|]. simpl in H.
  cbn [skipn nth]. apply IH. lia.
Qed.

(** Each iteration of the scanning loop moves the cursor forward. *)
Lemma step_advances (t : bytes) (st st' : state) :
  pos st < length t -> step t st = Ok st' -> pos st < pos st'.
Proof.
  intros Hp. unfold step.
  destruct (structural (skipn (pos st) t)) eqn:Es.
  { destruct (wrap _ _); [|discriminate]. cbn [bind]. intros [= <-]. cbn [pos].
    assert (E : skipn (pos st) t = nth (pos st) t "000"%char :: skipn (S (pos st)) t)
      by (apply skipn_nth; exact Hp).
    rewrite E at 1. cbn [takeWhile]. rewrite Ascii.eqb_refl. simpl. lia. }
  destruct (tagOpen (skipn (pos st) t)); [|intros [= <-]; cbn [pos]; lia].
  destruct (wrap _ _) as [b|]; [|discriminate]. cbn [bind].
  destruct (Index _ _) as [j|]; [|discriminate].
  destruct (bytes_eqb (findAttr _ _) _).
  { destruct (wrap _ _); [|discriminate]. cbn [bind]. intros [= <-]. cbn [pos]. lia. }
  destruct (bytes_eqb _ _).
  { unfold beginOptional. intros [= <-]. cbn [pos]. lia. }
  destruct (bytes_eqb _ _).
  { destruct (endOptional _ _); [|discriminate]. cbn [bind]. intros [= <-].
    cbn [pos]. lia. }
  destruct (HasPrefix _ _); [|discriminate]. intros [= <-]. cbn [pos]. lia.
Qed.

(** With [length t] iterations the loop of [templateToLRE] leaves through
    its guard. *)
Lemma scan_fuel fuel (t : bytes) :
  forall st st', length t - pos st <= fuel -> scan fuel t st = Ok st' ->
  length t <= pos st'.
Proof.
  induction fuel as [|fuel IH]; intros st st' Hf; simpl;
    destruct (pos st <? length t) eqn:E;
    try (apply Nat.ltb_ge in E; intros [= <-]; exact E);
    apply Nat.ltb_lt in E.
  - lia.
  - destruct (step t st) as [st1|] eqn:Es; [|discriminate]. cbn [bind].
    apply IH. pose proof (step_advances t st st1 E Es). lia.
Qed.

Lemma utf8Spaces_nonempty : Forall (fun p : bytes => 1 <= length p) utf8Spaces.
Proof. repeat constructor. Qed.

Lemma spaceRune_pos (s : bytes) n : spaceRune s = Some n -> 1 <= n.
Proof.
  unfold spaceRune. destruct s as [|c s]; [discriminate|].
  destruct (asciiSpace c); [intros [= <-]; lia|].
  destruct (find (HasPrefix (c :: s)) utf8Spaces) as [p|] eqn:E; [|discriminate].
  intros [= <-]. apply find_some in E. destruct E as [E _].
  pose proof utf8Spaces_nonempty as F. rewrite Forall_forall in F. apply F. exact E.
Qed.

Lemma spaceRuneLast_pos (s : bytes) n : spaceRuneLast s = Some n -> 1 <= n.
Proof.
  unfold spaceRuneLast. destruct (rev s) as [|c r]; [discriminate|].
  destruct (asciiSpace c); [intros [= <-]; lia|].
  destruct (find (HasSuffix s) utf8Spaces) as [p|] eqn:E; [|discriminate].
  intros [= <-]. apply find_some in E. destruct E as [E _].
  pose proof utf8Spaces_nonempty as F. rewrite Forall_forall in F. apply F. exact E.
Qed.

(** [TrimSpace] stops at a text without white space at either end. *)
Lemma trimLeftSpace_fuel fuel :
  forall s, length s <= fuel -> spaceRune (trimLeftSpace fuel s) = None.
Proof.
  induction fuel as [|fuel IH]; intros s H.
  - destruct s; [reflexivity|simpl in H; lia].
  - cbn [trimLeftSpace]. destruct (spaceRune s) as [n|] eqn:E; [|exact E].
    apply IH. apply spaceRune_pos in E as P.
    rewrite length_skipn. lia.
Qed.

Lemma trimRightSpace_fuel fuel :
  forall s, length s <= fuel -> spaceRuneLast (trimRightSpace fuel s) = None.
Proof.
  induction fuel as [|fuel IH]; intros s H.
  - destruct s; [reflexivity|simpl in H; lia].
  - cbn [trimRightSpace]. destruct (spaceRuneLast s) as [n|] eqn:E; [|exact E].
    apply IH. apply spaceRuneLast_pos in E as P.
    rewrite length_firstn. lia.
Qed.

(* ================================================================= *)
(** ** The lines of the document of a template without tags *)

Lemma lines_cons (s : bytes) : lines s = firstLine s :: restLines s.
Proof.
  unfold firstLine, restLines. pose proof (lines_not_nil s).
  destruct (lines s); [contradiction|reflexivity].
Qed.

Lemma firstLine_NL (s : bytes) : firstLine (NL :: s) = [].
Proof. reflexivity. Qed.

Lemma restLines_NL (s : bytes) : restLines (NL :: s) = lines s.
Proof. reflexivity. Qed.

Lemma firstLine_other c (s : bytes) :
  Ascii.eqb c NL = false -> firstLine (c :: s) = c :: firstLine s.
Proof.
  intros H. unfold firstLine. cbn [lines]. rewrite H, (lines_cons s). reflexivity.
Qed.

Lemma restLines_other c (s : bytes) :
  Ascii.eqb c NL = false -> restLines (c :: s) = restLines s.
Proof.
  intros H. unfold restLines. cbn [lines]. rewrite H, (lines_cons s). reflexivity.
Qed.

Lemma firstLine_app (l s : bytes) :
  ~ In NL l -> firstLine (l ++ s) = l ++ firstLine s.
Proof.
  induction l as [|c l IH]; intros H; [reflexivity|].
  cbn [app]. rewrite firstLine_other.
  - rewrite IH; [reflexivity|]. intros G. apply H. right. exact G.
  - apply Ascii.eqb_neq. intros ->. apply H. left. reflexivity.
Qed.

Lemma restLines_app (l s : bytes) :
  ~ In NL l -> restLines (l ++ s) = restLines s.
Proof.
  induction l as [|c l IH]; intros H; [reflexivity|].
  cbn [app]. rewrite restLines_other.
  - apply IH. intros G. apply H. right. exact G.
  - apply Ascii.eqb_neq. intros ->. apply H. left. reflexivity.
Qed.

Lemma linesOK_split (s : bytes) :
  Forall lineOK (lines s) <-> lineOK (firstLine s) /\ Forall lineOK (restLines s).
Proof.
  rewrite lines_cons. split.
  - intros H. inversion H; subst. split; assumption.
  - intros [H1 H2]. constructor; assumption.
Qed.

Lemma dropWhile_app_nonempty f (l x : bytes) :
  dropWhile f l <> [] -> dropWhile f (l ++ x) = dropWhile f l ++ x.
Proof.
  induction l as [|d l IH]; cbn [app dropWhile]; [contradiction|].
  destruct (f d); [exact IH|reflexivity].
Qed.

(** A line stays within the width when blanks are taken from its end. *)
Lemma lineOK_rstrip (l bl : bytes) : lineOK (l ++ bl) -> lineOK l.
Proof.
  intros [H|H].
  - left. rewrite length_app in H. lia.
  - right. destruct (dropWhile is_blank l) as [|c r] eqn:E; [reflexivity|].
    rewrite dropWhile_app_nonempty in H by (rewrite E; discriminate).
    rewrite E, existsb_app in H. apply orb_false_iff in H. apply H.
Qed.

(** Stripping shortens the first line and keeps the other lines within the
    width. *)
Lemma strip_lines_n n :
  forall d, length d <= n ->
  (exists bl, firstLine d = firstLine (stripTrailing d) ++ bl)
  /\ (Forall lineOK (restLines d) -> Forall lineOK (restLines (stripTrailing d))).
Proof.
  induction n as [|n IH]; intros d Hd.
  { destruct d; [|simpl in Hd; lia]. split; [exists []; reflexivity|auto]. }
  pose proof (takeWhile_dropWhile is_blank d) as Ed.
  pose proof (takeWhile_Forall is_blank d) as Hl.
  pose proof (dropWhile_stops is_blank d) as Hy.
  pose proof (Forall_blank_no_NL _ Hl) as Hnl.
  destruct (dropWhile is_blank d) as [|x y] eqn:Ey.
  - (* the text is a run of blanks *)
    rewrite app_nil_r in Ed. rewrite <- Ed.
    assert (T : stripTrailing (takeWhile is_blank d) = []).
    { destruct (takeWhile is_blank d) as [|c l]; [reflexivity|].
      unfold stripTrailing. rewrite replaceAll_cons.
      pose proof (mts_run l [] c Hl I) as M. rewrite app_nil_r in M. rewrite M.
      rewrite skipn_all2 by lia. reflexivity. }
    rewrite T. split; [eexists; reflexivity|].
    intros _. constructor.
  - cbn [stops] in Hy.
    assert (Ly : length y <= n).
    { rewrite <- Ed in Hd. rewrite length_app in Hd. simpl in Hd. lia. }
    destruct (IH y Ly) as ((bl & Hbl) & Hrest).
    destruct (Ascii.eqb x NL) eqn:Ex.
    + assert (T : stripTrailing d = x :: stripTrailing y).
      { rewrite <- Ed. unfold stripTrailing.
        destruct (takeWhile is_blank d) as [|c l].
        - cbn [app]. rewrite replaceAll_cons, mts_nonblank by exact Hy. reflexivity.
        - rewrite <- app_comm_cons, replaceAll_cons, app_comm_cons.
          rewrite (mts_run l (x :: y) c Hl Hy), Ex.
          rewrite skipn_app, skipn_all2 by lia.
          replace (length l - length l) with 0 by lia.
          change (replaceAll matchTrailingSpace [] 0 (x :: y)
                  = x :: replaceAll matchTrailingSpace [] 0 y).
          rewrite replaceAll_cons, mts_nonblank by exact Hy. reflexivity. }
      rewrite T. apply Ascii.eqb_eq in Ex. subst x.
      rewrite <- Ed, firstLine_app, restLines_app by exact Hnl.
      rewrite !firstLine_NL, !restLines_NL. split; [eexists; reflexivity|].
      intros H. apply linesOK_split in H. destruct H as [H1 H2].
      apply linesOK_split. split; [|apply Hrest; exact H2].
      rewrite Hbl in H1. apply lineOK_rstrip in H1. exact H1.
    + rewrite <- Ed. apply Ascii.eqb_neq in Ex as Ex'.
      rewrite strip_run by assumption.
      rewrite !firstLine_app, !restLines_app by exact Hnl.
      rewrite !firstLine_other, !restLines_other by exact Ex.
      split; [|exact Hrest].
      exists bl. rewrite Hbl, <- app_assoc. reflexivity.
Qed.

Lemma strip_linesOK (d : bytes) :
  Forall lineOK (lines d) -> Forall lineOK (lines (stripTrailing d)).
Proof.
  intros H. apply linesOK_split in H. destruct H as [H1 H2].
  destruct (strip_lines_n (length d) d (le_n _)) as ((bl & Hbl) & Hrest).
  apply linesOK_split. split; [|apply Hrest; exact H2].
  rewrite Hbl in H1. apply lineOK_rstrip in H1. exact H1.
Qed.

(** The greedy iteration of the groups ends behind a newline. *)
Lemma blankGroups_before (s : bytes) :
  forall p k n, blankGroups s p = (S k, n) ->
  exists a, s = a ++ NL :: skipn (n - p) s.
Proof.
  induction s as [|c r IH]; intros p k n; cbn [blankGroups]; [discriminate|].
  destruct (Ascii.eqb c NL) eqn:Ec.
  - apply Ascii.eqb_eq in Ec. subst c.
    destruct (blankGroups r 0) as [k' n'] eqn:E. intros H. injection H as Hk Hn.
    replace (n - p) with (S n') by lia. cbn [skipn].
    destruct k' as [|k'].
    + apply blankGroups_zero in E. subst n'. exists []. reflexivity.
    + destruct (IH 0 k' n' E) as [a Ha]. rewrite Nat.sub_0_r in Ha.
      exists (NL :: a). cbn [app]. f_equal. exact Ha.
  - destruct (is_blankish c); [|discriminate].
    intros H. destruct (blankGroups_maximal r (S p) k n H) as (H1 & _ & _).
    destruct (IH (S p) k n H) as [a Ha].
    replace (n - p) with (S (n - S p)) by lia. cbn [skipn].
    exists (c :: a). cbn [app]. f_equal. exact Ha.
Qed.

(** Collapsing keeps the first line and keeps the other lines within the
    width. *)
Lemma collapse_lines_n n :
  forall d, length d <= n ->
  firstLine (collapseBlank d) = firstLine d
  /\ (Forall lineOK (restLines d) -> Forall lineOK (restLines (collapseBlank d))).
Proof.
  induction n as [|n IH]; intros d Hd.
  { destruct d; [|simpl in Hd; lia]. split; [reflexivity|auto]. }
  destruct d as [|c r]; [split; [reflexivity|auto]|].
  simpl in Hd. assert (Hr : length r <= n) by lia.
  assert (Rec : forall z, length z <= n -> Forall lineOK (lines z) ->
                Forall lineOK (lines (collapseBlank z))).
  { intros z Hz H. apply linesOK_split in H. destruct H as [H1 H2].
    destruct (IH z Hz) as [I1 I2].
    apply linesOK_split. rewrite I1. split; [exact H1|apply I2; exact H2]. }
  unfold collapseBlank. rewrite replaceAll_cons.
  destruct (Ascii.eqb c NL) eqn:Ec.
  - apply Ascii.eqb_eq in Ec. subst c. rewrite matchBlank_NL.
    destruct (2 <=? groupsAt r) eqn:E2.
    + apply Nat.leb_le in E2.
      destruct (blankGroups r 0) as [k m] eqn:Eg.
      assert (Ek : k = groupsAt r) by (unfold groupsAt; rewrite Eg; reflexivity).
      destruct k as [|k]; [lia|]. cbn [snd].
      destruct (blankGroups_maximal r 0 k m Eg) as (_ & M2 & _).
      destruct (blankGroups_before r 0 k m Eg) as [a Ha].
      rewrite Nat.sub_0_r in *.
      fold (collapseBlank (skipn m r)). cbn [app].
      rewrite !firstLine_NL, !restLines_NL. split; [reflexivity|].
      intros H. rewrite Ha, lines_app_NL in H. apply Forall_app in H.
      destruct H as [_ H].
      change (Forall lineOK ([] :: lines (collapseBlank (skipn m r)))).
      constructor; [left; simpl; lia|].
      apply Rec; [rewrite length_skipn; lia|exact H].
    + fold (collapseBlank r). rewrite !firstLine_NL, !restLines_NL.
      split; [reflexivity|]. apply Rec. exact Hr.
  - rewrite matchBlank_not_NL by exact Ec. fold (collapseBlank r).
    rewrite !firstLine_other, !restLines_other by exact Ec.
    destruct (IH r Hr) as [I1 I2]. rewrite I1. split; [reflexivity|exact I2].
Qed.

Lemma collapse_linesOK (d : bytes) :
  Forall lineOK (lines d) -> Forall lineOK (lines (collapseBlank d)).
Proof.
  intros H. apply linesOK_split in H. destruct H as [H1 H2].
  destruct (collapse_lines_n (length d) d (le_n _)) as [I1 I2].
  apply linesOK_split. rewrite I1. split; [exact H1|apply I2; exact H2].
Qed.

Lemma dropNL_linesOK (d : bytes) :
  Forall lineOK (lines d) -> Forall lineOK (lines (dropWhile (Ascii.eqb NL) d)).
Proof.
  induction d as [|c r IH]; intros H; [exact H|].
  cbn [dropWhile]. destruct (Ascii.eqb NL c) eqn:E; [|exact H].
  apply Ascii.eqb_eq in E. subst c. apply IH.
  apply linesOK_split in H. rewrite restLines_NL in H. apply H.
Qed.

Lemma ensureNL_linesOK (d : bytes) :
  Forall lineOK (lines d) -> Forall lineOK (lines (ensureNL d)).
Proof.
  intros H.
  destruct (ensureNL_cases d) as [[_ ->]|[(body & _ & ->)|(body & c & _ & _ & ->)]];
    try exact H.
  - constructor; [left; simpl; lia|constructor].
  - rewrite lines_app_NL. apply Forall_app. split; [exact H|].
    constructor; [left; simpl; lia|constructor].
Qed.

(** The normalizer keeps the lines within the width. *)
Lemma normalized_linesOK (d : bytes) :
  Forall lineOK (lines d) -> Forall lineOK (lines (normalized d)).
Proof.
  intros H. unfold normalized, normalize. cbn [fst].
  apply ensureNL_linesOK, dropNL_linesOK, collapse_linesOK, strip_linesOK. exact H.
Qed.

(** [wrap] keeps the lines of the buffer within the width. *)
Lemma wrap_linesOK (b text out : bytes) :
  Forall lineOK (lines b) -> wrap b text = Ok out -> Forall lineOK (lines out).
Proof.
  intros H W. destruct (wrap_spec _ _ _ W) as (T & -> & HT).
  pose proof (lineStart_le b (length b)) as Le.
  destruct (lineStart_pred b (length b)) as [Z|P].
  - rewrite Z. exact HT.
  - destruct (lineStart b (length b)) as [|i] eqn:Ei; [exact HT|].
    replace (S i - 1) with i in P by lia.
    assert (Eb : b = firstn i b ++ NL :: skipn (S i) b).
    { rewrite <- (firstn_skipn i b) at 1. rewrite (skipn_nth b i SP) by lia.
      rewrite P. reflexivity. }
    assert (Ef : firstn (S i) b = firstn i b ++ [NL]).
    { rewrite Eb at 1. rewrite firstn_app, length_firstn.
      replace (S i - Nat.min i (length b)) with 1 by lia.
      rewrite firstn_all2 by (rewrite length_firstn; lia). reflexivity. }
    rewrite Ef, <- app_assoc. cbn [app]. rewrite lines_app_NL.
    apply Forall_app. split; [|exact HT].
    rewrite Eb, lines_app_NL in H. apply Forall_app in H. apply H.
Qed.

Lemma HasPrefix_head (s p : bytes) c :
  HasPrefix s (c :: p) = true -> exists r, s = c :: r.
Proof.
  destruct s as [|d s]; cbn [HasPrefix]; [discriminate|].
  intros H. apply andb_true_iff in H. destruct H as [H _].
  apply Ascii.eqb_eq in H. subst d. exists s. reflexivity.
Qed.

(** C5 as stated fails: the annotation that echoes the [original] attribute
    of a variable is written without [wrap]; with a long attribute the
    document has a line of more than 80 characters and many tokens. *)
Lemma C5_counterexample :
  exists out w,
    templateToLRE (B "x" ++ varTag (B "x") (concat (repeat (B "a ") 45) ++ B "a"))
    = Ok (out, w)
    /\ ~ Forall lineOK (lines out).
Proof.
  eexists _, _. split; [vm_compute; reflexivity|].
  intros H. rewrite Forall_forall in H.
  specialize (H (B "//** " ++ concat (repeat (B "a ") 45) ++ B "a **//")).
  destruct H as [H|H].
  - vm_compute. tauto.
  - apply Nat.leb_le in H. vm_compute in H. discriminate.
  - vm_compute in H. discriminate.
Qed.

(* ================================================================= *)
(** ** Runs of a character class *)

Lemma runs_unfold f c (r : bytes) :
  f c = true -> runs f (c :: r) = (c :: takeWhile f r) :: runs f (dropWhile f r).
Proof.
  revert c. induction r as [|d r IH]; intros c Hc.
  - simpl. rewrite Hc. reflexivity.
  - change (runs f (c :: d :: r))
      with (if f c then
              if f d then match runs f (d :: r) with
                          | w :: ws => (c :: w) :: ws
                          | [] => [[c]]
                          end
              else [c] :: runs f (d :: r)
            else runs f (d :: r)).
    rewrite Hc. cbn [takeWhile dropWhile]. destruct (f d) eqn:Hd.
    + rewrite (IH d Hd). reflexivity.
    + reflexivity.
Qed.

Lemma runs_skip f c (r : bytes) : f c = false -> runs f (c :: r) = runs f r.
Proof. intros H. simpl. rewrite H. reflexivity. Qed.

Lemma runs_skip_all f (l s : bytes) :
  Forall (fun c => f c = false) l -> runs f (l ++ s) = runs f s.
Proof.
  induction 1 as [|c l Hc _ IH]; [reflexivity|].
  rewrite <- app_comm_cons, runs_skip by exact Hc. exact IH.
Qed.

Lemma runs_sep_n f n :
  forall (a b : bytes) c, length a <= n -> f c = false ->
  runs f (a ++ c :: b) = runs f a ++ runs f b.
Proof.
  induction n as [|n IH]; intros a b c Hn Hc.
  - destruct a; [|simpl in Hn; lia]. simpl. rewrite Hc. reflexivity.
  - destruct a as [|x a]; [simpl; rewrite Hc; reflexivity|].
    simpl in Hn. rewrite <- app_comm_cons. destruct (f x) eqn:Hx.
    + rewrite !runs_unfold by exact Hx.
      assert (St : stops f (c :: b)) by exact Hc.
      rewrite takeWhile_app_stops, dropWhile_app_stops by exact St.
      rewrite IH; [reflexivity| |exact Hc].
      pose proof (dropWhile_length f a). lia.
    + rewrite !runs_skip by exact Hx. apply IH; [lia|exact Hc].
Qed.

Lemma runs_sep f (a b : bytes) c :
  f c = false -> runs f (a ++ c :: b) = runs f a ++ runs f b.
Proof. apply (runs_sep_n f (length a)). apply le_n. Qed.

Lemma runs_seps f (a l b : bytes) :
  Forall (fun c => f c = false) l -> l <> [] ->
  runs f (a ++ l ++ b) = runs f a ++ runs f b.
Proof.
  intros Hl Hne. destruct l as [|c l]; [congruence|].
  inversion Hl as [|? ? Hc Hl']; subst.
  rewrite <- app_comm_cons, runs_sep by exact Hc.
  rewrite runs_skip_all by exact Hl'. reflexivity.
Qed.

Lemma filter_takeWhile f (s : bytes) : filter f (takeWhile f s) = takeWhile f s.
Proof.
  induction s as [|c r IH]; [reflexivity|]. simpl.
  destruct (f c) eqn:E; [|reflexivity]. simpl. rewrite E, IH. reflexivity.
Qed.

Lemma runs_concat_n f n :
  forall s : bytes, length s <= n -> concat (runs f s) = filter f s.
Proof.
  induction n as [|n IH]; intros s Hn.
  - destruct s; [reflexivity|simpl in Hn; lia].
  - destruct s as [|c r]; [reflexivity|]. simpl in Hn.
    destruct (f c) eqn:Hc.
    + rewrite runs_unfold by exact Hc. cbn [concat filter]. rewrite Hc.
      rewrite IH by (pose proof (dropWhile_length f r); lia).
      rewrite <- (takeWhile_dropWhile f r) at 3.
      rewrite filter_app, filter_takeWhile. reflexivity.
    + rewrite runs_skip by exact Hc. cbn [filter]. rewrite Hc. apply IH. lia.
Qed.

Lemma runs_wf_n f n :
  forall s : bytes, length s <= n ->
  Forall (fun w => w <> [] /\ Forall (fun c => f c = true) w) (runs f s).
Proof.
  induction n as [|n IH]; intros s Hn.
  - destruct s; [apply Forall_nil|simpl in Hn; lia].
  - destruct s as [|c r]; [apply Forall_nil|]. simpl in Hn.
    destruct (f c) eqn:Hc.
    + rewrite runs_unfold by exact Hc. apply Forall_cons.
      * split; [discriminate|]. apply Forall_cons; [exact Hc|apply takeWhile_Forall].
      * apply IH. pose proof (dropWhile_length f r). lia.
    + rewrite runs_skip by exact Hc. apply IH. lia.
Qed.

(* ================================================================= *)
(** ** Further properties of the reflow engine *)

(** The shape of what the inner loop of [wrap] writes for the line
    [body ++ tl]: a chain of pieces cut at a space or tab of the line, each
    behind the indentation, the rest of the line last. *)
Lemma wrapLoop_shape fuel ind (P : bytes -> bytes -> Prop) :
  (forall body, ~ In NL body -> stops is_blank body -> P body (ind ++ body)) ->
  (forall body j X, ~ In NL body -> stops is_blank body -> j < length body ->
      is_blank (nth j body "000"%char) = true ->
      P (dropWhile is_blank (skipn j body)) X ->
      P body (ind ++ firstn j body ++ NL :: X)) ->
  forall body tl b out,
  length (body ++ tl) <= fuel ->
  ~ In NL body -> stops is_blank body -> tl = [] \/ tl = [NL] ->
  wrapLoop fuel ind (body ++ tl) b = Ok out ->
  exists X, out = b ++ X ++ tl /\ P body X.
Proof.
  intros Hfin Hcut.
  induction fuel as [|fuel IH]; intros body tl b out Hlen Hbody Hst Htl;
    rewrite wrapLoop_eq; unfold Target;
    (destruct (Z.of_nat (length (body ++ tl)) >? 80 - Z.of_nat (length ind))%Z eqn:Ec;
     [ destruct (80 - Z.of_nat (length ind) <? 0)%Z eqn:Ew; [discriminate|]
     | intros [= <-]; exists (ind ++ body); split;
       [ rewrite <- app_assoc; reflexivity | apply Hfin; assumption ] ]).
  - apply Z.gtb_lt in Ec. apply Z.ltb_ge in Ew. lia.
  - apply Z.gtb_lt in Ec. apply Z.ltb_ge in Ew.
    assert (Hj0 : Z.to_nat (80 - Z.of_nat (length ind)) <= length (body ++ tl)) by lia.
    assert (Hstop : stops is_blank tl) by (destruct Htl as [->| ->]; simpl; auto).
    destruct (breakPoint (body ++ tl) (Z.to_nat (80 - Z.of_nat (length ind))))
      as [j|] eqn:Eb.
    + destruct (breakPoint_Some _ _ _ Hj0 Eb) as (Hjl & Hjb & _).
      assert (Hjbody : j < length body).
      { destruct (Nat.lt_ge_cases j (length body)) as [L|G]; [exact L|].
        exfalso. rewrite app_nth2 in Hjb by exact G.
        rewrite length_app in Hjl.
        destruct Htl as [->| ->]; simpl in Hjl; [lia|].
        replace (j - length body) with 0 in Hjb by lia. discriminate. }
      rewrite app_nth1 in Hjb by exact Hjbody.
      rewrite firstn_app, skipn_app.
      replace (j - length body) with 0 by lia. simpl firstn. simpl skipn.
      rewrite app_nil_r. rewrite dropWhile_app_stops by exact Hstop.
      assert (HNL : ~ In NL (dropWhile is_blank (skipn j body))).
      { intros G. apply Hbody.
        assert (In NL (skipn j body)).
        { rewrite <- (takeWhile_dropWhile is_blank (skipn j body)).
          apply in_or_app. right. exact G. }
        eapply In_skipn; eassumption. }
      intros Hrec. apply IH in Hrec;
        [| |exact HNL|apply dropWhile_stops|exact Htl].
      * destruct Hrec as (X & -> & HX).
        exists (ind ++ firstn j body ++ NL :: X). split.
        { repeat rewrite <- app_assoc. reflexivity. }
        apply Hcut; assumption.
      * assert (Hd : length (dropWhile is_blank (skipn j body)) < length (skipn j body)).
        { rewrite <- (firstn_skipn j body) in Hjb at 1.
          rewrite app_nth2 in Hjb by (rewrite length_firstn; lia).
          rewrite length_firstn in Hjb.
          replace (j - Nat.min j (length body)) with 0 in Hjb by lia.
          assert (Hs : length (skipn j body) <> 0) by (rewrite length_skipn; lia).
          destruct (skipn j body) as [|c r]; [simpl in Hs; lia|].
          simpl in Hjb. simpl. rewrite Hjb.
          pose proof (dropWhile_length is_blank r). lia. }
        rewrite length_skipn in Hd. rewrite length_app in *. lia.
    + intros [= <-]. exists (ind ++ body). split.
      { rewrite <- app_assoc. reflexivity. }
      apply Hfin; assumption.
Qed.

Lemma blank_not_solid (l : bytes) :
  Forall (fun c => is_blank c = true) l -> Forall (fun c => solid c = false) l.
Proof.
  intros H. eapply Forall_impl; [|exact H].
  intros c Hc. unfold solid. rewrite Hc. reflexivity.
Qed.

Lemma tokens_dropWhile_blank (s : bytes) : tokens (dropWhile is_blank s) = tokens s.
Proof.
  rewrite <- (takeWhile_dropWhile is_blank s) at 2. unfold tokens.
  rewrite runs_skip_all; [reflexivity|].
  apply blank_not_solid, takeWhile_Forall.
Qed.

Lemma skipn_nth_cut (body : bytes) j :
  j < length body ->
  body = firstn j body ++ nth j body "000"%char :: skipn (S j) body.
Proof.
  intros H. rewrite <- (skipn_nth body j "000"%char H). symmetry. apply firstn_skipn.
Qed.

Lemma wrapLoop_tokens fuel ind :
  Forall (fun c => is_blank c = true) ind ->
  forall body tl b out,
  length (body ++ tl) <= fuel ->
  ~ In NL body -> stops is_blank body -> tl = [] \/ tl = [NL] ->
  wrapLoop fuel ind (body ++ tl) b = Ok out ->
  exists X, out = b ++ X ++ tl /\ tokens X = tokens body.
Proof.
  intros Hind.
  apply (wrapLoop_shape fuel ind (fun body X => tokens X = tokens body)).
  - intros body _ _. unfold tokens. apply runs_skip_all, blank_not_solid, Hind.
  - intros body j X _ _ Hj Hb HX. unfold tokens in *.
    rewrite runs_skip_all by (apply blank_not_solid, Hind).
    rewrite runs_sep by reflexivity. rewrite HX.
    assert (Hs : solid (nth j body "000"%char) = false)
      by (unfold solid; rewrite Hb; reflexivity).
    rewrite (skipn_nth_cut body j Hj) at 3.
    rewrite runs_sep by exact Hs. f_equal.
    rewrite (skipn_nth body j "000"%char Hj). cbn [dropWhile]. rewrite Hb.
    apply tokens_dropWhile_blank.
Qed.

Lemma concat_SplitAfterNL (text : bytes) : concat (SplitAfterNL text) = text.
Proof.
  induction text as [|c r IH]; [reflexivity|]. simpl.
  destruct (Ascii.eqb c NL) eqn:E.
  - apply Ascii.eqb_eq in E. subst c. simpl. rewrite IH. reflexivity.
  - destruct (SplitAfterNL r) as [|l ls]; simpl in *; rewrite <- IH; reflexivity.
Qed.

Lemma wrapLines_tokens ls :
  forall b out,
  splitOK ls -> wrapLines ls b = Ok out ->
  exists T, out = b ++ T /\ tokens T = tokens (concat ls).
Proof.
  induction ls as [|l rest IH]; intros b out Hs; [contradiction|].
  simpl in Hs. simpl wrapLines. destruct rest as [|l2 rest].
  - pose proof (wrapLoop_tokens (length (dropWhile is_blank l)) (takeWhile is_blank l)
                  (takeWhile_Forall is_blank l) (dropWhile is_blank l) [] b) as W.
    rewrite app_nil_r in W.
    destruct (wrapLoop (length (dropWhile is_blank l)) (takeWhile is_blank l)
                (dropWhile is_blank l) b) as [o|p] eqn:E; [|discriminate].
    simpl. intros [= <-].
    destruct (W o (le_n _)) as (X & -> & HX);
      [| apply dropWhile_stops | left; reflexivity | reflexivity |].
    + intros G. apply Hs.
      rewrite <- (takeWhile_dropWhile is_blank l). apply in_or_app. right. exact G.
    + exists X. rewrite !app_nil_r. split; [reflexivity|].
      rewrite HX. apply tokens_dropWhile_blank.
  - destruct Hs as ((body & -> & Hb) & Hs).
    assert (St : stops is_blank [NL]) by reflexivity.
    rewrite takeWhile_app_stops, dropWhile_app_stops by exact St.
    pose proof (wrapLoop_tokens (length (dropWhile is_blank body ++ [NL]))
                  (takeWhile is_blank body) (takeWhile_Forall is_blank body)
                  (dropWhile is_blank body) [NL] b) as W.
    destruct (wrapLoop (length (dropWhile is_blank body ++ [NL]))
                (takeWhile is_blank body) (dropWhile is_blank body ++ [NL]) b)
      as [o|p] eqn:E; [|discriminate].
    simpl bind. intros Hrec.
    destruct (W o (le_n _)) as (X & -> & HX);
      [| apply dropWhile_stops | right; reflexivity | reflexivity |].
    + intros G. apply Hb.
      rewrite <- (takeWhile_dropWhile is_blank body). apply in_or_app. right. exact G.
    + apply IH in Hrec; [|exact Hs]. destruct Hrec as (T & -> & HT).
      exists (X ++ NL :: T). split.
      * repeat rewrite <- app_assoc. reflexivity.
      * unfold tokens in *. rewrite runs_sep by reflexivity.
        rewrite HX, HT. change (runs solid (dropWhile is_blank body))
          with (tokens (dropWhile is_blank body)).
        rewrite tokens_dropWhile_blank. unfold tokens.
        cbn [concat]. rewrite <- app_assoc. cbn [app].
        rewrite runs_sep by reflexivity. reflexivity.
Qed.

Lemma lastLine_split (b : bytes) :
  firstn (lineStart b (length b)) b ++ lastLine b = b.
Proof. apply firstn_skipn. Qed.

Lemma firstn_succ_nth (s : bytes) :
  forall i d, i < length s -> firstn (S i) s = firstn i s ++ [nth i s d].
Proof.
  induction s as [|c r IH]; intros i d Hi; [simpl in Hi; lia|].
  destruct i as [|i]; [reflexivity|].
  simpl in Hi. cbn [firstn nth app]. f_equal.
  change (firstn (S i) r = firstn i r ++ [nth i r d]). apply IH. lia.
Qed.

(** The part of the buffer in front of its last line is empty or ends with a
    newline. *)
Lemma before_lastLine (b : bytes) :
  firstn (lineStart b (length b)) b = []
  \/ exists pre, firstn (lineStart b (length b)) b = pre ++ [NL].
Proof.
  pose proof (lineStart_pred b (length b)) as P.
  pose proof (lineStart_le b (length b)) as L.
  destruct (lineStart b (length b)) as [|i] eqn:E; [left; reflexivity|].
  right. destruct P as [P|P]; [discriminate|].
  simpl in P. rewrite Nat.sub_0_r in P.
  exists (firstn i b). rewrite (firstn_succ_nth b i SP) by lia. rewrite P. reflexivity.
Qed.

(** X1: [wrap] only moves line breaks and indentation: the tokens of the
    buffer followed by the text are the tokens of the result, in the same
    order and none of them cut in two. *)
Theorem wrap_keeps_tokens (b text out : bytes) :
  wrap b text = Ok out -> tokens out = tokens (b ++ text).
Proof.
  intros W. unfold wrap in W. pose proof (SplitAfterNL_ok text) as Hs.
  pose proof (concat_SplitAfterNL text) as Hc.
  destruct (SplitAfterNL text) as [|l0 ls]; [contradiction|].
  apply wrapLines_tokens in W.
  2:{ apply splitOK_prepend; [apply lineStart_tail_no_NL|exact Hs]. }
  destruct W as (T & -> & HT).
  cbn [concat] in HT, Hc. rewrite <- app_assoc, Hc in HT.
  fold (lastLine b) in HT.
  replace (b ++ text)
    with (firstn (lineStart b (length b)) b ++ lastLine b ++ text)
    by (rewrite app_assoc, lastLine_split; reflexivity).
  destruct (before_lastLine b) as [-> | (pre & ->)].
  - exact HT.
  - unfold tokens in *. rewrite <- !app_assoc. cbn [app].
    rewrite !runs_sep by reflexivity. rewrite HT. reflexivity.
Qed.

Lemma wrap_keeps_tokens_witness :
  wrap (B "ab  cd") (B " ef" ++ [NL] ++ B "  gh") = Ok (B "ab  cd ef" ++ [NL] ++ B "  gh")
  /\ tokens (B "ab  cd ef" ++ [NL] ++ B "  gh")
     = tokens (B "ab  cd" ++ B " ef" ++ [NL] ++ B "  gh").
Proof.
  split; [reflexivity|].
  apply (wrap_keeps_tokens (B "ab  cd") (B " ef" ++ [NL] ++ B "  gh")). reflexivity.
Defined.

Lemma stops_firstn f (s : bytes) j : stops f s -> stops f (firstn j s).
Proof. destruct s, j; simpl; auto. Qed.

Lemma indentation_app (ind x : bytes) :
  Forall (fun c => is_blank c = true) ind -> stops is_blank x ->
  indentation (ind ++ x) = ind.
Proof.
  intros Hi Hx. unfold indentation.
  rewrite takeWhile_app_stops by exact Hx. apply takeWhile_all, Hi.
Qed.

Lemma wrapLoop_indent fuel ind :
  Forall (fun c => is_blank c = true) ind ->
  forall body tl b out,
  length (body ++ tl) <= fuel ->
  ~ In NL body -> stops is_blank body -> tl = [] \/ tl = [NL] ->
  wrapLoop fuel ind (body ++ tl) b = Ok out ->
  exists X, out = b ++ X ++ tl /\ Forall (fun l => indentation l = ind) (lines X).
Proof.
  intros Hind. pose proof (Forall_blank_no_NL ind Hind) as HindNL.
  apply (wrapLoop_shape fuel ind
           (fun body X => Forall (fun l => indentation l = ind) (lines X))).
  - intros body Hb Hs. rewrite lines_no_NL by (rewrite in_app_iff; tauto).
    apply Forall_cons; [|apply Forall_nil]. apply indentation_app; assumption.
  - intros body j X Hb Hs _ _ HX.
    replace (ind ++ firstn j body ++ NL :: X)
      with ((ind ++ firstn j body) ++ NL :: X) by (rewrite <- app_assoc; reflexivity).
    rewrite lines_app_NL. apply Forall_app. split; [|exact HX].
    rewrite lines_no_NL.
    2:{ rewrite in_app_iff. intros [G|G]; [tauto|].
        apply Hb. eapply In_firstn; exact G. }
    apply Forall_cons; [|apply Forall_nil].
    apply indentation_app; [exact Hind|apply stops_firstn, Hs].
Qed.

Lemma indentation_NL (body : bytes) : indentation (body ++ [NL]) = indentation body.
Proof. apply takeWhile_app_stops. reflexivity. Qed.

Lemma wrapLoop_piece fuel ind :
  Forall (fun c => is_blank c = true) ind ->
  forall body tl b out,
  length (body ++ tl) <= fuel ->
  ~ In NL body -> stops is_blank body -> tl = [] \/ tl = [NL] ->
  wrapLoop fuel ind (body ++ tl) b = Ok out ->
  exists X, out = b ++ X ++ tl
            /\ tokens X = tokens body
            /\ Forall (fun l => indentation l = ind) (lines X).
Proof.
  intros Hind body tl b out Hl Hb Hs Ht W.
  destruct (wrapLoop_tokens fuel ind Hind body tl b out Hl Hb Hs Ht W) as (X & E & T).
  destruct (wrapLoop_indent fuel ind Hind body tl b out Hl Hb Hs Ht W) as (X' & E' & I).
  assert (X' = X).
  { rewrite E in E'. apply app_inv_head in E'. apply app_inv_tail in E'.
    symmetry. exact E'. }
  subst X'. exists X. repeat split; assumption.
Qed.

(** What [wrap] writes for its lines: one piece for each line, in the order
    of the lines; the piece has the tokens of the line, and each of its
    lines has the indentation of the line. *)
Lemma wrapLines_pieces ls :
  forall b out,
  splitOK ls -> wrapLines ls b = Ok out ->
  exists T Xs,
    out = b ++ T
    /\ lines T = concat (map lines Xs)
    /\ Forall2 (fun l X => tokens X = tokens l
                           /\ Forall (fun x => indentation x = indentation l) (lines X))
               ls Xs.
Proof.
  induction ls as [|l rest IH]; intros b out Hs; [contradiction|].
  simpl in Hs. simpl wrapLines. destruct rest as [|l2 rest].
  - pose proof (wrapLoop_piece (length (dropWhile is_blank l)) (takeWhile is_blank l)
                  (takeWhile_Forall is_blank l) (dropWhile is_blank l) [] b) as W.
    rewrite app_nil_r in W.
    destruct (wrapLoop (length (dropWhile is_blank l)) (takeWhile is_blank l)
                (dropWhile is_blank l) b) as [o|p] eqn:E; [|discriminate].
    simpl. intros [= <-].
    destruct (W o (le_n _)) as (X & -> & HT & HI);
      [| apply dropWhile_stops | left; reflexivity | reflexivity |].
    + intros G. apply Hs.
      rewrite <- (takeWhile_dropWhile is_blank l). apply in_or_app. right. exact G.
    + exists X, [X]. rewrite !app_nil_r. split; [reflexivity|].
      split; [cbn [map concat]; rewrite app_nil_r; reflexivity|].
      apply Forall2_cons; [|apply Forall2_nil]. split.
      * rewrite HT. apply tokens_dropWhile_blank.
      * exact HI.
  - destruct Hs as ((body & -> & Hb) & Hs).
    assert (St : stops is_blank [NL]) by reflexivity.
    rewrite takeWhile_app_stops, dropWhile_app_stops by exact St.
    pose proof (wrapLoop_piece (length (dropWhile is_blank body ++ [NL]))
                  (takeWhile is_blank body) (takeWhile_Forall is_blank body)
                  (dropWhile is_blank body) [NL] b) as W.
    destruct (wrapLoop (length (dropWhile is_blank body ++ [NL]))
                (takeWhile is_blank body) (dropWhile is_blank body ++ [NL]) b)
      as [o|p] eqn:E; [|discriminate].
    simpl bind. intros Hrec.
    destruct (W o (le_n _)) as (X & -> & HT & HI);
      [| apply dropWhile_stops | right; reflexivity | reflexivity |].
    + intros G. apply Hb.
      rewrite <- (takeWhile_dropWhile is_blank body). apply in_or_app. right. exact G.
    + apply IH in Hrec; [|exact Hs]. destruct Hrec as (T & Xs & -> & HL & HF).
      exists (X ++ NL :: T), (X :: Xs). split.
      { repeat rewrite <- app_assoc. reflexivity. }
      split.
      { rewrite lines_app_NL. cbn [map concat]. rewrite HL. reflexivity. }
      apply Forall2_cons; [|exact HF]. split.
      * rewrite HT, tokens_dropWhile_blank. unfold tokens.
        rewrite runs_sep by reflexivity. cbn [runs]. rewrite app_nil_r. reflexivity.
      * rewrite indentation_NL. exact HI.
Qed.

(** X2: [wrap] keeps the indentation of every line across its breaks.  It
    keeps the buffer in front of its last line, and what it writes behind
    that consists of one piece for each of the lines it works on (the last
    line of the buffer joined with the first piece of the text, and the
    further pieces of the text), in the order of these lines.  The piece
    written for a line has exactly the tokens of that line, and every line of
    the piece, the first one and each continuation line that a break
    creates, starts with exactly the spaces and tabs that the line starts
    with. *)
Theorem wrap_keeps_indentation (b text out : bytes) :
  wrap b text = Ok out ->
  exists T Xs,
    out = firstn (lineStart b (length b)) b ++ T
    /\ lines T = concat (map lines Xs)
    /\ Forall2 (fun l X => tokens X = tokens l
                           /\ Forall (fun x => indentation x = indentation l) (lines X))
               (wrapInput b text) Xs.
Proof.
  unfold wrap, wrapInput, lastLine. pose proof (SplitAfterNL_ok text) as Hs.
  destruct (SplitAfterNL text) as [|l0 ls]; [contradiction|].
  apply wrapLines_pieces. apply splitOK_prepend; [|exact Hs].
  apply lineStart_tail_no_NL.
Qed.

Lemma wrap_keeps_indentation_witness :
  wrap (B "x" ++ [NL] ++ B "  ")
       (repeat "a"%char 50 ++ B " " ++ repeat "b"%char 50 ++ [NL] ++ B "    c")
  = Ok (B "x" ++ [NL] ++ B "  " ++ repeat "a"%char 50 ++ [NL]
          ++ B "  " ++ repeat "b"%char 50 ++ [NL] ++ B "    c")
  /\ exists T Xs,
       B "x" ++ [NL] ++ B "  " ++ repeat "a"%char 50 ++ [NL]
         ++ B "  " ++ repeat "b"%char 50 ++ [NL] ++ B "    c"
       = firstn 2 (B "x" ++ [NL] ++ B "  ") ++ T
       /\ lines T = concat (map lines Xs)
       /\ Forall2 (fun l X => tokens X = tokens l
                              /\ Forall (fun x => indentation x = indentation l) (lines X))
                  (wrapInput (B "x" ++ [NL] ++ B "  ")
                     (repeat "a"%char 50 ++ B " " ++ repeat "b"%char 50 ++ [NL]
                        ++ B "    c"))
                  Xs.
Proof.
  split; [reflexivity|].
  apply (wrap_keeps_indentation (B "x" ++ [NL] ++ B "  ")
           (repeat "a"%char 50 ++ B " " ++ repeat "b"%char 50 ++ [NL] ++ B "    c")).
  reflexivity.
Defined.

Lemma wrapLines_short ls :
  forall b, Forall (fun l => length l <= 80) ls ->
  wrapLines ls b = Ok (b ++ concat ls).
Proof.
  induction ls as [|l rest IH]; intros b H.
  - simpl. rewrite app_nil_r. reflexivity.
  - inversion H as [|? ? Hl Hrest]; subst. cbn [wrapLines]. cbv zeta.
    rewrite wrapLoop_eq.
    pose proof (f_equal (@length ascii) (takeWhile_dropWhile is_blank l)) as E.
    rewrite length_app in E.
    destruct (Z.of_nat (length (dropWhile is_blank l))
              >? Target - Z.of_nat (length (takeWhile is_blank l)))%Z eqn:Ec.
    { apply Z.gtb_lt in Ec. unfold Target in Ec. lia. }
    cbn [bind]. rewrite takeWhile_dropWhile. rewrite IH by exact Hrest.
    cbn [concat]. rewrite app_assoc. reflexivity.
Qed.

Lemma wrap_short (b text : bytes) :
  Forall (fun l => length l <= 80) (wrapInput b text) ->
  wrap b text = Ok (b ++ text).
Proof.
  unfold wrap, wrapInput. pose proof (concat_SplitAfterNL text) as Hc.
  pose proof (SplitAfterNL_ok text) as Hs.
  destruct (SplitAfterNL text) as [|l0 ls]; [contradiction|].
  intros H. rewrite wrapLines_short by exact H.
  cbn [concat] in *. rewrite <- app_assoc, Hc, app_assoc.
  unfold lastLine. rewrite firstn_skipn. reflexivity.
Qed.

(** X3: text that fits is appended as it is.  When none of the lines [wrap]
    works on is longer than 80 bytes, its line terminator counted, the result
    is the buffer followed by the text. *)
Theorem wrap_short_appends (b text : bytes) :
  Forall (fun l => length l <= 80) (wrapInput b text) ->
  wrap b text = Ok (b ++ text).
Proof.
  intros H. unfold wrap. unfold wrapInput in H.
  pose proof (concat_SplitAfterNL text) as Hc.
  pose proof (SplitAfterNL_ok text) as Hs.
  destruct (SplitAfterNL text) as [|l0 ls]; [contradiction|].
  rewrite (wrapLines_short _ _ H). f_equal.
  cbn [concat] in *. rewrite <- app_assoc, Hc, app_assoc.
  unfold lastLine. rewrite firstn_skipn. reflexivity.
Qed.

Lemma wrap_short_appends_witness :
  Forall (fun l => length l <= 80)
         (wrapInput (B "a b") (B " c" ++ [NL] ++ B "  d e" ++ [NL]))
  /\ wrap (B "a b") (B " c" ++ [NL] ++ B "  d e" ++ [NL])
     = Ok (B "a b" ++ B " c" ++ [NL] ++ B "  d e" ++ [NL]).
Proof.
  assert (H : Forall (fun l => length l <= 80)
                (wrapInput (B "a b") (B " c" ++ [NL] ++ B "  d e" ++ [NL]))).
  { vm_compute. repeat (apply Forall_cons; [lia|]). apply Forall_nil. }
  split; [exact H|].
  apply (wrap_short_appends (B "a b") (B " c" ++ [NL] ++ B "  d e" ++ [NL]) H).
Defined.

Lemma wrapLoop_deep fuel ind line b :
  80 < length ind -> wrapLoop fuel ind line b = Panic IndexOutOfRange.
Proof.
  intros H. rewrite wrapLoop_eq. unfold Target.
  destruct (Z.of_nat (length line) >? 80 - Z.of_nat (length ind))%Z eqn:Ec.
  - destruct (80 - Z.of_nat (length ind) <? 0)%Z eqn:Ew; [reflexivity|].
    apply Z.ltb_ge in Ew. lia.
  - rewrite Z.gtb_ltb in Ec. apply Z.ltb_ge in Ec. lia.
Qed.

Lemma wrapLoop_total fuel ind :
  length ind <= 80 ->
  forall line b, exists out, wrapLoop fuel ind line b = Ok out.
Proof.
  intros H. induction fuel as [|fuel IH]; intros line b; rewrite wrapLoop_eq;
    unfold Target;
    destruct (Z.of_nat (length line) >? 80 - Z.of_nat (length ind))%Z;
    try (eexists; reflexivity);
    (destruct (80 - Z.of_nat (length ind) <? 0)%Z eqn:Ew;
     [apply Z.ltb_lt in Ew; lia|]);
    destruct (breakPoint line (Z.to_nat (80 - Z.of_nat (length ind))));
    try (eexists; reflexivity).
  apply IH.
Qed.

Lemma wrapLines_panics ls :
  forall b,
  (Forall (fun l => length (indentation l) <= 80) ls ->
   exists out, wrapLines ls b = Ok out)
  /\ (Exists (fun l => 80 < length (indentation l)) ls ->
      wrapLines ls b = Panic IndexOutOfRange).
Proof.
  induction ls as [|l rest IH]; intros b.
  - split; [intros _; eexists; reflexivity|]. intros H. inversion H.
  - cbn [wrapLines]. cbv zeta. split.
    + intros H. inversion H as [|? ? Hl Hrest]; subst.
      destruct (wrapLoop_total (length (dropWhile is_blank l)) (takeWhile is_blank l) Hl
                  (dropWhile is_blank l) b) as (o & ->).
      cbn [bind]. apply IH, Hrest.
    + intros H.
      destruct (Nat.lt_ge_cases 80 (length (indentation l))) as [D|S].
      * unfold indentation in D. rewrite wrapLoop_deep by exact D. reflexivity.
      * destruct (wrapLoop_total (length (dropWhile is_blank l)) (takeWhile is_blank l) S
                    (dropWhile is_blank l) b) as (o & ->).
        cbn [bind]. apply IH. inversion H as [? ? Hd|? ? Hr]; subst; [lia|exact Hr].
Qed.

Lemma Forall_or_Exists_indent (ls : list bytes) :
  Forall (fun l => length (indentation l) <= 80) ls
  \/ Exists (fun l => 80 < length (indentation l)) ls.
Proof.
  induction ls as [|l rest [IH|IH]].
  - left. apply Forall_nil.
  - destruct (Nat.lt_ge_cases 80 (length (indentation l))) as [D|S].
    + right. apply Exists_cons_hd, D.
    + left. apply Forall_cons; assumption.
  - right. apply Exists_cons_tl, IH.
Qed.

(** X4: when [wrap] fails.  [wrap] panics, with an index out of range,
    exactly when one of the lines it works on starts with more than 80 spaces
    and tabs; on every other input it returns. *)
Theorem wrap_panics_iff_deep_indentation (b text : bytes) :
  (wrap b text = Panic IndexOutOfRange
   <-> Exists (fun l => 80 < length (indentation l)) (wrapInput b text))
  /\ ((exists out, wrap b text = Ok out)
      <-> Forall (fun l => length (indentation l) <= 80) (wrapInput b text)).
Proof.
  assert (E : wrap b text = wrapLines (wrapInput b text)
                              (firstn (lineStart b (length b)) b)).
  { unfold wrap, wrapInput, lastLine. pose proof (SplitAfterNL_ok text) as Hs.
    destruct (SplitAfterNL text); [contradiction|reflexivity]. }
  rewrite E.
  destruct (wrapLines_panics (wrapInput b text) (firstn (lineStart b (length b)) b))
    as (HF & HE).
  destruct (Forall_or_Exists_indent (wrapInput b text)) as [F|X].
  - destruct (HF F) as (o & Ho). rewrite Ho. split; split.
    + discriminate.
    + intros X. apply HE in X. congruence.
    + intros _. exact F.
    + intros _. exists o. reflexivity.
  - rewrite (HE X). split; split.
    + intros _. exact X.
    + reflexivity.
    + intros (o & Ho). discriminate.
    + intros F. exfalso. clear - F X. induction X as [l r D|l r _ IH].
      * inversion F; subst. lia.
      * inversion F; subst. auto.
Qed.

(* ================================================================= *)
(** ** [indentNL] *)

Lemma indentation_no_NL (l : bytes) : ~ In NL (indentation l).
Proof. apply Forall_blank_no_NL, takeWhile_Forall. Qed.

Lemma indentation_idem (l : bytes) : indentation (indentation l) = indentation l.
Proof. apply takeWhile_all, takeWhile_Forall. Qed.

(** X5: [indentNL] starts a new line with the indentation of the line it
    ends.  The buffer is kept, the new last line consists of the spaces and
    tabs that the old last line starts with, so the indentation of the last
    line does not change, however often [indentNL] is called. *)
Theorem indentNL_keeps_indentation (b : bytes) :
  firstn (length b) (indentNL b) = b
  /\ length (indentNL b) = length b + 1 + length (indentation (lastLine b))
  /\ lastLine (indentNL b) = indentation (lastLine b)
  /\ indentation (lastLine (indentNL b)) = indentation (lastLine b).
Proof.
  assert (L : lastLine (indentNL b) = indentation (lastLine b)).
  { rewrite indentNL_app. fold (lastLine b). fold (indentation (lastLine b)).
    unfold lastLine at 1. rewrite lineStart_app_NL by apply indentation_no_NL.
    apply skipn_app_NL. }
  repeat split.
  - rewrite indentNL_app. rewrite firstn_app, Nat.sub_diag, firstn_all. simpl.
    apply app_nil_r.
  - rewrite indentNL_app. rewrite length_app. simpl. unfold indentation, lastLine. lia.
  - exact L.
  - rewrite L. apply indentation_idem.
Qed.

(* ================================================================= *)
(** ** [strings.HasPrefix], [strings.Index] and [findAttr] *)

Lemma HasPrefix_app (p r : bytes) : HasPrefix (p ++ r) p = true.
Proof.
  induction p as [|c p IH]; [reflexivity|]. simpl. rewrite Ascii.eqb_refl. exact IH.
Qed.

Lemma HasPrefix_inv (p : bytes) :
  forall s, HasPrefix s p = true -> s = p ++ skipn (length p) s.
Proof.
  induction p as [|c p IH]; intros s H; [reflexivity|].
  destruct s as [|d s]; [discriminate|]. simpl in H.
  apply andb_true_iff in H. destruct H as (E & H).
  apply Ascii.eqb_eq in E. subst d. simpl. f_equal. apply IH, H.
Qed.

Lemma Index_Some (sep : bytes) :
  forall s i, Index s sep = Some i ->
  i <= length s
  /\ HasPrefix (skipn i s) sep = true
  /\ forall k, k < i -> HasPrefix (skipn k s) sep = false.
Proof.
  induction s as [|c s IH]; intros i H.
  - simpl in H. destruct (HasPrefix [] sep) eqn:E; [|discriminate].
    injection H as <-. repeat split; [apply le_n|exact E|]. intros k Hk. lia.
  - cbn [Index] in H. destruct (HasPrefix (c :: s) sep) eqn:E.
    + injection H as <-. repeat split; [apply Nat.le_0_l|exact E|]. intros k Hk. lia.
    + destruct (Index s sep) as [i'|] eqn:Ei; [|discriminate].
      injection H as <-. destruct (IH i' eq_refl) as (L & P & F).
      repeat split; [simpl; lia|exact P|].
      intros [|k] Hk; [exact E|]. apply F. lia.
Qed.

Lemma Index_None (sep : bytes) :
  forall s, Index s sep = None -> forall k, HasPrefix (skipn k s) sep = false.
Proof.
  induction s as [|c s IH]; intros H k.
  - simpl in H. destruct (HasPrefix [] sep) eqn:E; [discriminate|].
    destruct k; exact E.
  - cbn [Index] in H. destruct (HasPrefix (c :: s) sep) eqn:E; [discriminate|].
    destruct (Index s sep) eqn:Ei; [discriminate|].
    destruct k as [|k]; [exact E|]. apply IH. reflexivity.
Qed.

Lemma Index_first (sep : bytes) :
  forall s i, i <= length s -> HasPrefix (skipn i s) sep = true ->
  (forall k, k < i -> HasPrefix (skipn k s) sep = false) ->
  Index s sep = Some i.
Proof.
  intros s i L P F. destruct (Index s sep) as [j|] eqn:E.
  - destruct (Index_Some sep s j E) as (_ & Pj & Fj). f_equal.
    destruct (Nat.lt_trichotomy i j) as [H|[H|H]]; [|symmetry; exact H|].
    + rewrite (Fj i H) in P. discriminate.
    + rewrite (F j H) in Pj. discriminate.
  - rewrite (Index_None sep s E i) in P. discriminate.
Qed.

Lemma Index_byte c (v post : bytes) :
  ~ In c v -> Index (v ++ c :: post) [c] = Some (length v).
Proof.
  induction v as [|d v IH]; intros H.
  - simpl. rewrite Ascii.eqb_refl. reflexivity.
  - cbn [app Index HasPrefix].
    destruct (Ascii.eqb c d) eqn:E.
    + apply Ascii.eqb_eq in E. subst d. exfalso. apply H. left. reflexivity.
    + cbn [andb]. rewrite IH; [reflexivity|]. intros G. apply H. right. exact G.
Qed.

Lemma Index_byte_inv c :
  forall (s : bytes) j, Index s [c] = Some j ->
  s = firstn j s ++ c :: skipn (S j) s /\ ~ In c (firstn j s).
Proof.
  induction s as [|d s IH]; intros j H; [discriminate|].
  cbn [Index HasPrefix] in H. destruct (Ascii.eqb c d) eqn:E.
  - cbn [andb] in H. injection H as <-. apply Ascii.eqb_eq in E. subst d.
    split; [reflexivity|]. simpl. tauto.
  - cbn [andb] in H. destruct (Index s [c]) as [j'|] eqn:Ej; [|discriminate].
    injection H as <-. destruct (IH j' eq_refl) as (S1 & N1).
    split.
    + cbn [firstn skipn app]. f_equal. exact S1.
    + cbn [firstn]. intros [G|G]; [|exact (N1 G)].
      subst d. rewrite Ascii.eqb_refl in E. discriminate.
Qed.

(** X6: reading an attribute back.  When the first [name=] followed by a
    double quote stands behind [pre] in the tag and the value holds no double
    quote, [findAttr] returns the value, whatever follows the closing
    quote. *)
Theorem findAttr_roundtrip (name pre value post : bytes) :
  Index (pre ++ name ++ B "=" ++ [DQ] ++ value ++ [DQ] ++ post)
        (name ++ B "=" ++ [DQ]) = Some (length pre) ->
  ~ In DQ value ->
  findAttr (pre ++ name ++ B "=" ++ [DQ] ++ value ++ [DQ] ++ post) name = value.
Proof.
  intros Hi Hv. unfold findAttr. rewrite Hi.
  replace (pre ++ name ++ B "=" ++ [DQ] ++ value ++ [DQ] ++ post)
    with ((pre ++ name ++ B "=" ++ [DQ]) ++ value ++ DQ :: post)
    by (repeat rewrite <- app_assoc; reflexivity).
  replace (length pre + length name + 2) with (length (pre ++ name ++ B "=" ++ [DQ]))
    by (repeat rewrite length_app; simpl; lia).
  rewrite skipn_length_app. rewrite Index_byte by exact Hv.
  rewrite firstn_app, Nat.sub_diag, firstn_all. simpl. apply app_nil_r.
Qed.

Lemma findAttr_roundtrip_witness :
  findAttr (B "<<var;" ++ B "name" ++ B "=" ++ [DQ] ++ B "title" ++ [DQ]
              ++ (B ";original=" ++ [DQ] ++ B "The Title" ++ [DQ] ++ B ">>"))
           (B "name")
  = B "title".
Proof.
  apply (findAttr_roundtrip (B "name") (B "<<var;") (B "title")
           (B ";original=" ++ [DQ] ++ B "The Title" ++ [DQ] ++ B ">>")).
  - reflexivity.
  - vm_compute. intros H. repeat (destruct H as [H|H]; [discriminate|]). exact H.
Defined.

(** X7: what [findAttr] returns otherwise.  The result never holds a
    double quote; it is empty when the tag has no [name=] followed by a double
    quote, or no double quote behind it; and in every other case it really is
    the quoted text that follows the first [name=] of the tag. *)
Theorem findAttr_sound (tag name : bytes) :
  ~ In DQ (findAttr tag name)
  /\ (Index tag (name ++ B "=" ++ [DQ]) = None -> findAttr tag name = [])
  /\ (forall i, Index tag (name ++ B "=" ++ [DQ]) = Some i ->
      Index (skipn (i + length name + 2) tag) [DQ] = None ->
      findAttr tag name = [])
  /\ (forall i j, Index tag (name ++ B "=" ++ [DQ]) = Some i ->
      Index (skipn (i + length name + 2) tag) [DQ] = Some j ->
      exists post,
        tag = firstn i tag ++ name ++ B "=" ++ [DQ] ++ findAttr tag name ++ [DQ] ++ post).
Proof.
  unfold findAttr. destruct (Index tag (name ++ B "=" ++ [DQ])) as [i|] eqn:Ei.
  2:{ split; [simpl; tauto|]. split; [reflexivity|].
      split; intros; discriminate. }
  destruct (Index (skipn (i + length name + 2) tag) [DQ]) as [j|] eqn:Ej.
  2:{ split; [simpl; tauto|]. split; [discriminate|]. split; [reflexivity|].
      intros i' j' [= <-] H. rewrite Ej in H. discriminate. }
  destruct (Index_byte_inv DQ _ _ Ej) as (S1 & N1).
  repeat split.
  - exact N1.
  - discriminate.
  - intros i' H1 H2. injection H1 as <-. rewrite Ej in H2. discriminate.
  - intros i' j' H1 H2. injection H1 as <-. rewrite Ej in H2. injection H2 as <-.
    destruct (Index_Some _ _ _ Ei) as (_ & P & _).
    apply HasPrefix_inv in P.
    exists (skipn (S j) (skipn (i + length name + 2) tag)).
    rewrite <- (firstn_skipn i tag) at 1. f_equal.
    rewrite P at 1. repeat rewrite <- app_assoc. do 3 f_equal.
    replace (length (name ++ B "=" ++ [DQ])) with (length name + 2)
      by (repeat rewrite length_app; simpl; lia).
    rewrite skipn_skipn. rewrite (Nat.add_comm (length name + 2) i), Nat.add_assoc.
    exact S1.
Qed.

(* ================================================================= *)
(** ** [words] and [wordCount] *)

(** X8: what a word is.  Every word that [words] returns is a non-empty
    run of word characters (ASCII letters, digits, underscore); put together
    the words are the word characters of the text in their order; and the
    count is zero exactly when the text has no word character. *)
Theorem words_characterised (s : bytes) :
  Forall (fun w => w <> [] /\ Forall (fun c => is_word c = true) w) (words s)
  /\ concat (words s) = filter is_word s
  /\ (wordCount s = 0 <-> Forall (fun c => is_word c = false) s).
Proof.
  assert (C : concat (words s) = filter is_word s)
    by (apply (runs_concat_n is_word (length s)), le_n).
  split; [apply (runs_wf_n is_word (length s)), le_n|]. split; [exact C|].
  unfold wordCount. split.
  - intros H. apply length_zero_iff_nil in H. rewrite H in C. simpl in C.
    clear H. induction s as [|c r IH]; [apply Forall_nil|].
    simpl in C. destruct (is_word c) eqn:E; [discriminate|].
    apply Forall_cons; [exact E|]. apply IH. exact C.
  - intros H. unfold words. rewrite <- (app_nil_r s).
    rewrite runs_skip_all by exact H. reflexivity.
Qed.

(** X9: counting words piece by piece.  A character that is no word
    character separates words: the words of a text cut at such a character are
    the words of the two parts, and the counts add up; a non-empty run of word
    characters is one word. *)
Theorem wordCount_additive (a b : bytes) c :
  is_word c = false ->
  words (a ++ c :: b) = words a ++ words b
  /\ wordCount (a ++ c :: b) = wordCount a + wordCount b
  /\ (a <> [] -> Forall (fun x => is_word x = true) a ->
      words (a ++ c :: b) = a :: words b).
Proof.
  intros Hc. unfold wordCount, words.
  assert (E : runs is_word (a ++ c :: b) = runs is_word a ++ runs is_word b)
    by (apply runs_sep, Hc).
  split; [exact E|]. split; [rewrite E; apply length_app|].
  intros Ha Hw. rewrite E. destruct a as [|x a]; [congruence|].
  inversion Hw as [|? ? Hx Hw']; subst.
  rewrite runs_unfold by exact Hx.
  rewrite takeWhile_all, dropWhile_all by exact Hw'. reflexivity.
Qed.

Lemma wordCount_additive_witness :
  words (B "the_end" ++ "."%char :: B " 2nd") = words (B "the_end") ++ words (B " 2nd")
  /\ wordCount (B "the_end" ++ "."%char :: B " 2nd")
     = wordCount (B "the_end") + wordCount (B " 2nd")
  /\ (B "the_end" <> [] -> Forall (fun x => is_word x = true) (B "the_end") ->
      words (B "the_end" ++ "."%char :: B " 2nd") = B "the_end" :: words (B " 2nd")).
Proof.
  apply (wordCount_additive (B "the_end") (B " 2nd") "."%char). reflexivity.
Defined.

(* ================================================================= *)
(** ** The two passes of regular expressions, once more *)

Lemma firstn_takeWhile f (s : bytes) : firstn (length (takeWhile f s)) s = takeWhile f s.
Proof.
  induction s as [|c r IH]; [reflexivity|]. simpl.
  destruct (f c); [simpl; f_equal; exact IH|reflexivity].
Qed.

Lemma filter_none (p : ascii -> bool) (l : bytes) :
  Forall (fun c => p c = false) l -> filter p l = [].
Proof.
  induction 1 as [|c l Hc _ IH]; [reflexivity|]. simpl. rewrite Hc. exact IH.
Qed.

(** A replacement that exchanges characters outside [p] for characters
    outside [p] keeps the characters of [p]. *)
Lemma replaceAll_filter m repl (p : ascii -> bool) :
  (forall s n, m s = Some n -> Forall (fun c => p c = false) (firstn n s)) ->
  Forall (fun c => p c = false) repl ->
  forall n s, length s <= n ->
  filter p (replaceAll m repl 0 s) = filter p s.
Proof.
  intros Hm Hr. induction n as [|n IH]; intros s Hn.
  - destruct s; [reflexivity|simpl in Hn; lia].
  - destruct s as [|c r]; [reflexivity|]. simpl in Hn.
    rewrite replaceAll_cons. destruct (m (c :: r)) as [[|k]|] eqn:E.
    + cbn [filter]. rewrite IH by lia. reflexivity.
    + rewrite filter_app, (filter_none p repl Hr). cbn [app].
      rewrite IH by (rewrite length_skipn; lia).
      apply Hm in E. cbn [firstn] in E.
      rewrite <- (firstn_skipn (S k) (c :: r)) at 1.
      rewrite filter_app. cbn [firstn skipn].
      rewrite (filter_none p _ E). reflexivity.
    + cbn [filter]. rewrite IH by lia. reflexivity.
Qed.

Lemma mts_Some (s : bytes) n :
  matchTrailingSpace s = Some n -> n = length (takeWhile is_blank s).
Proof.
  unfold matchTrailingSpace.
  destruct (takeWhile is_blank s) as [|c l]; [discriminate|].
  destruct (dropWhile is_blank s) as [|d y].
  - intros [= <-]. reflexivity.
  - destruct (Ascii.eqb d NL); [|discriminate]. intros [= <-]. reflexivity.
Qed.

Lemma rstrip_blank (l : bytes) :
  Forall (fun c => is_blank c = true) l -> rstrip l = [].
Proof.
  intros H. unfold rstrip. rewrite dropWhile_all; [reflexivity|].
  apply Forall_rev, H.
Qed.

Lemma rstrip_run (l z : bytes) x :
  is_blank x = false -> rstrip (l ++ x :: z) = l ++ x :: rstrip z.
Proof.
  intros Hx. unfold rstrip. rewrite rev_app_distr. cbn [rev].
  rewrite <- app_assoc. cbn [app].
  rewrite dropWhile_app_stops by exact Hx.
  rewrite rev_app_distr. cbn [rev]. rewrite rev_involutive.
  rewrite <- app_assoc. reflexivity.
Qed.

Lemma strip_lines_eq_n n :
  forall d, length d <= n -> lines (stripTrailing d) = map rstrip (lines d).
Proof.
  induction n as [|n IH]; intros d Hd.
  { destruct d; [reflexivity|simpl in Hd; lia]. }
  pose proof (takeWhile_dropWhile is_blank d) as Ed.
  pose proof (takeWhile_Forall is_blank d) as Hl.
  pose proof (dropWhile_stops is_blank d) as Hy.
  pose proof (Forall_blank_no_NL _ Hl) as HlNL.
  destruct (dropWhile is_blank d) as [|x y] eqn:Ey.
  - rewrite app_nil_r in Ed. rewrite <- Ed.
    rewrite (lines_no_NL _ HlNL). cbn [map]. rewrite rstrip_blank by exact Hl.
    destruct (takeWhile is_blank d) as [|c l]; [reflexivity|].
    unfold stripTrailing. rewrite replaceAll_cons.
    pose proof (mts_run l [] c Hl I) as M. rewrite app_nil_r in M. rewrite M.
    rewrite skipn_all2 by lia. reflexivity.
  - simpl in Hy.
    assert (Ly : length y <= n).
    { rewrite <- Ed in Hd. rewrite length_app in Hd. simpl in Hd. lia. }
    destruct (Ascii.eqb x NL) eqn:Ex.
    + assert (T : stripTrailing (takeWhile is_blank d ++ x :: y) = x :: stripTrailing y).
      { unfold stripTrailing.
        destruct (takeWhile is_blank d) as [|c l].
        - simpl app. rewrite replaceAll_cons, mts_nonblank by exact Hy. reflexivity.
        - rewrite <- app_comm_cons, replaceAll_cons, app_comm_cons.
          rewrite (mts_run l (x :: y) c Hl Hy), Ex.
          rewrite skipn_app, skipn_all2 by lia.
          replace (length l - length l) with 0 by lia.
          change (replaceAll matchTrailingSpace [] 0 (x :: y)
                  = x :: replaceAll matchTrailingSpace [] 0 y).
          rewrite replaceAll_cons, mts_nonblank by exact Hy. reflexivity. }
      rewrite <- Ed, T. apply Ascii.eqb_eq in Ex. subst x.
      rewrite lines_app_NL, (lines_no_NL _ HlNL), map_app. cbn [map].
      rewrite rstrip_blank by exact Hl.
      change (lines (NL :: stripTrailing y)) with ([] :: lines (stripTrailing y)).
      rewrite IH by exact Ly. reflexivity.
    + assert (Ex' : x <> NL) by (apply Ascii.eqb_neq; exact Ex).
      rewrite <- Ed, strip_run by assumption.
      assert (N : ~ In NL (takeWhile is_blank d ++ [x])).
      { rewrite in_app_iff. simpl. intros [G|[G|[]]]; [exact (HlNL G)|exact (Ex' G)]. }
      replace (takeWhile is_blank d ++ x :: stripTrailing y)
        with ((takeWhile is_blank d ++ [x]) ++ stripTrailing y)
        by (rewrite <- app_assoc; reflexivity).
      replace (takeWhile is_blank d ++ x :: y)
        with ((takeWhile is_blank d ++ [x]) ++ y)
        by (rewrite <- app_assoc; reflexivity).
      rewrite (lines_cons (_ ++ stripTrailing y)), (lines_cons (_ ++ y)).
      rewrite !firstLine_app, !restLines_app by exact N.
      pose proof (IH y Ly) as Hy2. rewrite !lines_cons in Hy2.
      cbn [map] in *. injection Hy2 as H1 H2. rewrite H1, H2. f_equal.
      rewrite <- !app_assoc. cbn [app]. rewrite rstrip_run by exact Hy. reflexivity.
Qed.

(** X10: the first pass of the normalizer, [trailingSpaceRE.ReplaceAll],
    removes the spaces and tabs at the end of every line and nothing else:
    the lines of the result are the lines of the text, each without its
    trailing blanks.  A second pass changes nothing. *)
Theorem stripTrailing_strips_each_line (d : bytes) :
  lines (stripTrailing d) = map rstrip (lines d)
  /\ length (lines (stripTrailing d)) = length (lines d)
  /\ stripTrailing (stripTrailing d) = stripTrailing d.
Proof.
  assert (E : lines (stripTrailing d) = map rstrip (lines d))
    by (apply (strip_lines_eq_n (length d)), le_n).
  split; [exact E|]. split; [rewrite E; apply length_map|].
  apply noTrailing_strip, strip_noTrailing.
Qed.

Lemma blankGroups_covers (s : bytes) :
  forall p k n, blankGroups s p = (k, n) ->
  Forall (fun c => inked c = false) (firstn (n - p) s).
Proof.
  induction s as [|c r IH]; intros p k n; cbn [blankGroups].
  - intros _. rewrite firstn_nil. apply Forall_nil.
  - destruct (Ascii.eqb c NL) eqn:Ec.
    + destruct (blankGroups r 0) as [k' n'] eqn:E. intros H.
      injection H as Hk Hn.
      replace (n - p) with (S n') by lia. cbn [firstn].
      apply Forall_cons.
      * unfold inked. rewrite Ec. apply andb_false_r.
      * specialize (IH 0 k' n' E). rewrite Nat.sub_0_r in IH. exact IH.
    + destruct (is_blankish c) eqn:Eb.
      * intros H. specialize (IH (S p) k n H).
        destruct (n - p) as [|q] eqn:Eq; [apply Forall_nil|].
        replace (n - S p) with q in IH by lia. cbn [firstn].
        apply Forall_cons; [|exact IH]. unfold inked. rewrite Eb. reflexivity.
      * intros [= <- <-]. apply Forall_nil.
Qed.

Lemma matchBlank_covers (s : bytes) n :
  matchBlank s = Some n -> Forall (fun c => inked c = false) (firstn n s).
Proof.
  destruct s as [|c r]; [discriminate|]. cbn [matchBlank].
  destruct (Ascii.eqb c NL) eqn:Ec; [|discriminate].
  destruct (blankGroups r 0) as [k m] eqn:E.
  destruct (2 <=? k); [|discriminate]. intros [= <-]. cbn [firstn].
  apply Forall_cons.
  - unfold inked. rewrite Ec. apply andb_false_r.
  - pose proof (blankGroups_covers r 0 k m E) as H. rewrite Nat.sub_0_r in H. exact H.
Qed.

Lemma collapse_keeps_ink (d : bytes) :
  filter inked (collapseBlank d) = filter inked d.
Proof.
  apply (replaceAll_filter matchBlank [NL; NL] inked) with (n := length d).
  - apply matchBlank_covers.
  - repeat (apply Forall_cons; [reflexivity|]). apply Forall_nil.
  - apply le_n.
Qed.

(** X11: the second pass of the normalizer, [blankRE.ReplaceAll].  The
    result never has three newlines in a row; a second pass changes nothing;
    the first line is kept; and the pass removes only newlines and the
    characters of the class of [blankRE] (full stop, comma, double quote,
    space, tab): every other character stays, in its order. *)
Theorem collapseBlank_result (d : bytes) :
  (forall a b, collapseBlank d <> a ++ [NL; NL; NL] ++ b)
  /\ collapseBlank (collapseBlank d) = collapseBlank d
  /\ firstLine (collapseBlank d) = firstLine d
  /\ filter inked (collapseBlank d) = filter inked d.
Proof.
  pose proof (collapse_noMatch d) as N. repeat split.
  - intros a b E. rewrite E in N. apply noMatch_app in N.
    change ([NL; NL; NL] ++ b) with (NL :: NL :: NL :: b) in N.
    destruct N as (M & _). rewrite matchBlank_NL, !groupsAt_NL in M. discriminate.
  - apply replaceAll_noMatch, N.
  - apply (collapse_lines_n (length d)), le_n.
  - apply collapse_keeps_ink.
Qed.

Lemma inked_not_blank (l : bytes) :
  Forall (fun c => is_blank c = true) l -> Forall (fun c => inked c = false) l.
Proof.
  intros H. eapply Forall_impl; [|exact H]. intros c Hc. unfold inked, is_blankish.
  unfold is_blank in Hc. apply orb_true_iff in Hc.
  destruct Hc as [-> | ->]; rewrite ?orb_true_r; reflexivity.
Qed.

Lemma filter_dropWhile_none (p f : ascii -> bool) (s : bytes) :
  (forall c, f c = true -> p c = false) ->
  filter p (dropWhile f s) = filter p s.
Proof.
  intros H. induction s as [|c r IH]; [reflexivity|]. simpl.
  destruct (f c) eqn:E; [|reflexivity]. rewrite (H c E). exact IH.
Qed.

(** X12: the normalizer touches nothing but white space and the
    punctuation of near-blank lines.  Every character of the text that is
    no newline, space, tab, full stop, comma or double quote is in the
    normalized document, and these characters keep their order: the
    normalizer adds no such character and loses none. *)
Theorem normalized_keeps_ink (d : bytes) :
  filter inked (normalized d) = filter inked d.
Proof.
  unfold normalized, normalize. cbn [fst].
  assert (E : forall s, filter inked (ensureNL s) = filter inked s).
  { intros s. destruct (ensureNL_cases s) as [(-> & _)|[(_ & _ & E)|(_ & _ & _ & _ & E)]];
      [reflexivity|rewrite E; reflexivity|].
    rewrite E, filter_app. simpl. apply app_nil_r. }
  rewrite E. rewrite filter_dropWhile_none.
  2:{ intros c Hc. apply Ascii.eqb_eq in Hc. subst c. reflexivity. }
  rewrite collapse_keeps_ink.
  apply (replaceAll_filter matchTrailingSpace [] inked) with (n := length d).
  - intros s n H. apply mts_Some in H. subst n. rewrite firstn_takeWhile.
    apply inked_not_blank, takeWhile_Forall.
  - apply Forall_nil.
  - apply le_n.
Qed.

(* ================================================================= *)
(** ** The scanning loop: positions and failures *)

Lemma Index_fits (s sep : bytes) j :
  Index s sep = Some j -> j + length sep <= length s.
Proof.
  intros H. destruct (Index_Some sep s j H) as (L & P & _).
  apply HasPrefix_inv in P. apply (f_equal (@length ascii)) in P.
  rewrite length_app, length_skipn in P. lia.
Qed.

Lemma step_bounds (t : bytes) (st st' : state) :
  pos st < length t -> start st <= pos st -> step t st = Ok st' ->
  start st' <= pos st' <= length t.
Proof.
  intros Hp Hs. unfold step.
  destruct (structural (skipn (pos st) t)) eqn:Es.
  { destruct (wrap _ _); [|discriminate]. cbn [bind]. intros [= <-]. cbn [pos start].
    pose proof (takeWhile_length (Ascii.eqb (nth (pos st) t "000"%char))
                  (skipn (pos st) t)) as L.
    rewrite length_skipn in L. lia. }
  destruct (tagOpen (skipn (pos st) t)); [|intros [= <-]; cbn [pos start]; lia].
  destruct (wrap _ _) as [b|]; [|discriminate]. cbn [bind].
  destruct (Index _ _) as [j|] eqn:Ej; [|discriminate].
  apply Index_fits in Ej. rewrite length_skipn in Ej. simpl in Ej.
  pose proof (takeWhile_length (Ascii.eqb SP) (skipn (pos st + j + 2) t)) as L.
  rewrite length_skipn in L.
  destruct (bytes_eqb (findAttr _ _) _).
  { destruct (wrap _ _); [|discriminate]. cbn [bind]. intros [= <-]. cbn [pos start]. lia. }
  destruct (bytes_eqb _ _).
  { unfold beginOptional. intros [= <-]. cbn [pos start]. lia. }
  destruct (bytes_eqb _ _).
  { destruct (endOptional _ _); [|discriminate]. cbn [bind]. intros [= <-].
    cbn [pos start]. lia. }
  destruct (HasPrefix _ _); [|discriminate]. intros [= <-]. cbn [pos start]. lia.
Qed.

Lemma reach_bounds (t : bytes) (st : state) :
  reach t st -> start st <= pos st <= length t.
Proof.
  induction 1 as [|st st' _ IH Hp Hs]; [simpl; lia|].
  eapply step_bounds; [exact Hp|apply IH|exact Hs].
Qed.

(** X13: the cursor and the mark of the scanning loop stay in range.  In
    every state that the loop of [templateToLRE] reaches, [start <= i <=
    len(t)], so that the slices [t[start:i]], [t[start:i+1]] (taken while
    [i < len(t)]) and [t[start:]] never leave the template; a tag that is
    closed ends inside the template; and when the loop is left, the cursor
    stands exactly at the end of the template. *)
Theorem loop_positions_in_range (t : bytes) (st : state) :
  reach t st ->
  start st <= pos st <= length t
  /\ (forall j, Index (skipn (pos st) t) (B ">>") = Some j ->
                pos st + j + 2 <= length t)
  /\ (forall st', scan (length t - pos st) t st = Ok st' ->
                  reach t st' /\ pos st' = length t /\ start st' <= length t).
Proof.
  intros R. pose proof (reach_bounds t st R) as Hb. split; [exact Hb|]. split.
  - intros j Hj. apply Index_fits in Hj. rewrite length_skipn in Hj. simpl in Hj. lia.
  - intros st' Hs.
    pose proof (scan_reach _ _ _ _ Hs R) as R'.
    pose proof (reach_bounds t st' R') as Hb'.
    pose proof (scan_fuel _ _ _ _ (le_n _) Hs) as Hf.
    split; [exact R'|]. lia.
Qed.

Lemma loop_positions_in_range_witness :
  start wit_st <= pos wit_st <= length wit_t
  /\ (forall j, Index (skipn (pos wit_st) wit_t) (B ">>") = Some j ->
                pos wit_st + j + 2 <= length wit_t)
  /\ (forall st', scan (length wit_t - pos wit_st) wit_t wit_st = Ok st' ->
                  reach wit_t st' /\ pos st' = length wit_t /\ start st' <= length wit_t).
Proof.
  apply (loop_positions_in_range wit_t wit_st). exact wit_reach.
Defined.

Lemma wrapLoop_panic_kind fuel ind :
  forall line b p, wrapLoop fuel ind line b = Panic p ->
  p = IndexOutOfRange /\ 80 < length ind.
Proof.
  induction fuel as [|fuel IH]; intros line b p; rewrite wrapLoop_eq; unfold Target;
    destruct (Z.of_nat (length line) >? 80 - Z.of_nat (length ind))%Z; try discriminate;
    (destruct (80 - Z.of_nat (length ind) <? 0)%Z eqn:Ew;
     [apply Z.ltb_lt in Ew; intros [= <-]; split; [reflexivity|lia]|]);
    destruct (breakPoint line (Z.to_nat (80 - Z.of_nat (length ind))));
    try discriminate.
  apply IH.
Qed.

Lemma wrapLines_panic_kind ls :
  forall b p, wrapLines ls b = Panic p ->
  p = IndexOutOfRange /\ Exists (fun l => 80 < length (indentation l)) ls.
Proof.
  induction ls as [|l rest IH]; intros b p; [discriminate|].
  cbn [wrapLines]. cbv zeta.
  destruct (wrapLoop _ _ _ _) as [o|q] eqn:E; cbn [bind].
  - intros H. destruct (IH _ _ H) as (-> & X). split; [reflexivity|].
    apply Exists_cons_tl, X.
  - intros [= <-]. destruct (wrapLoop_panic_kind _ _ _ _ _ E) as (-> & D).
    split; [reflexivity|]. apply Exists_cons_hd, D.
Qed.

Lemma wrap_panic_kind (b text : bytes) p :
  wrap b text = Panic p ->
  p = IndexOutOfRange
  /\ Exists (fun l => 80 < length (indentation l)) (wrapInput b text).
Proof.
  unfold wrap, wrapInput, lastLine.
  destruct (SplitAfterNL text); [discriminate|]. apply wrapLines_panic_kind.
Qed.

Lemma wrap_deep (b text : bytes) :
  Exists (fun l => 80 < length (indentation l)) (wrapInput b text) ->
  wrap b text = Panic IndexOutOfRange.
Proof.
  intros X.
  assert (E : wrap b text = wrapLines (wrapInput b text)
                              (firstn (lineStart b (length b)) b)).
  { unfold wrap, wrapInput, lastLine. pose proof (SplitAfterNL_ok text) as Hs.
    destruct (SplitAfterNL text); [contradiction|reflexivity]. }
  rewrite E. apply wrapLines_panics, X.
Qed.

(** The four ways in which an iteration of the loop can panic. *)
Lemma step_panic (t : bytes) (st : state) p :
  reach t st -> pos st < length t -> step t st = Panic p ->
  (exists b text, wrapCall t st b text /\ wrap b text = Panic p)
  \/ (p = BadTemplate
      /\ exists b, structural (skipn (pos st) t) = false
                   /\ tagOpen (skipn (pos st) t) = true
                   /\ wrap (buf st) (slice t (start st) (pos st)) = Ok b
                   /\ Index (skipn (pos st) t) (B ">>") = None)
  \/ (exists b, p = IndexOutOfRange
                /\ atTag t st (B "<<endOptional>>") b /\ optStart st = [])
  \/ (exists b tag, p = BadTag tag
                    /\ atTag t st tag b
                    /\ tag <> B "<<beginOptional>>" /\ tag <> B "<<endOptional>>"
                    /\ HasPrefix tag (B "<<var;") = false).
Proof.
  intros R Hp. unfold step.
  destruct (structural (skipn (pos st) t)) eqn:Es.
  { destruct (wrap _ _) eqn:Ew; [discriminate|]. cbn [bind]. intros [= <-].
    left. eexists _, _. split; [|exact Ew]. left. repeat split; assumption. }
  destruct (tagOpen (skipn (pos st) t)) eqn:Et; [|discriminate].
  destruct (wrap (buf st) (slice t (start st) (pos st))) as [b|q] eqn:Ew; cbn [bind].
  2:{ intros [= <-]. left. eexists _, _. split; [|exact Ew].
      right. left. repeat split; assumption. }
  destruct (Index (skipn (pos st) t) (B ">>")) as [j|] eqn:Ej.
  2:{ intros [= <-]. right. left. split; [reflexivity|]. exists b.
      repeat split; assumption. }
  destruct (bytes_eqb (findAttr (slice t (pos st) (pos st + j + 2)) (B "original"))
              (B "name")) eqn:Ef.
  { destruct (wrap b (B "name")) eqn:Ew2; [discriminate|]. cbn [bind]. intros [= <-].
    left. eexists _, _. split; [|exact Ew2].
    right. right. left. split; [exact Hp|]. split; [exact Es|]. split; [exact Et|].
    split; [exact Ew|]. split; [|reflexivity]. exists j. split; assumption. }
  assert (A : atTag t st (slice t (pos st) (pos st + j + 2)) b).
  { unfold atTag. repeat split; try assumption. exists j. split; [exact Ej|reflexivity]. }
  destruct (bytes_eqb (slice t (pos st) (pos st + j + 2)) (B "<<beginOptional>>")) eqn:E1.
  { unfold beginOptional. discriminate. }
  destruct (bytes_eqb (slice t (pos st) (pos st + j + 2)) (B "<<endOptional>>")) eqn:E2.
  { apply bytes_eqb_eq in E2. rewrite E2 in A.
    unfold endOptional. destruct (rev (optStart st)) as [|s ropt] eqn:Er.
    - cbn [bind]. intros [= <-]. right. right. left. exists b.
      split; [reflexivity|]. split; [exact A|].
      apply (f_equal (@rev nat)) in Er. rewrite rev_involutive in Er. exact Er.
    - destruct (reach_top t st _ b s ropt R A Er) as (N & _).
      assert (L : s < length b) by (apply nth_error_Some; rewrite N; discriminate).
      replace (length b <? s) with false
        by (symmetry; apply Nat.ltb_ge; lia).
      destruct (trivialWords _); discriminate. }
  destruct (HasPrefix (slice t (pos st) (pos st + j + 2)) (B "<<var;")) eqn:E3;
    [discriminate|].
  intros [= <-]. right. right. right. eexists b, _. split; [reflexivity|].
  split; [exact A|]. apply bytes_eqb_neq in E1, E2. repeat split; assumption.
Qed.

Lemma scan_panic fuel (t : bytes) :
  forall st p, reach t st -> scan fuel t st = Panic p ->
  exists st0, reach t st0 /\ pos st0 < length t /\ step t st0 = Panic p.
Proof.
  induction fuel as [|fuel IH]; intros st p R; simpl.
  - destruct (pos st <? length t); discriminate.
  - destruct (pos st <? length t) eqn:E; [|discriminate].
    apply Nat.ltb_lt in E.
    destruct (step t st) as [st1|q] eqn:Es; cbn [bind].
    + apply IH. eapply reach_step; eassumption.
    + intros [= <-]. exists st. repeat split; assumption.
Qed.

(** The result of the loop does not depend on the fuel, once there is
    enough of it. *)
Lemma scan_enough (t : bytes) f1 :
  forall f2 st, length t - pos st <= f1 -> length t - pos st <= f2 ->
  scan f1 t st = scan f2 t st.
Proof.
  induction f1 as [|f1 IH]; intros f2 st H1 H2.
  - rewrite !scan_done by lia. reflexivity.
  - destruct f2 as [|f2]; [rewrite !scan_done by lia; reflexivity|].
    cbn [scan]. destruct (pos st <? length t) eqn:E; [|reflexivity].
    apply Nat.ltb_lt in E.
    destruct (step t st) as [st1|q] eqn:Es; [|reflexivity]. cbn [bind].
    pose proof (step_advances t st st1 E Es). apply IH; lia.
Qed.

(** The loop passes through every reachable state. *)
Lemma reach_scan (t : bytes) (st : state) :
  reach t st -> scan (length t) t init = scan (length t) t st.
Proof.
  induction 1 as [|st st' R IH Hp Hs]; [reflexivity|].
  rewrite IH. rewrite (scan_enough t (length t) (S (length t)) st) by lia.
  cbn [scan]. apply Nat.ltb_lt in Hp as Hp'. rewrite Hp', Hs. cbn [bind].
  reflexivity.
Qed.

Lemma reach_step_panic (t : bytes) (st : state) p :
  reach t st -> pos st < length t -> step t st = Panic p ->
  templateToLRE t = Panic p.
Proof.
  intros R Hp Hs. unfold templateToLRE. rewrite (reach_scan t st R).
  rewrite (scan_enough t (length t) (S (length t)) st) by lia.
  cbn [scan]. apply Nat.ltb_lt in Hp. rewrite Hp, Hs. reflexivity.
Qed.

Lemma reach_final_panic (t : bytes) (st : state) p :
  reach t st -> length t <= pos st ->
  wrap (buf st) (skipn (start st) t) = Panic p ->
  templateToLRE t = Panic p.
Proof.
  intros R Hp W. unfold templateToLRE. rewrite (reach_scan t st R).
  rewrite scan_done by exact Hp. cbn [bind]. rewrite W. reflexivity.
Qed.

Lemma wrapCall_panic (t : bytes) (st : state) (b text : bytes) p :
  reach t st -> wrapCall t st b text -> wrap b text = Panic p ->
  templateToLRE t = Panic p.
Proof.
  intros R [(Hp & Es & -> & ->)|[(Hp & Es & Et & -> & ->)
            |[(Hp & Es & Et & W & (j & Ej & Ef) & ->)|(Hp & -> & ->)]]] P.
  - apply (reach_step_panic t st p R Hp). unfold step. rewrite Es, P. reflexivity.
  - apply (reach_step_panic t st p R Hp). unfold step. rewrite Es, Et, P. reflexivity.
  - apply (reach_step_panic t st p R Hp). unfold step. rewrite Es, Et, W. cbn [bind].
    rewrite Ej, Ef, P. reflexivity.
  - apply (reach_final_panic t st p R Hp P).
Qed.

Lemma atTag_step (t : bytes) (st : state) (tag b : bytes) :
  atTag t st tag b ->
  step t st
  = (let i := pos st + length tag in
     let i := i + length (takeWhile (Ascii.eqb SP) (skipn i t)) in
     if bytes_eqb tag (B "<<beginOptional>>") then
       let (b, opt) := beginOptional b (optStart st) in Ok (mkState i i b opt)
     else if bytes_eqb tag (B "<<endOptional>>") then
       bo <- endOptional b (optStart st) ;; Ok (mkState i i (fst bo) (snd bo))
     else if HasPrefix tag (B "<<var;") then
       Ok (mkState i i
             (variable (findAttr tag (B "name")) (findAttr tag (B "original")) b)
             (optStart st))
     else Panic (BadTag tag)).
Proof.
  intros (_ & Hs & Ho & W & (j & Hj & Ht) & Hn).
  assert (L : length tag = j + 2).
  { apply Index_fits in Hj as F. rewrite length_skipn in F. simpl in F.
    rewrite Ht. unfold slice. rewrite length_firstn, length_skipn. lia. }
  unfold step. rewrite Hs, Ho, W. cbn [bind]. rewrite Hj, <- Ht, Hn.
  cbv zeta. rewrite L. rewrite !Nat.add_assoc. reflexivity.
Qed.

(** X14: why a translation fails.  [templateToLRE] panics in exactly four
    cases, each at a state that the loop reaches: with [bad template] when
    the loop stands in front of a [<<] (not [<<<]), the flush succeeds and no
    [>>] follows; with the tag as message when the loop stands in front of a
    closed tag that is no begin-optional, end-optional or variable tag and
    does not hold the name placeholder; with an index out of range when it
    stands in front of an end-optional tag and the stack of optional blocks
    is empty; and with an index out of range when one of its own calls of
    [wrap] (the flush in front of a doubled token or a tag, the name
    placeholder, the call behind the loop) is given a line that starts with
    more than 80 spaces and tabs.  In each of these cases it does panic.
    With a stack that is not empty the iteration in front of an end-optional
    tag never panics. *)
Theorem translation_failures (t : bytes) p :
  (templateToLRE t = Panic p
   <-> (p = BadTemplate
        /\ exists st b,
             reach t st /\ pos st < length t
             /\ structural (skipn (pos st) t) = false
             /\ tagOpen (skipn (pos st) t) = true
             /\ wrap (buf st) (slice t (start st) (pos st)) = Ok b
             /\ Index (skipn (pos st) t) (B ">>") = None)
       \/ (exists st b tag,
             p = BadTag tag /\ reach t st /\ atTag t st tag b
             /\ tag <> B "<<beginOptional>>" /\ tag <> B "<<endOptional>>"
             /\ HasPrefix tag (B "<<var;") = false)
       \/ (p = IndexOutOfRange
           /\ exists st b, reach t st /\ atTag t st (B "<<endOptional>>") b
                           /\ optStart st = [])
       \/ (p = IndexOutOfRange
           /\ exists st b text,
                reach t st /\ wrapCall t st b text
                /\ Exists (fun l => 80 < length (indentation l)) (wrapInput b text)))
  /\ (forall st b,
        reach t st -> atTag t st (B "<<endOptional>>") b -> optStart st <> [] ->
        exists st', step t st = Ok st').
Proof.
  split; [split|].
  - (* every panic is one of the four *)
    unfold templateToLRE.
    destruct (scan (length t) t init) as [st|q] eqn:Es; cbn [bind].
    + destruct (wrap (buf st) (skipn (start st) t)) as [b|q] eqn:Ew; cbn [bind];
        [discriminate|].
      intros [= <-]. right. right. right.
      destruct (wrap_panic_kind _ _ _ Ew) as (-> & X). split; [reflexivity|].
      exists st, (buf st), (skipn (start st) t).
      split; [apply (scan_reach _ _ _ _ Es), reach_init|]. split; [|exact X].
      right. right. right. split; [|split; reflexivity].
      apply (scan_fuel _ _ _ _ (Nat.le_sub_l _ _) Es).
    + intros [= <-].
      destruct (scan_panic _ _ _ _ (reach_init t) Es) as (st0 & R & Hp & Hs).
      destruct (step_panic t st0 q R Hp Hs)
        as [(b & text & C & H)|[(-> & b & H1 & H2 & H3 & H4)
            |[(b & -> & A & O)|(b & tag & -> & A & H)]]].
      * right. right. right. destruct (wrap_panic_kind _ _ _ H) as (-> & X).
        split; [reflexivity|]. exists st0, b, text. repeat split; assumption.
      * left. split; [reflexivity|]. exists st0, b. repeat split; assumption.
      * right. right. left. split; [reflexivity|]. exists st0, b.
        split; [exact R|]. split; [exact A|exact O].
      * right. left. exists st0, b, tag. split; [reflexivity|]. split; [exact R|].
        split; [exact A|exact H].
  - (* each of the four is a panic *)
    intros [(-> & st & b & R & Hp & Es & Et & W & Hi)
           |[(st & b & tag & -> & R & A & N1 & N2 & N3)
            |[(-> & st & b & R & A & O)|(-> & st & b & text & R & C & X)]]].
    + apply (reach_step_panic t st _ R Hp). unfold step. rewrite Es, Et, W. cbn [bind].
      rewrite Hi. reflexivity.
    + assert (Hp : pos st < length t) by apply A.
      apply (reach_step_panic t st _ R Hp). rewrite (atTag_step t st tag b A). cbv zeta.
      apply bytes_eqb_neq in N1, N2. rewrite N1, N2, N3. reflexivity.
    + assert (Hp : pos st < length t) by apply A.
      apply (reach_step_panic t st _ R Hp). rewrite (atTag_step t st _ b A). cbv zeta.
      change (bytes_eqb (B "<<endOptional>>") (B "<<beginOptional>>")) with false.
      change (bytes_eqb (B "<<endOptional>>") (B "<<endOptional>>")) with true.
      cbv iota. rewrite O. reflexivity.
    + apply (wrapCall_panic t st b text _ R C). apply wrap_deep, X.
  - (* a stack that is not empty *)
    intros st b R A O.
    destruct (rev (optStart st)) as [|s ropt] eqn:Er.
    { exfalso. apply O. apply (f_equal (@rev nat)) in Er.
      rewrite rev_involutive in Er. exact Er. }
    destruct (reach_top t st _ b s ropt R A Er) as (N & _).
    destruct (endOptional_spec b (optStart st) s ropt Er N) as (_ & Ee).
    destruct (step_at_endOptional t st b A) as (i & Hs).
    rewrite Ee in Hs. cbn [bind] in Hs. eexists. exact Hs.
Qed.

Lemma translation_failures_witness :
  templateToLRE (B "a <<beginOptional") = Panic BadTemplate
  /\ ((BadTemplate = BadTemplate
       /\ exists st b,
            reach (B "a <<beginOptional") st /\ pos st < length (B "a <<beginOptional")
            /\ structural (skipn (pos st) (B "a <<beginOptional")) = false
            /\ tagOpen (skipn (pos st) (B "a <<beginOptional")) = true
            /\ wrap (buf st) (slice (B "a <<beginOptional") (start st) (pos st)) = Ok b
            /\ Index (skipn (pos st) (B "a <<beginOptional")) (B ">>") = None)
      \/ (exists st b tag,
            BadTemplate = BadTag tag /\ reach (B "a <<beginOptional") st
            /\ atTag (B "a <<beginOptional") st tag b
            /\ tag <> B "<<beginOptional>>" /\ tag <> B "<<endOptional>>"
            /\ HasPrefix tag (B "<<var;") = false)
      \/ (BadTemplate = IndexOutOfRange
          /\ exists st b, reach (B "a <<beginOptional") st
                          /\ atTag (B "a <<beginOptional") st (B "<<endOptional>>") b
                          /\ optStart st = [])
      \/ (BadTemplate = IndexOutOfRange
          /\ exists st b text,
               reach (B "a <<beginOptional") st
               /\ wrapCall (B "a <<beginOptional") st b text
               /\ Exists (fun l => 80 < length (indentation l)) (wrapInput b text))).
Proof.
  split; [reflexivity|].
  apply (proj1 (proj1 (translation_failures (B "a <<beginOptional") BadTemplate))).
  reflexivity.
Defined.

(* ================================================================= *)
(** ** An optional block that is never closed *)

Lemma noTrailing_solid_app (p r : bytes) :
  Forall (fun c => is_blank c = false) p -> noTrailing r -> noTrailing (p ++ r).
Proof.
  intros H Hr. induction H as [|c p Hc _ IH]; [exact Hr|].
  simpl. split; [rewrite Hc; discriminate|exact IH].
Qed.

Lemma noMatch_blank_app (p r : bytes) :
  Forall (fun c => c <> NL) p -> noMatch matchBlank r -> noMatch matchBlank (p ++ r).
Proof.
  intros H Hr. induction H as [|c p Hc _ IH]; [exact Hr|].
  simpl app. split; [|exact IH]. apply matchBlank_not_NL, Ascii.eqb_neq, Hc.
Qed.

Lemma Index_absent c (sep s : bytes) : ~ In c s -> Index s (c :: sep) = None.
Proof.
  induction s as [|d s IH]; intros H; [reflexivity|].
  cbn [Index HasPrefix].
  destruct (Ascii.eqb c d) eqn:E.
  - apply Ascii.eqb_eq in E. subst d. exfalso. apply H. left. reflexivity.
  - cbn [andb]. rewrite IH; [reflexivity|]. intros G. apply H. right. exact G.
Qed.

Lemma plain_no_slash (c : ascii) : plain c = true -> c <> "/"%char.
Proof. intros H ->. discriminate. Qed.

Lemma plain_head (q : bytes) :
  Forall (fun x => plain x = true) q -> q <> [] ->
  exists x y, q = x :: y /\ plain x = true.
Proof.
  intros H N. destruct q as [|x y]; [congruence|]. exists x, y.
  split; [reflexivity|]. inversion H; assumption.
Qed.

(** X15: an optional block that is never closed is no error.  For plain
    texts [p] and [q] (no structural character, no tag, no white space; [q]
    of at most 77 bytes) the template [p<<beginOptional>>q] is translated
    without panic and without warning: the document is [p], and on the next
    line the opening marker followed by [q], with no closing marker. *)
Theorem unclosed_optional_accepted (p q : bytes) :
  Forall (fun x => plain x = true) p -> Forall (fun x => plain x = true) q ->
  p <> [] -> q <> [] -> length q <= 77 ->
  templateToLRE (p ++ B "<<beginOptional>>" ++ q)
  = Ok (p ++ [NL] ++ B "(( " ++ q ++ [NL], None).
Proof.
  intros Hp Hq Np Nq Lq.
  set (t := p ++ B "<<beginOptional>>" ++ q).
  assert (Lt : length t = length p + 17 + length q).
  { unfold t. rewrite !length_app. simpl. lia. }
  assert (Sp : Forall (fun x => is_blank x = false /\ x <> NL) p)
    by (eapply Forall_impl; [|exact Hp]; apply plain_solid).
  assert (Sq : Forall (fun x => is_blank x = false /\ x <> NL) q)
    by (eapply Forall_impl; [|exact Hq]; apply plain_solid).
  destruct (plain_head q Hq Nq) as (x & y & Eq & Hx).
  destruct (plain_solid x Hx) as (Bx & Nx).
  unfold templateToLRE. fold t. unfold init.
  rewrite (scan_plain t p [] (B "<<beginOptional>>" ++ q) (length t) 0 0 [] []
             eq_refl eq_refl Hp) by lia.
  cbn [plus]. replace (length t - length p) with (S (16 + length q)) by lia.
  cbn [scan pos].
  replace (length p <? length t) with true by (symmetry; apply Nat.ltb_lt; lia).
  assert (Es : skipn (length p) t = B "<<beginOptional>>" ++ q)
    by (unfold t; apply skipn_length_app).
  assert (St : step t (mkState (length p) 0 [] [])
               = Ok (mkState (length p + 17) (length p + 17)
                       (p ++ [NL] ++ B "(( ") [length p])).
  { unfold step. cbn [pos start buf optStart]. rewrite Es.
    change (structural (B "<<beginOptional>>" ++ q)) with false.
    change (tagOpen (B "<<beginOptional>>" ++ q)) with true. cbv iota.
    assert (Sl : slice t 0 (length p) = p).
    { unfold slice, t. cbn [skipn]. rewrite Nat.sub_0_r.
      rewrite firstn_app, Nat.sub_diag, firstn_all. simpl. apply app_nil_r. }
    rewrite Sl. rewrite (wrap_solid [] p) by exact Sp. cbn [bind app].
    change (Index (B "<<beginOptional>>" ++ q) (B ">>")) with (Some 15). cbv iota.
    assert (Tg : slice t (length p) (length p + 15 + 2) = B "<<beginOptional>>").
    { unfold slice. rewrite Es.
      replace (length p + 15 + 2 - length p) with 17 by lia. reflexivity. }
    rewrite Tg.
    change (bytes_eqb (findAttr (B "<<beginOptional>>") (B "original")) (B "name"))
      with false. cbv iota.
    change (bytes_eqb (B "<<beginOptional>>") (B "<<beginOptional>>")) with true.
    cbv iota.
    assert (Sk : skipn (length p + 15 + 2) t = q).
    { unfold t. rewrite app_assoc.
      replace (length p + 15 + 2) with (length (p ++ B "<<beginOptional>>"))
        by (rewrite length_app; simpl; lia).
      apply skipn_length_app. }
    rewrite Sk, Eq. cbn [takeWhile].
    replace (Ascii.eqb SP x) with false.
    2:{ symmetry. apply Ascii.eqb_neq. intros <-. discriminate. }
    cbn [length]. rewrite Nat.add_0_r.
    unfold beginOptional. rewrite indentNL_app.
    rewrite lineStart_none.
    2:{ intros G. rewrite Forall_forall in Sp. apply Sp in G. tauto. }
    cbn [skipn]. rewrite takeWhile_stops.
    2:{ destruct Sp as [|? ? [Hb _] _]; simpl; auto. }
    cbn [length app]. rewrite <- app_assoc. cbn [app].
    replace (length p + 15 + 2) with (length p + 17) by lia. reflexivity. }
  rewrite St. cbn [bind].
  rewrite (scan_plain t q (p ++ B "<<beginOptional>>") [] (16 + length q)
             (length p + 17) (length p + 17) (p ++ [NL] ++ B "(( ") [length p]).
  2:{ unfold t. rewrite app_nil_r, <- app_assoc. reflexivity. }
  2:{ rewrite length_app. reflexivity. }
  2:{ exact Hq. }
  2:{ lia. }
  rewrite scan_done by (cbn [pos]; lia).
  cbn [bind buf start].
  replace (skipn (length p + 17) t) with q.
  2:{ unfold t. rewrite app_assoc.
      replace (length p + 17) with (length (p ++ B "<<beginOptional>>"))
        by (rewrite length_app; reflexivity).
      rewrite skipn_length_app. reflexivity. }
  assert (NLq : ~ In NL q).
  { intros G. rewrite Forall_forall in Sq. apply Sq in G. tauto. }
  assert (NLm : ~ In NL (B "(( " ++ q)).
  { rewrite in_app_iff. intros [G|G]; [|exact (NLq G)].
    simpl in G. repeat (destruct G as [G|G]; [discriminate|]). exact G. }
  rewrite wrap_short.
  2:{ unfold wrapInput, lastLine. rewrite SplitAfterNL_no_NL by exact NLq.
      replace (p ++ [NL] ++ B "(( ") with (p ++ NL :: B "(( ") by reflexivity.
      rewrite lineStart_app_NL.
      2:{ simpl. intros G. repeat (destruct G as [G|G]; [discriminate|]). exact G. }
      rewrite skipn_app_NL.
      apply Forall_cons; [|apply Forall_nil]. rewrite length_app. simpl. lia. }
  cbn [bind]. f_equal.
  set (data := (p ++ [NL] ++ B "(( ") ++ q).
  assert (Ed : data = p ++ NL :: "("%char :: "("%char :: SP :: x :: y).
  { unfold data. rewrite Eq. repeat rewrite <- app_assoc. reflexivity. }
  assert (Nt : noTrailing data).
  { rewrite Ed. apply noTrailing_solid_app.
    { eapply Forall_impl; [|exact Sp]. cbv beta. tauto. }
    split; [discriminate|]. split; [discriminate|]. split; [discriminate|].
    split; [intros _; exists x, y; split; [reflexivity|exact Nx]|].
    rewrite <- Eq. rewrite <- (app_nil_r q). apply noTrailing_solid_app; [|exact I].
    eapply Forall_impl; [|exact Sq]. cbv beta. tauto. }
  assert (Nm : noMatch matchBlank data).
  { rewrite Ed. apply noMatch_blank_app.
    { eapply Forall_impl; [|exact Sp]. cbv beta. tauto. }
    split; [rewrite matchBlank_NL, groupsAt_other by reflexivity; reflexivity|].
    change (noMatch matchBlank (["("%char; "("%char; SP] ++ x :: y)).
    apply noMatch_blank_app.
    { repeat (apply Forall_cons; [discriminate|]). apply Forall_nil. }
    rewrite <- Eq. rewrite <- (app_nil_r q). apply noMatch_blank_app; [|exact I].
    eapply Forall_impl; [|exact Sq]. cbv beta. tauto. }
  unfold normalize. rewrite (noTrailing_strip data Nt).
  unfold collapseBlank. rewrite (replaceAll_noMatch _ _ data Nm).
  f_equal.
  - assert (Sd : stops (Ascii.eqb NL) data).
    { unfold data. destruct Sp as [|c p' [_ Hc] _]; [congruence|].
      cbn [app stops]. apply Ascii.eqb_neq. congruence. }
    rewrite (dropWhile_id _ data Sd).
    destruct (ensureNL_cases data) as [[E _]|[(body & E & _)|(body & c & E & Hc & ->)]].
    + exfalso. unfold data in E. destruct p; [congruence|discriminate].
    + exfalso. unfold data in E.
      destruct (exists_last Nq) as (q' & z & Ez). rewrite Ez in E.
      rewrite app_assoc in E. apply app_last_inj in E. destruct E as (_ & E).
      subst z. apply NLq. rewrite Ez. apply in_or_app. right. left. reflexivity.
    + unfold data. repeat rewrite <- app_assoc. reflexivity.
  - unfold copyrightWarning.
    change (B "//**Copyright**//") with ("/"%char :: B "/**Copyright**//").
    rewrite (Index_absent "/"%char (B "/**Copyright**//") data); [reflexivity|].
    unfold data. rewrite !in_app_iff.
    assert (Sl : forall l, Forall (fun x => plain x = true) l -> ~ In "/"%char l).
    { intros l Hl G. rewrite Forall_forall in Hl. apply Hl in G. discriminate. }
    intros [[G|[G|G]]|G].
    + exact (Sl p Hp G).
    + simpl in G. destruct G as [G|[]]. discriminate.
    + simpl in G. repeat (destruct G as [G|G]; [discriminate|]). exact G.
    + exact (Sl q Hq G).
Qed.

Lemma unclosed_optional_accepted_witness :
  templateToLRE (B "Licensed" ++ B "<<beginOptional>>" ++ B "freely")
  = Ok (B "Licensed" ++ [NL] ++ B "(( " ++ B "freely" ++ [NL], None).
Proof.
  apply (unclosed_optional_accepted (B "Licensed") (B "freely")).
  - repeat (apply Forall_cons; [reflexivity|]). apply Forall_nil.
  - repeat (apply Forall_cons; [reflexivity|]). apply Forall_nil.
  - discriminate.
  - discriminate.
  - simpl. lia.
Defined.

(* ================================================================= *)
(** ** [strings.Fields] and [fieldMap] *)

Lemma spaceRune_fieldByte c (r : bytes) : fieldByte c = true -> spaceRune (c :: r) = None.
Proof.
  destruct c as [[] [] [] [] [] [] [] []]; intros H; try discriminate H; reflexivity.
Qed.

Lemma spaceRune_asciiSpace c (r : bytes) : asciiSpace c = true -> spaceRune (c :: r) = Some 1.
Proof. intros H. unfold spaceRune. rewrite H. reflexivity. Qed.

Lemma spaceRune_not_space c (r : bytes) :
  (forall n, spaceRune (c :: r) <> Some (S n)) -> asciiSpace c = false.
Proof.
  intros H. destruct (asciiSpace c) eqn:E; [|reflexivity].
  exfalso. apply (H 0). apply spaceRune_asciiSpace, E.
Qed.

Lemma fieldsFrom_word (w : bytes) :
  forall cur rest, Forall (fun c => fieldByte c = true) w ->
  fieldsFrom 0 cur (w ++ rest) = fieldsFrom 0 (cur ++ w) rest.
Proof.
  induction w as [|c w IH]; intros cur rest H.
  - rewrite app_nil_r. reflexivity.
  - inversion H as [|? ? Hc Hw]; subst.
    cbn [app fieldsFrom]. rewrite spaceRune_fieldByte by exact Hc.
    rewrite IH by exact Hw. rewrite <- app_assoc. reflexivity.
Qed.

Lemma fieldsFrom_space c (r cur : bytes) :
  asciiSpace c = true -> fieldsFrom 0 cur (c :: r) = flush cur (fieldsFrom 0 [] r).
Proof.
  intros H. cbn [fieldsFrom]. rewrite spaceRune_asciiSpace by exact H. reflexivity.
Qed.

(** X16: [strings.Fields] on identifiers.  White space in front is
    ignored; a non-empty run of ASCII bytes that are no white space is one
    field, whether a white-space byte or the end of the text follows it; the
    fields come in the order of the text. *)
Theorem Fields_ascii :
  Fields [] = []
  /\ (forall c s, asciiSpace c = true -> Fields (c :: s) = Fields s)
  /\ (forall w c s, w <> [] -> Forall (fun x => fieldByte x = true) w ->
                    asciiSpace c = true -> Fields (w ++ c :: s) = w :: Fields s)
  /\ (forall w, w <> [] -> Forall (fun x => fieldByte x = true) w -> Fields w = [w]).
Proof.
  unfold Fields. repeat split.
  - intros c s H. rewrite fieldsFrom_space by exact H. reflexivity.
  - intros w c s N H Hc. rewrite fieldsFrom_word by exact H.
    rewrite fieldsFrom_space by exact Hc. destruct w; [congruence|reflexivity].
  - intros w N H. rewrite <- (app_nil_r w) at 1. rewrite fieldsFrom_word by exact H.
    destruct w; [congruence|reflexivity].
Qed.

Lemma fieldsFrom_wf (s : bytes) :
  forall k cur, Forall (fun c => asciiSpace c = false) cur ->
  Forall (fun f => f <> [] /\ Forall (fun c => asciiSpace c = false) f)
         (fieldsFrom k cur s).
Proof.
  assert (F : forall cur rest,
             Forall (fun c => asciiSpace c = false) cur ->
             Forall (fun f => f <> [] /\ Forall (fun c => asciiSpace c = false) f) rest ->
             Forall (fun f => f <> [] /\ Forall (fun c => asciiSpace c = false) f)
                    (flush cur rest)).
  { intros cur rest Hc Hr. destruct cur; [exact Hr|]. simpl.
    apply Forall_cons; [|exact Hr]. split; [discriminate|exact Hc]. }
  induction s as [|c r IH]; intros k cur Hc.
  - apply F; [exact Hc|apply Forall_nil].
  - cbn [fieldsFrom]. destruct k as [|k]; [|apply IH, Hc].
    destruct (spaceRune (c :: r)) as [[|n]|] eqn:E.
    + apply IH. apply Forall_app. split; [exact Hc|].
      apply Forall_cons; [|apply Forall_nil].
      apply (spaceRune_not_space c r). intros n. rewrite E. discriminate.
    + apply F; [exact Hc|]. apply IH, Forall_nil.
    + apply IH. apply Forall_app. split; [exact Hc|].
      apply Forall_cons; [|apply Forall_nil].
      apply (spaceRune_not_space c r). intros n. rewrite E. discriminate.
Qed.

Lemma mapGet_fold (l : list bytes) :
  forall m k,
  mapGet (fold_left (fun m f => mapSet m f true) l m) k = true
  <-> In k l \/ mapGet m k = true.
Proof.
  induction l as [|f l IH]; intros m k; cbn [fold_left].
  - simpl. tauto.
  - rewrite IH. unfold mapSet, mapGet at 1. cbn [find fst snd].
    destruct (bytes_eqb f k) eqn:E.
    + apply bytes_eqb_eq in E. subst f. simpl. tauto.
    + apply bytes_eqb_neq in E. fold (mapGet m k). simpl. tauto.
Qed.

Lemma fieldMap_spec (s k : bytes) : mapGet (fieldMap s) k = true <-> In k (Fields s).
Proof.
  unfold fieldMap. rewrite mapGet_fold. unfold mapGet. simpl.
  split; [intros [H|H]; [exact H|discriminate]|tauto].
Qed.

(** X17: the keys of [fieldMap].  A key reads as [true] exactly when it
    is one of the fields of the text, and as [false] otherwise; in
    particular the empty key and a key with an ASCII white-space byte are
    never in the map. *)
Theorem fieldMap_lookup (s k : bytes) :
  (mapGet (fieldMap s) k = true <-> In k (Fields s))
  /\ (mapGet (fieldMap s) k = false <-> ~ In k (Fields s))
  /\ (k = [] \/ Exists (fun c => asciiSpace c = true) k -> mapGet (fieldMap s) k = false).
Proof.
  pose proof (fieldMap_spec s k) as H. split; [exact H|]. split.
  - destruct (mapGet (fieldMap s) k); split.
    + discriminate.
    + intros N. exfalso. apply N, H. reflexivity.
    + intros _ G. apply H in G. discriminate.
    + reflexivity.
  - intros Hk. destruct (mapGet (fieldMap s) k) eqn:E; [|reflexivity].
    exfalso. apply (fieldMap_spec s k) in E.
    pose proof (fieldsFrom_wf s 0 [] (Forall_nil _)) as W.
    rewrite Forall_forall in W. destruct (W k E) as (N & A).
    destruct Hk as [->|X]; [congruence|].
    apply Exists_exists in X. destruct X as (c & Hin & Hc).
    rewrite Forall_forall in A. rewrite (A c Hin) in Hc. discriminate.
Qed.

Lemma exclude_fields : Fields excludeText = map B excludeIds.
Proof. vm_compute. reflexivity. Qed.

Lemma exclude_spec (id : bytes) : mapGet exclude id = true <-> In id (map B excludeIds).
Proof. unfold exclude. rewrite fieldMap_spec, exclude_fields. reflexivity. Qed.

(* ================================================================= *)
(** ** The command [convert] *)

Lemma writes_emit e (r : run) :
  writes (emit e r)
  = writes r ++ match e with WriteFile p d => [(p, d)] | _ => [] end.
Proof.
  unfold writes, emit. cbn [trace]. rewrite flat_map_app. cbn [flat_map].
  rewrite app_nil_r. reflexivity.
Qed.

Lemma writes_failWith e (r : run) :
  writes (failWith e r)
  = writes r ++ match e with WriteFile p d => [(p, d)] | _ => [] end.
Proof.
  unfold writes, failWith. cbn [trace]. rewrite flat_map_app. cbn [flat_map].
  rewrite app_nil_r. reflexivity.
Qed.

Lemma exit_emit e (r : run) : exitStatus (emit e r) = exitStatus r.
Proof. reflexivity. Qed.

Lemma jsonPath_bare (file : bytes) :
  HasSuffix file (B ".json") = false ->
  Index (jsonPath file) (B "json/details") = Some 6
  /\ firstn 6 (jsonPath file) = B "_spdx/".
Proof. intros H. unfold jsonPath. rewrite H. split; reflexivity. Qed.

(** X18: when [convert] crashes.  [convert] panics exactly when the file
    was read and parsed, the license is not deprecated and the translation of
    its template panics, with the panic of the translation: the exclusion
    table and an existing target are looked at only after the translation,
    so they do not prevent the panic; a deprecated license never causes
    one. *)
Theorem convert_panics_iff (unmarshal : bytes -> option spdx) (force isAll : bool)
        (file : bytes) (a : answers) (r : run) p :
  convert unmarshal force isAll file a r = Panic p
  <-> exists data info,
        jsonFile a = Some data /\ unmarshal data = Some info
        /\ IsDeprecatedLicenseID info = false
        /\ templateToLRE (StandardLicenseTemplate info) = Panic p.
Proof.
  unfold convert. cbv zeta. split.
  - destruct (jsonFile a) as [data|]; [|discriminate].
    destruct (unmarshal data) as [info|] eqn:Eu; [|discriminate].
    destruct (IsDeprecatedLicenseID info) eqn:Ed; [discriminate|].
    destruct (templateToLRE (StandardLicenseTemplate info)) as [lre|q] eqn:Et; cbn [bind].
    + destruct (mapGet exclude (LicenseID info)); [discriminate|].
      destruct (targetStat a && negb force); [discriminate|].
      destruct (negb (targetWritten a)); discriminate.
    + intros [= <-]. exists data, info. repeat split; assumption.
  - intros (data & info & -> & -> & -> & ->). reflexivity.
Qed.

(** X19: what [convert] leaves alone.  For a license that is deprecated,
    or whose identifier is in the exclusion table, or whose target file
    exists while [-f] is not given, [convert] writes no file and does not
    touch the exit status (provided, for the last two, that the translation
    of the template does not panic). *)
Theorem convert_skips (unmarshal : bytes -> option spdx) (force isAll : bool)
        (file : bytes) (a : answers) (r : run) (data : bytes) (info : spdx) :
  jsonFile a = Some data -> unmarshal data = Some info ->
  IsDeprecatedLicenseID info = true
  \/ ((exists lre, templateToLRE (StandardLicenseTemplate info) = Ok lre)
      /\ (mapGet exclude (LicenseID info) = true
          \/ (targetStat a = true /\ force = false))) ->
  exists r', convert unmarshal force isAll file a r = Ok r'
             /\ writes r' = writes r /\ exitStatus r' = exitStatus r.
Proof.
  intros Hj Hu H. unfold convert. cbv zeta. rewrite Hj, Hu.
  destruct H as [-> | ((lre & ->) & H)].
  - eexists. split; [reflexivity|].
    destruct isAll; rewrite ?writes_emit, ?app_nil_r; split; reflexivity.
  - destruct (IsDeprecatedLicenseID info).
    { eexists. split; [reflexivity|].
      destruct isAll; rewrite ?writes_emit, ?app_nil_r; split; reflexivity. }
    cbn [bind].
    assert (W : forall r0 : run,
               writes (match snd lre with
                       | Some cut => emit (Warning (jsonPath file) cut) r0
                       | None => r0
                       end) = writes r0
               /\ exitStatus (match snd lre with
                              | Some cut => emit (Warning (jsonPath file) cut) r0
                              | None => r0
                              end) = exitStatus r0).
    { intros r0. destruct (snd lre); [|split; reflexivity].
      rewrite writes_emit, app_nil_r. split; reflexivity. }
    destruct (mapGet exclude (LicenseID info)) eqn:Ex.
    + eexists. split; [reflexivity|]. destruct (W (emit (ReadFile (jsonPath file)) r)) as (-> & ->).
      rewrite writes_emit, app_nil_r. split; reflexivity.
    + destruct H as [H|(-> & ->)]; [discriminate|]. cbn [andb negb].
      eexists. split; [reflexivity|]. rewrite writes_emit, app_nil_r, exit_emit.
      destruct (W (emit (ReadFile (jsonPath file)) r)) as (-> & ->).
      rewrite writes_emit, app_nil_r. split; reflexivity.
Qed.

Lemma convert_skips_witness :
  exists r', convert (fun _ => Some excludedInfo) false false (B "MIT") sampleAnswers
               (mkRun [] 0) = Ok r'
             /\ writes r' = writes (mkRun [] 0) /\ exitStatus r' = exitStatus (mkRun [] 0).
Proof.
  apply (convert_skips (fun _ => Some excludedInfo) false false (B "MIT") sampleAnswers
           (mkRun [] 0) (B "{}") excludedInfo).
  - reflexivity.
  - reflexivity.
  - right. split.
    + eexists. vm_compute. reflexivity.
    + left. vm_compute. reflexivity.
Defined.

Lemma copyText_writes (file id : bytes) (a : answers) (r : run) :
  writes (copyText file id a r) = writes r
  \/ exists text,
       textFile a = Some text
       /\ (writes (copyText file id a r) = writes r ++ [(testTextPath id, text)]
           \/ (textWritten a = true /\ t1Stat a = false
               /\ writes (copyText file id a r)
                  = writes r ++ [(testTextPath id, text); (t1Path id, t1Data id text)])).
Proof.
  unfold copyText.
  destruct (Index file (B "json/details")) as [i|].
  2:{ left. rewrite writes_failWith, app_nil_r. reflexivity. }
  cbv zeta. destruct (textFile a) as [text|].
  2:{ left. rewrite writes_failWith, writes_emit, !app_nil_r. reflexivity. }
  right. exists text. split; [reflexivity|].
  destruct (textWritten a); cbn [negb].
  2:{ left. rewrite writes_failWith, !writes_emit, !app_nil_r. reflexivity. }
  destruct (t1Stat a).
  { left. rewrite !writes_emit, !app_nil_r. reflexivity. }
  right. split; [reflexivity|]. split; [reflexivity|].
  destruct (t1Written a); cbn [negb];
    rewrite ?writes_failWith, !writes_emit, ?app_nil_r, <- ?app_assoc; reflexivity.
Qed.

(** X20: everything that [convert] writes.  A run of [convert] writes
    nothing at all, or the license was read and parsed, is not deprecated and
    not in the exclusion table, its template was translated, the target did
    not exist or [-f] was given, and the run writes, in this order: the
    target [<id>.lre] with the header followed by the translation; then, if
    that succeeded and the license text could be read, the text to
    [../testdata/licenses/<id>.txt]; then, if that succeeded and no test
    script exists, the script [../testdata/<id>.t1].  An existing test
    script is never overwritten, with or without [-f]. *)
Theorem convert_writes_only (unmarshal : bytes -> option spdx) (force isAll : bool)
        (file : bytes) (a : answers) (r r' : run) :
  convert unmarshal force isAll file a r = Ok r' ->
  writes r' = writes r
  \/ exists data info body w rest,
       jsonFile a = Some data /\ unmarshal data = Some info
       /\ IsDeprecatedLicenseID info = false
       /\ templateToLRE (StandardLicenseTemplate info) = Ok (body, w)
       /\ mapGet exclude (LicenseID info) = false
       /\ (targetStat a = false \/ force = true)
       /\ writes r' = writes r
                        ++ (targetPath (LicenseID info), header info ++ body) :: rest
       /\ (rest = []
           \/ exists text,
                targetWritten a = true /\ textFile a = Some text
                /\ (rest = [(testTextPath (LicenseID info), text)]
                    \/ (textWritten a = true /\ t1Stat a = false
                        /\ rest = [(testTextPath (LicenseID info), text);
                                   (t1Path (LicenseID info),
                                    t1Data (LicenseID info) text)]))).
Proof.
  unfold convert. cbv zeta.
  destruct (jsonFile a) as [data|] eqn:Ej.
  2:{ intros [= <-]. left. rewrite writes_failWith, writes_emit, !app_nil_r. reflexivity. }
  destruct (unmarshal data) as [info|] eqn:Eu.
  2:{ intros [= <-]. left. rewrite writes_failWith, writes_emit, !app_nil_r. reflexivity. }
  destruct (IsDeprecatedLicenseID info) eqn:Ed.
  { intros [= <-]. left. destruct isAll; rewrite ?writes_emit, ?app_nil_r; reflexivity. }
  destruct (templateToLRE (StandardLicenseTemplate info)) as [[body w]|q] eqn:Et;
    cbn [bind fst snd]; [|discriminate].
  set (r1 := match w with
             | Some cut => emit (Warning (jsonPath file) cut)
                             (emit (ReadFile (jsonPath file)) r)
             | None => emit (ReadFile (jsonPath file)) r
             end).
  assert (W1 : writes r1 = writes r).
  { unfold r1. destruct w; rewrite ?writes_emit, ?app_nil_r; reflexivity. }
  destruct (mapGet exclude (LicenseID info)) eqn:Ex.
  { intros [= <-]. left. exact W1. }
  destruct (targetStat a && negb force) eqn:Ef.
  { intros [= <-]. left. rewrite writes_emit, app_nil_r. exact W1. }
  assert (Hf : targetStat a = false \/ force = true).
  { destruct (targetStat a); [|left; reflexivity]. destruct force; [right; reflexivity|].
    discriminate. }
  set (r2 := emit (WriteFile (targetPath (LicenseID info)) (header info ++ body))
               (emit (Stat (targetPath (LicenseID info))) r1)).
  assert (W2 : writes r2
               = writes r ++ [(targetPath (LicenseID info), header info ++ body)]).
  { unfold r2. rewrite !writes_emit, app_nil_r, W1. reflexivity. }
  destruct (targetWritten a) eqn:Ew; cbn [negb]; intros [= <-]; right.
  - destruct (copyText_writes (jsonPath file) (LicenseID info) a r2)
      as [C|(text & Ht & [C|(C1 & C2 & C)])].
    + exists data, info, body, w, []. repeat split; try assumption.
      * rewrite C. exact W2.
      * left. reflexivity.
    + exists data, info, body, w, [(testTextPath (LicenseID info), text)].
      repeat split; try assumption.
      * rewrite C, W2, <- app_assoc. reflexivity.
      * right. exists text. repeat split; try assumption. left. reflexivity.
    + exists data, info, body, w,
        [(testTextPath (LicenseID info), text);
         (t1Path (LicenseID info), t1Data (LicenseID info) text)].
      repeat split; try assumption.
      * rewrite C, W2, <- app_assoc. reflexivity.
      * right. exists text. repeat split; try assumption. right. repeat split; assumption.
  - exists data, info, body, w, []. repeat split; try assumption.
    + rewrite writes_failWith, app_nil_r. exact W2.
    + left. reflexivity.
Qed.

Lemma sample_convert :
  convert (fun _ => Some sampleInfo) false false (B "Sample-1.0") sampleAnswers
          (mkRun [] 0) = Ok sampleRun.
Proof. vm_compute. reflexivity. Qed.

Lemma convert_writes_only_witness :
  writes sampleRun = writes (mkRun [] 0)
  \/ exists data info body w rest,
       jsonFile sampleAnswers = Some data /\ (fun _ => Some sampleInfo) data = Some info
       /\ IsDeprecatedLicenseID info = false
       /\ templateToLRE (StandardLicenseTemplate info) = Ok (body, w)
       /\ mapGet exclude (LicenseID info) = false
       /\ (targetStat sampleAnswers = false \/ false = true)
       /\ writes sampleRun
          = writes (mkRun [] 0)
              ++ (targetPath (LicenseID info), header info ++ body) :: rest
       /\ (rest = []
           \/ exists text,
                targetWritten sampleAnswers = true /\ textFile sampleAnswers = Some text
                /\ (rest = [(testTextPath (LicenseID info), text)]
                    \/ (textWritten sampleAnswers = true /\ t1Stat sampleAnswers = false
                        /\ rest = [(testTextPath (LicenseID info), text);
                                   (t1Path (LicenseID info),
                                    t1Data (LicenseID info) text)]))).
Proof.
  apply (convert_writes_only (fun _ => Some sampleInfo) false false (B "Sample-1.0")
           sampleAnswers (mkRun [] 0) sampleRun).
  exact sample_convert.
Defined.

(** X21: the run in which everything succeeds.  For a license named by
    its identifier (no [.json] suffix) that is read, parsed, not deprecated
    and not excluded, whose template is translated, whose target does not
    exist or may be overwritten, and with every file operation succeeding,
    [convert] does exactly this and leaves the exit status alone: it reads
    [_spdx/json/details/<file>.json], prints the warning of the translation
    if there is one, looks for [<id>.lre], writes the header followed by the
    translation to it, reads [_spdx/text/<id>.txt], copies it to
    [../testdata/licenses/<id>.txt], looks for [../testdata/<id>.t1] and
    writes this test script if it does not exist. *)
Theorem convert_happy_path (unmarshal : bytes -> option spdx) (force isAll : bool)
        (file : bytes) (a : answers) (r : run) (data : bytes) (info : spdx)
        (body : bytes) (w : option bytes) (text : bytes) :
  HasSuffix file (B ".json") = false ->
  jsonFile a = Some data -> unmarshal data = Some info ->
  IsDeprecatedLicenseID info = false ->
  templateToLRE (StandardLicenseTemplate info) = Ok (body, w) ->
  mapGet exclude (LicenseID info) = false ->
  targetStat a = false \/ force = true ->
  targetWritten a = true -> textFile a = Some text -> textWritten a = true ->
  t1Stat a = true \/ t1Written a = true ->
  convert unmarshal force isAll file a r
  = Ok (mkRun
          (trace r
             ++ [ReadFile (B "_spdx/json/details/" ++ file ++ B ".json")]
             ++ match w with
                | Some cut => [Warning (B "_spdx/json/details/" ++ file ++ B ".json") cut]
                | None => []
                end
             ++ [Stat (LicenseID info ++ B ".lre");
                 WriteFile (LicenseID info ++ B ".lre") (header info ++ body);
                 ReadFile (B "_spdx/text/" ++ LicenseID info ++ B ".txt");
                 WriteFile (B "../testdata/licenses/" ++ LicenseID info ++ B ".txt") text;
                 Stat (B "../testdata/" ++ LicenseID info ++ B ".t1")]
             ++ (if t1Stat a then []
                 else [WriteFile (B "../testdata/" ++ LicenseID info ++ B ".t1")
                                 (t1Data (LicenseID info) text)]))
          (exitStatus r)).
Proof.
  intros Hs Hj Hu Hd Ht Hx Hf Hw Htx Htw H1.
  destruct (jsonPath_bare file Hs) as (Hi & Hp).
  unfold convert. cbv zeta. rewrite Hj, Hu, Hd, Ht, Hx. cbn [bind fst snd].
  replace (targetStat a && negb force) with false
    by (destruct Hf as [-> | ->]; [reflexivity|rewrite andb_false_r; reflexivity]).
  rewrite Hw. cbn [negb]. unfold copyText. rewrite Hi, Hp. cbv zeta.
  rewrite Htx, Htw. cbn [negb].
  assert (Ej : jsonPath file = B "_spdx/json/details/" ++ file ++ B ".json")
    by (unfold jsonPath; rewrite Hs; reflexivity).
  rewrite Ej. unfold targetPath, testTextPath, t1Path.
  f_equal.
  destruct (t1Stat a) eqn:E1.
  - destruct w; unfold emit; cbn [trace exitStatus]; f_equal;
      repeat rewrite <- app_assoc; reflexivity.
  - destruct H1 as [H1|H1]; [discriminate|]. rewrite H1. cbn [negb].
    destruct w; unfold emit; cbn [trace exitStatus]; f_equal;
      repeat rewrite <- app_assoc; reflexivity.
Qed.

Lemma convert_happy_path_witness :
  convert (fun _ => Some sampleInfo) false false (B "Sample-1.0") sampleAnswers (mkRun [] 0)
  = Ok (mkRun
          (trace (mkRun [] 0)
             ++ [ReadFile (B "_spdx/json/details/" ++ B "Sample-1.0" ++ B ".json")]
             ++ match None with
                | Some cut => [Warning (B "_spdx/json/details/" ++ B "Sample-1.0" ++ B ".json") cut]
                | None => []
                end
             ++ [Stat (LicenseID sampleInfo ++ B ".lre");
                 WriteFile (LicenseID sampleInfo ++ B ".lre") (header sampleInfo ++ sampleLRE);
                 ReadFile (B "_spdx/text/" ++ LicenseID sampleInfo ++ B ".txt");
                 WriteFile (B "../testdata/licenses/" ++ LicenseID sampleInfo ++ B ".txt")
                           (B "Hello World");
                 Stat (B "../testdata/" ++ LicenseID sampleInfo ++ B ".t1")]
             ++ (if t1Stat sampleAnswers then []
                 else [WriteFile (B "../testdata/" ++ LicenseID sampleInfo ++ B ".t1")
                                 (t1Data (LicenseID sampleInfo) (B "Hello World"))]))
          (exitStatus (mkRun [] 0))).
Proof.
  apply (convert_happy_path (fun _ => Some sampleInfo) false false (B "Sample-1.0")
           sampleAnswers (mkRun [] 0) (B "{}") sampleInfo sampleLRE None (B "Hello World")).
  - reflexivity.
  - reflexivity.
  - reflexivity.
  - reflexivity.
  - vm_compute. reflexivity.
  - vm_compute. reflexivity.
  - left. reflexivity.
  - reflexivity.
  - reflexivity.
  - reflexivity.
  - right. reflexivity.
Defined.

Lemma Ok_inj (A : Type) (x y : A) : Ok x = Ok y -> x = y.
Proof. intros [= ->]. reflexivity. Qed.

Lemma copyText_exit (file id : bytes) (a : answers) (r : run) :
  exists evs,
    trace (copyText file id a r) = trace r ++ evs
    /\ exitStatus (copyText file id a r)
       = if existsb isError evs then 1 else exitStatus r.
Proof.
  unfold copyText.
  destruct (Index file (B "json/details")) as [i|];
    [|exists [LogNoText]; split; reflexivity].
  cbv zeta. destruct (textFile a) as [text|].
  2:{ eexists. unfold failWith, emit. cbn [trace exitStatus].
      rewrite <- app_assoc. split; reflexivity. }
  destruct (textWritten a); cbn [negb].
  2:{ eexists. unfold failWith, emit. cbn [trace exitStatus].
      repeat rewrite <- app_assoc. split; reflexivity. }
  destruct (t1Stat a).
  { eexists. unfold failWith, emit. cbn [trace exitStatus].
    repeat rewrite <- app_assoc. split; reflexivity. }
  destruct (t1Written a); cbn [negb];
    eexists; unfold failWith, emit; cbn [trace exitStatus];
    repeat rewrite <- app_assoc; split; reflexivity.
Qed.

(** X22: the exit status.  A run of [convert] that returns starts with
    reading the JSON file, and it sets the exit status to 1 exactly when it
    logs an error (a file that cannot be read or written, JSON that cannot
    be parsed, a path without [json/details]); otherwise it leaves the
    status as it was.  A deprecated license and a warning of the translation
    are no errors, and the status is never set back to 0. *)
Theorem convert_exit_status (unmarshal : bytes -> option spdx) (force isAll : bool)
        (file : bytes) (a : answers) (r r' : run) :
  convert unmarshal force isAll file a r = Ok r' ->
  exists evs,
    trace r' = trace r ++ ReadFile (jsonPath file) :: evs
    /\ exitStatus r' = if existsb isError evs then 1 else exitStatus r.
Proof.
  unfold convert. cbv zeta.
  destruct (jsonFile a) as [data|].
  2:{ intros [= <-]. eexists. unfold failWith, emit. cbn [trace exitStatus].
      rewrite <- app_assoc. split; reflexivity. }
  destruct (unmarshal data) as [info|].
  2:{ intros [= <-]. eexists. unfold failWith, emit. cbn [trace exitStatus].
      rewrite <- app_assoc. split; reflexivity. }
  destruct (IsDeprecatedLicenseID info).
  { intros [= <-]. destruct isAll.
    - exists []. split; reflexivity.
    - eexists. unfold emit. cbn [trace exitStatus]. rewrite <- app_assoc.
      split; reflexivity. }
  destruct (templateToLRE (StandardLicenseTemplate info)) as [[body w]|q];
    cbn [bind fst snd]; [|discriminate].
  set (r1 := match w with
             | Some cut => emit (Warning (jsonPath file) cut)
                             (emit (ReadFile (jsonPath file)) r)
             | None => emit (ReadFile (jsonPath file)) r
             end).
  assert (W1 : exists e1, trace r1 = trace r ++ ReadFile (jsonPath file) :: e1
                          /\ existsb isError e1 = false
                          /\ exitStatus r1 = exitStatus r).
  { unfold r1. destruct w.
    - eexists. unfold emit. cbn [trace exitStatus]. rewrite <- app_assoc.
      repeat split; reflexivity.
    - exists []. repeat split; reflexivity. }
  destruct W1 as (e1 & T1 & X1 & S1).
  destruct (mapGet exclude (LicenseID info)).
  { intros [= <-]. exists e1. rewrite X1. split; assumption. }
  destruct (targetStat a && negb force).
  { intros [= <-]. exists (e1 ++ [Stat (targetPath (LicenseID info))]).
    unfold emit. cbn [trace exitStatus]. rewrite T1, <- app_assoc.
    rewrite existsb_app, X1. split; [reflexivity|exact S1]. }
  destruct (targetWritten a); cbn [negb]; intros H; apply Ok_inj in H; subst r'.
  - destruct (copyText_exit (jsonPath file) (LicenseID info) a
                (emit (WriteFile (targetPath (LicenseID info)) (header info ++ body))
                   (emit (Stat (targetPath (LicenseID info))) r1)))
      as (evs & Te & Se).
    exists (e1 ++ [Stat (targetPath (LicenseID info));
                   WriteFile (targetPath (LicenseID info)) (header info ++ body)] ++ evs).
    rewrite Te, Se. unfold emit. cbn [trace exitStatus]. rewrite T1.
    repeat rewrite <- app_assoc. split; [reflexivity|].
    rewrite !existsb_app, X1. cbn [existsb isError orb]. rewrite S1. reflexivity.
  - exists (e1 ++ [Stat (targetPath (LicenseID info));
                   WriteFile (targetPath (LicenseID info)) (header info ++ body);
                   LogError (targetPath (LicenseID info))]).
    unfold failWith, emit. cbn [trace exitStatus]. rewrite T1.
    repeat rewrite <- app_assoc. split; [reflexivity|].
    rewrite existsb_app, X1. reflexivity.
Qed.

Lemma convert_exit_status_witness :
  exists evs,
    trace sampleRun = trace (mkRun [] 0) ++ ReadFile (jsonPath (B "Sample-1.0")) :: evs
    /\ exitStatus sampleRun = if existsb isError evs then 1 else exitStatus (mkRun [] 0).
Proof.
  apply (convert_exit_status (fun _ => Some sampleInfo) false false (B "Sample-1.0")
           sampleAnswers (mkRun [] 0) sampleRun).
  exact sample_convert.
Defined.

(* ================================================================= *)
(** ** The document as a whole *)

Lemma noTrailing_snoc_NL (d : bytes) : noTrailing d -> noTrailing (d ++ [NL]).
Proof.
  induction d as [|c r IH]; intros H.
  - simpl. split; [discriminate|exact I].
  - destruct H as (H1 & H2). cbn [app noTrailing]. split; [|apply IH, H2].
    intros Hc. destruct (H1 Hc) as (d & r' & -> & Hd).
    exists d, (r' ++ [NL]). split; [reflexivity|exact Hd].
Qed.

Lemma normalized_noTrailing (d : bytes) : noTrailing (normalized d).
Proof.
  unfold normalized, normalize. cbn [fst].
  set (x := dropWhile (Ascii.eqb NL) (collapseBlank (stripTrailing d))).
  assert (N : noTrailing x).
  { apply noTrailing_dropWhile, collapse_noTrailing, strip_noTrailing. }
  destruct (ensureNL_cases x) as [(_ & ->)|[(_ & _ & ->)|(_ & _ & _ & _ & ->)]].
  - exact I.
  - exact N.
  - apply noTrailing_snoc_NL, N.
Qed.

Lemma map_fixed (A : Type) (f : A -> A) (l : list A) :
  l = map f l -> Forall (fun x => f x = x) l.
Proof.
  induction l as [|x l IH]; intros H; [apply Forall_nil|].
  cbn [map] in H. injection H as H1 H2.
  apply Forall_cons; [symmetry; exact H1|apply IH, H2].
Qed.

(** X23: no line of the document ends with white space.  Whatever the
    template, every line of the document that [templateToLRE] returns is
    free of spaces and tabs at its end, and the first pass of the
    normalizer would not change the document any more. *)
Theorem document_lines_are_stripped (t doc : bytes) (w : option bytes) :
  templateToLRE t = Ok (doc, w) ->
  Forall (fun l => rstrip l = l) (lines doc) /\ stripTrailing doc = doc.
Proof.
  intros H. destruct (templateToLRE_normalized t doc w H) as (b & ->).
  pose proof (noTrailing_strip _ (normalized_noTrailing b)) as S.
  split; [|exact S]. apply map_fixed.
  rewrite <- S at 1. apply (strip_lines_eq_n (length (normalized b))), le_n.
Qed.

Lemma document_lines_are_stripped_witness :
  Forall (fun l => rstrip l = l) (lines sampleLRE) /\ stripTrailing sampleLRE = sampleLRE.
Proof.
  apply (document_lines_are_stripped (StandardLicenseTemplate sampleInfo) sampleLRE None).
  vm_compute. reflexivity.
Defined.

Lemma literal_not_tag (c : ascii) (rest : bytes) :
  literal c = true -> structural (c :: rest) = false /\ tagOpen (c :: rest) = false.
Proof.
  destruct c as [[] [] [] [] [] [] [] []]; intros H; try discriminate H;
    split; reflexivity.
Qed.

Lemma step_literal (t : bytes) (st : state) c rest :
  skipn (pos st) t = c :: rest -> literal c = true ->
  step t st = Ok (mkState (S (pos st)) (start st) (buf st) (optStart st)).
Proof.
  intros E H. unfold step. rewrite E.
  destruct (literal_not_tag c rest H) as [-> ->]. reflexivity.
Qed.

Lemma scan_literal (t : bytes) (p : bytes) :
  forall a rest fuel i s b o,
  t = a ++ p ++ rest -> i = length a ->
  Forall (fun c => literal c = true) p -> length p <= fuel ->
  scan fuel t (mkState i s b o)
  = scan (fuel - length p) t (mkState (i + length p) s b o).
Proof.
  induction p as [|c p IH]; intros a rest fuel i s b o Et Ei Hp Hf.
  - simpl. rewrite Nat.add_0_r, Nat.sub_0_r. reflexivity.
  - destruct fuel as [|fuel]; [simpl in Hf; lia|].
    inversion Hp as [|? ? Hc Hp']; subst.
    cbn [scan pos].
    replace (length a <? length (a ++ (c :: p) ++ rest)) with true.
    2:{ symmetry. apply Nat.ltb_lt. rewrite !length_app. simpl. lia. }
    rewrite (step_literal _ _ c (p ++ rest)); [|cbn [pos]; apply skipn_length_app|exact Hc].
    cbn [bind pos start buf optStart].
    rewrite (IH (a ++ [c]) rest fuel (S (length a)) s b o).
    + simpl length. f_equal. f_equal. lia.
    + rewrite <- app_assoc. reflexivity.
    + rewrite length_app. simpl. lia.
    + exact Hp'.
    + simpl in Hf. lia.
Qed.

(** X24: literal text.  A template without any of the characters
    [( ) | / ? _ <] holds no doubled token and no tag: the loop passes over
    it, the text is written by one call of [wrap], and the result is the
    normalized form of what [wrap] wrote.  When no line of the template is
    longer than 80 bytes, its newline counted, [wrap] changes nothing and
    the document is the normalized template. *)
Theorem literal_text_is_wrapped_and_normalized (t : bytes) :
  Forall (fun c => literal c = true) t ->
  templateToLRE t = (b <- wrap [] t ;; Ok (normalize b))
  /\ (Forall (fun l => length l <= 80) (SplitAfterNL t) ->
      templateToLRE t = Ok (normalize t)).
Proof.
  intros H.
  assert (E : templateToLRE t = (b <- wrap [] t ;; Ok (normalize b))).
  { unfold templateToLRE, init.
    rewrite (scan_literal t t [] [] (length t) 0 0 [] []);
      [|rewrite app_nil_r; reflexivity|reflexivity|exact H|apply le_n].
    rewrite scan_done by (cbn [pos]; lia). reflexivity. }
  split; [exact E|]. intros L. rewrite E, wrap_short; [reflexivity|].
  unfold wrapInput, lastLine. cbn [length lineStart skipn app].
  destruct (SplitAfterNL t); [apply Forall_nil|exact L].
Qed.

Lemma literal_text_is_wrapped_and_normalized_witness :
  templateToLRE (B "Hello, big " ++ [NL; NL; NL] ++ B "  World. ")
  = (b <- wrap [] (B "Hello, big " ++ [NL; NL; NL] ++ B "  World. ") ;; Ok (normalize b))
  /\ (Forall (fun l => length l <= 80)
             (SplitAfterNL (B "Hello, big " ++ [NL; NL; NL] ++ B "  World. ")) ->
      templateToLRE (B "Hello, big " ++ [NL; NL; NL] ++ B "  World. ")
      = Ok (normalize (B "Hello, big " ++ [NL; NL; NL] ++ B "  World. "))).
Proof.
  apply (literal_text_is_wrapped_and_normalized
           (B "Hello, big " ++ [NL; NL; NL] ++ B "  World. ")).
  vm_compute. repeat (apply Forall_cons; [reflexivity|]). apply Forall_nil.
Defined.

(* ================================================================= *)
(** ** What a dropped optional block leaves behind *)

Lemma wrap_keeps_firstn (b text out : bytes) s :
  wrap b text = Ok out -> nth_error b s = Some NL -> firstn s out = firstn s b.
Proof.
  intros W H. destruct (wrap_spec _ _ _ W) as (T & -> & _).
  pose proof (lineStart_after_NL b s H) as L.
  pose proof (lineStart_le b (length b)) as L2.
  rewrite firstn_app, length_firstn.
  replace (s - Nat.min (lineStart b (length b)) (length b)) with 0 by lia.
  rewrite firstn_O, app_nil_r, firstn_firstn.
  f_equal. lia.
Qed.

Lemma openedAt_same (t b b' : bytes) s :
  firstn s b' = firstn s b -> openedAt t b s -> openedAt t b' s.
Proof.
  intros E (st0 & b0 & R & A & L & F). exists st0, b0.
  repeat split; try assumption; try apply A. rewrite E. exact F.
Qed.

Lemma openedAt_app (t b x : bytes) s :
  nth_error b s = Some NL -> openedAt t b s -> openedAt t (b ++ x) s.
Proof.
  intros H. apply openedAt_same.
  assert (L : s < length b) by (apply nth_error_Some; congruence).
  rewrite firstn_app. replace (s - length b) with 0 by lia.
  rewrite firstn_O, app_nil_r. reflexivity.
Qed.

Lemma step_openedAt (t : bytes) (st st' : state) :
  reach t st -> pos st < length t -> step t st = Ok st' ->
  Forall (openedAt t (buf st)) (optStart st) ->
  Forall (openedAt t (buf st')) (optStart st').
Proof.
  intros R Hp H Op. pose proof (reach_stackOK t st R) as Inv.
  unfold step in H.
  assert (Ow : forall b text out opt,
               wrap b text = Ok out -> stackOK b opt ->
               Forall (openedAt t b) opt -> Forall (openedAt t out) opt).
  { intros b text out opt W (_ & N) F. rewrite Forall_forall in *.
    intros s Hs. apply (openedAt_same t b); [|apply F, Hs].
    apply wrap_keeps_firstn with (text := text); [exact W|apply N, Hs]. }
  assert (Oa : forall b x opt,
               stackOK b opt ->
               Forall (openedAt t b) opt -> Forall (openedAt t (b ++ x)) opt).
  { intros b x opt (_ & N) F. rewrite Forall_forall in *.
    intros s Hs. apply openedAt_app; [apply N, Hs|apply F, Hs]. }
  destruct (structural (skipn (pos st) t)) eqn:Es.
  { destruct (wrap (buf st) (slice t (start st) (pos st + 1))) as [b|] eqn:W;
      [|discriminate].
    cbn [bind] in H. apply Ok_inj in H. subst st'. cbn [buf optStart].
    eapply Ow; eassumption. }
  destruct (tagOpen (skipn (pos st) t)) eqn:Et.
  2:{ apply Ok_inj in H. subst st'. exact Op. }
  destruct (wrap (buf st) (slice t (start st) (pos st))) as [b|] eqn:W;
    [|discriminate].
  assert (Ib : stackOK b (optStart st)) by (eapply stackOK_wrap; eassumption).
  assert (Ob : Forall (openedAt t b) (optStart st)) by (eapply Ow; eassumption).
  cbn [bind] in H.
  destruct (Index (skipn (pos st) t) (B ">>")) as [j|] eqn:Ej; [|discriminate].
  destruct (bytes_eqb (findAttr (slice t (pos st) (pos st + j + 2)) (B "original"))
              (B "name")) eqn:Ef.
  { destruct (wrap b (B "name")) as [b2|] eqn:W2; [|discriminate].
    cbn [bind] in H. apply Ok_inj in H. subst st'. cbn [buf optStart].
    eapply Ow; eassumption. }
  assert (A : atTag t st (slice t (pos st) (pos st + j + 2)) b).
  { unfold atTag. repeat split; try assumption. exists j. split; [exact Ej|reflexivity]. }
  destruct (bytes_eqb (slice t (pos st) (pos st + j + 2)) (B "<<beginOptional>>")) eqn:E1.
  { apply bytes_eqb_eq in E1. rewrite E1 in A.
    unfold beginOptional in H. apply Ok_inj in H. subst st'. cbn [buf optStart].
    apply Forall_app. split.
    - rewrite indentNL_app, <- app_assoc. apply Oa; assumption.
    - apply Forall_cons; [|apply Forall_nil].
      exists st, b. repeat split; try assumption; try apply A.
      rewrite indentNL_app, <- app_assoc.
      rewrite firstn_app, Nat.sub_diag, firstn_all. simpl. apply app_nil_r. }
  destruct (bytes_eqb (slice t (pos st) (pos st + j + 2)) (B "<<endOptional>>")) eqn:E2.
  { destruct (rev (optStart st)) as [|s ropt] eqn:Er.
    - unfold endOptional in H. rewrite Er in H. discriminate.
    - pose proof (rev_cons_inv _ _ _ _ Er) as Eo. rewrite Eo in Ib, Ob.
      pose proof Ib as Ib0.
      apply stackOK_pop in Ib. destruct Ib as (Ir & Lt & Hs).
      apply Forall_app in Ob. destruct Ob as [Ob _].
      destruct (endOptional_spec b (optStart st) s ropt Er Hs) as [_ Ee].
      rewrite Ee in H. cbn [bind] in H. apply Ok_inj in H. subst st'.
      cbn [buf optStart fst snd].
      destruct (trivialWords _).
      + destruct Ir as (_ & N). rewrite Forall_forall in *. intros y Hy.
        apply (openedAt_same t b); [|apply Ob, Hy].
        rewrite firstn_firstn. f_equal. specialize (Lt y Hy). lia.
      + repeat rewrite indentNL_app. repeat rewrite <- app_assoc.
        apply Oa; assumption. }
  destruct (HasPrefix (slice t (pos st) (pos st + j + 2)) (B "<<var;")); [|discriminate].
  apply Ok_inj in H. subst st'. cbn [buf optStart].
  match goal with
  | |- Forall (openedAt t (variable ?n ?o ?c)) _ => destruct (variable_app n o c) as [x ->]
  end.
  apply Oa; assumption.
Qed.

Lemma reach_openedAt (t : bytes) (st : state) :
  reach t st -> Forall (openedAt t (buf st)) (optStart st).
Proof.
  induction 1 as [|st st' R IH Hp Hs]; [apply Forall_nil|].
  eapply step_openedAt; eassumption.
Qed.

(** X25: a dropped optional block leaves no trace.  In front of an
    end-optional tag, the offset on top of the stack was pushed in front of
    a begin-optional tag that the loop has passed, and the buffer up to that
    offset still is the buffer as it was flushed there, however much text,
    however many tags and inner blocks were handled since.  So when the
    block is dropped (no word in it, or the single word [s]) the buffer
    becomes exactly what it was when the block was opened. *)
Theorem dropped_block_restores_buffer (t : bytes) (st : state) (b : bytes) s ropt :
  reach t st ->
  atTag t st (B "<<endOptional>>") b ->
  rev (optStart st) = s :: ropt ->
  exists st0 b0,
    reach t st0 /\ atTag t st0 (B "<<beginOptional>>") b0
    /\ length b0 = s /\ firstn s b = b0
    /\ exists st',
         step t st = Ok st' /\ optStart st' = rev ropt
         /\ (trivialWords (words (skipn s (indentNL (indentNL b ++ B "))??")))) = true ->
             buf st' = b0).
Proof.
  intros R A Er.
  pose proof (reach_openedAt t st R) as Op.
  pose proof (reach_stackOK t st R) as Inv.
  pose proof (rev_cons_inv _ _ _ _ Er) as Eo.
  destruct (reach_top t st _ b s ropt R A Er) as (N & _ & _).
  rewrite Eo in Op, Inv. apply Forall_app in Op. destruct Op as (_ & Op).
  apply Forall_inv in Op. destruct Op as (st0 & b0 & R0 & A0 & L0 & F0).
  apply stackOK_pop in Inv. destruct Inv as (_ & _ & N0).
  assert (W : wrap (buf st) (slice t (start st) (pos st)) = Ok b) by apply A.
  pose proof (wrap_keeps_firstn _ _ _ _ W N0) as K.
  assert (E : firstn s b = b0) by (rewrite K; exact F0).
  exists st0, b0. split; [exact R0|]. split; [exact A0|]. split; [exact L0|].
  split; [exact E|].
  destruct (step_at_endOptional t st b A) as (i & Hs).
  destruct (endOptional_spec b (optStart st) s ropt Er N) as (_ & Ee).
  rewrite Ee in Hs. cbn [bind fst snd] in Hs.
  eexists. split; [exact Hs|]. split; [reflexivity|].
  intros Tr. cbn [buf]. rewrite Tr. exact E.
Qed.

Lemma dropped_block_restores_buffer_witness :
  exists st0 b0,
    reach wit_t st0 /\ atTag wit_t st0 (B "<<beginOptional>>") b0
    /\ length b0 = 6 /\ firstn 6 wit_b = b0
    /\ exists st',
         step wit_t wit_st = Ok st' /\ optStart st' = rev [1]
         /\ (trivialWords (words (skipn 6 (indentNL (indentNL wit_b ++ B "))??")))) = true ->
             buf st' = b0).
Proof.
  apply (dropped_block_restores_buffer wit_t wit_st wit_b 6 [1]).
  - exact wit_reach.
  - exact wit_atTag.
  - reflexivity.
Defined.

(* ================================================================= *)
(** ** The path of the JSON file *)

Lemma HasSuffix_app (x p : bytes) : HasSuffix (x ++ p) p = true.
Proof. unfold HasSuffix. rewrite rev_app_distr. apply HasPrefix_app. Qed.

(** X26: naming a license by identifier or by path.  The path that
    [convert] reads always ends in [.json], and completing a completed path
    changes nothing.  For an argument without that suffix the path is
    [_spdx/json/details/<file>.json]; in it [json/details] is found at
    offset 6, so the license text is looked for in [_spdx/text/] and the
    error that the text cannot be found does not occur. *)
Theorem jsonPath_complete (file : bytes) :
  HasSuffix (jsonPath file) (B ".json") = true
  /\ jsonPath (jsonPath file) = jsonPath file
  /\ (HasSuffix file (B ".json") = false ->
      jsonPath file = B "_spdx/json/details/" ++ file ++ B ".json"
      /\ Index (jsonPath file) (B "json/details") = Some 6
      /\ forall id a r,
           hd_error (skipn (length (trace r)) (trace (copyText (jsonPath file) id a r)))
           = Some (ReadFile (B "_spdx/text/" ++ id ++ B ".txt"))).
Proof.
  assert (S : HasSuffix (jsonPath file) (B ".json") = true).
  { unfold jsonPath. destruct (HasSuffix file (B ".json")) eqn:E; [exact E|].
    rewrite app_assoc. apply HasSuffix_app. }
  split; [exact S|]. split.
  - unfold jsonPath at 1. rewrite S. reflexivity.
  - intros H. destruct (jsonPath_bare file H) as (Hi & Hp).
    split; [unfold jsonPath; rewrite H; reflexivity|]. split; [exact Hi|].
    intros id a r.
    unfold copyText. rewrite Hi, Hp. cbv zeta.
    assert (T : forall (x r0 : run) evs,
               trace r0 = trace r ++ ReadFile (B "_spdx/text/" ++ id ++ B ".txt") :: evs ->
               hd_error (skipn (length (trace r)) (trace r0))
               = Some (ReadFile (B "_spdx/text/" ++ id ++ B ".txt"))).
    { intros _ r0 evs ->. rewrite skipn_app, skipn_all, Nat.sub_diag. reflexivity. }
    destruct (textFile a) as [text|].
    2:{ apply (T r _ [LogError (B "_spdx/text/" ++ id ++ B ".txt")]).
        unfold failWith, emit. cbn [trace]. rewrite <- app_assoc. reflexivity. }
    destruct (textWritten a); cbn [negb].
    2:{ eapply (T r). unfold failWith, emit. cbn [trace].
        repeat rewrite <- app_assoc. reflexivity. }
    destruct (t1Stat a).
    { eapply (T r). unfold failWith, emit. cbn [trace].
      repeat rewrite <- app_assoc. reflexivity. }
    destruct (t1Written a); cbn [negb]; eapply (T r); unfold failWith, emit;
      cbn [trace]; repeat rewrite <- app_assoc; reflexivity.
Qed.

(* ================================================================= *)
(** ** The end of an optional block *)

Lemma trivialWords_spec (w : list bytes) :
  trivialWords w = true <-> w = [] \/ w = [B "s"].
Proof.
  destruct w as [|x [|y w]]; cbn [trivialWords].
  - split; [left; reflexivity|reflexivity].
  - rewrite bytes_eqb_eq. split.
    + intros ->. right. reflexivity.
    + intros [E|E]; [discriminate|]. congruence.
  - split; [discriminate|]. intros [E|E]; discriminate.
Qed.

Lemma blank_not_word (l : bytes) :
  Forall (fun c => is_blank c = true) l -> Forall (fun c => is_word c = false) l.
Proof.
  intros H. eapply Forall_impl; [|exact H]. cbv beta.
  intros c Hc.
  destruct c as [[] [] [] [] [] [] [] []]; try discriminate Hc; reflexivity.
Qed.

(** The words of the text of a kept block are the words between its
    markers. *)
Lemma words_block (ind0 mid ind : bytes) :
  Forall (fun c => is_blank c = true) ind0 ->
  Forall (fun c => is_blank c = true) ind ->
  words (NL :: ind0 ++ B "((" ++ mid ++ NL :: ind ++ B "))??" ++ NL :: ind)
  = words mid.
Proof.
  intros H0 H1. unfold words.
  rewrite runs_skip by reflexivity.
  rewrite (runs_skip_all is_word ind0) by (apply blank_not_word; exact H0).
  rewrite (runs_skip_all is_word (B "((")) by (repeat constructor).
  rewrite runs_sep by reflexivity.
  assert (E : runs is_word (ind ++ B "))??" ++ NL :: ind) = []).
  { rewrite (runs_skip_all is_word ind) by (apply blank_not_word; exact H1).
    rewrite (runs_skip_all is_word (B "))??")) by (repeat constructor).
    rewrite runs_skip by reflexivity.
    rewrite <- (app_nil_r ind).
    rewrite (runs_skip_all is_word ind) by (apply blank_not_word; exact H1).
    reflexivity. }
  rewrite E. apply app_nil_r.
Qed.

Lemma wit3_reach : reach wit3_t wit3_st.
Proof.
  apply (scan_reach 6 wit3_t init wit3_st); [vm_compute; reflexivity|apply reach_init].
Qed.

Lemma wit3_atTag : atTag wit3_t wit3_st (B "<<endOptional>>") wit3_b.
Proof.
  unfold atTag. split; [vm_compute; lia|].
  split; [vm_compute; reflexivity|]. split; [vm_compute; reflexivity|].
  split; [vm_compute; reflexivity|].
  split; [exists 13; split; vm_compute; reflexivity|vm_compute; reflexivity].
Qed.

Lemma cex3_reach : reach cex3_t cex3_st.
Proof.
  apply (scan_reach 8 cex3_t init cex3_st); [vm_compute; reflexivity|apply reach_init].
Qed.

Lemma cex3_atTag : atTag cex3_t cex3_st (B "<<endOptional>>") cex3_b.
Proof.
  unfold atTag. split; [vm_compute; lia|].
  split; [vm_compute; reflexivity|]. split; [vm_compute; reflexivity|].
  split; [vm_compute; reflexivity|].
  split; [exists 13; split; vm_compute; reflexivity|vm_compute; reflexivity].
Qed.

(** C3 (amended).  When the loop of a reachable state stands in front of an
    end-optional tag and the stack is not empty, with the offset [s] on top,
    the flushed buffer [b] holds at [s] a newline, an indentation [ind0] and
    the opening marker of the block, followed by the text [mid] of the
    block.  The iteration succeeds and pops the stack.  The words of the text
    written since the offset, closing marker included, are the words of
    [mid], a word being a maximal run of letters, digits and underscores.  If
    [mid] has no word, or the single word [s], the buffer is cut back to the
    offset, which removes both markers; in every other case the buffer keeps
    the opening marker and the text of the block and ends with the closing
    marker [))??] on a line of its own and the indentation of a new line. *)
Theorem C3_end_optional_discards_or_keeps (t : bytes) (st : state) (b : bytes) s ropt :
  reach t st ->
  atTag t st (B "<<endOptional>>") b ->
  rev (optStart st) = s :: ropt ->
  exists st' ind0 mid ind,
    Forall (fun c => is_blank c = true) ind0
    /\ Forall (fun c => is_blank c = true) ind
    /\ b = firstn s b ++ NL :: ind0 ++ B "((" ++ mid
    /\ step t st = Ok st'
    /\ optStart st' = rev ropt
    /\ words (skipn s (indentNL (indentNL b ++ B "))??"))) = words mid
    /\ (words mid = [] \/ words mid = [B "s"] -> buf st' = firstn s b)
    /\ (words mid <> [] -> words mid <> [B "s"] ->
        buf st' = firstn s b ++ NL :: ind0 ++ B "((" ++ mid
                    ++ NL :: ind ++ B "))??" ++ NL :: ind).
Proof.
  intros R A Er.
  destruct (reach_top t st _ b s ropt R A Er) as (Hs & (ind0 & mid & Hind0 & Es) & _).
  assert (Eb : b = firstn s b ++ NL :: ind0 ++ B "((" ++ mid).
  { rewrite <- (firstn_skipn s b) at 1. rewrite Es, <- app_assoc. reflexivity. }
  destruct (endOptional_spec b (optStart st) s ropt Er Hs) as [_ Ee].
  destruct (step_at_endOptional t st b A) as [i Hi].
  rewrite Ee in Hi. cbn [bind fst snd] in Hi.
  set (ind := takeWhile is_blank (skipn (lineStart b (length b)) b)).
  assert (Hind : Forall (fun c => is_blank c = true) ind).
  { unfold ind. generalize (skipn (lineStart b (length b)) b).
    intros l. induction l as [|c l IH]; cbn [takeWhile]; [constructor|].
    destruct (is_blank c) eqn:Ec; [constructor; assumption|constructor]. }
  assert (Ec : indentNL (indentNL b ++ B "))??")
               = firstn s b ++ NL :: ind0 ++ B "((" ++ mid
                   ++ NL :: ind ++ B "))??" ++ NL :: ind).
  { rewrite indentNL_marker; [|vm_compute; intuition discriminate|reflexivity].
    fold ind. rewrite Eb at 1.
    repeat (rewrite <- app_assoc || rewrite <- app_comm_cons). reflexivity. }
  assert (Ls : length (firstn s b) = s).
  { apply firstn_length_le. apply Nat.lt_le_incl.
    apply nth_error_Some. rewrite Hs. discriminate. }
  assert (Ew : words (skipn s (indentNL (indentNL b ++ B "))??"))) = words mid).
  { rewrite Ec. rewrite <- Ls at 1. rewrite skipn_app, skipn_all, Nat.sub_diag.
    cbn [app skipn]. apply words_block; assumption. }
  rewrite Ew in Hi.
  eexists _, ind0, mid, ind. split; [exact Hind0|]. split; [exact Hind|].
  split; [exact Eb|]. split; [exact Hi|]. cbn [optStart buf].
  split; [reflexivity|]. split; [exact Ew|].
  pose proof (trivialWords_spec (words mid)) as T.
  destruct (trivialWords (words mid)).
  - split; [reflexivity|]. intros N1 N2.
    destruct (proj1 T eq_refl); contradiction.
  - split; [|intros _ _; exact Ec].
    intros H. apply (proj2 T) in H. discriminate.
Qed.

Lemma C3_witness :
  (exists st' ind0 mid ind,
     Forall (fun c => is_blank c = true) ind0
     /\ Forall (fun c => is_blank c = true) ind
     /\ wit3_b = firstn 4 wit3_b ++ NL :: ind0 ++ B "((" ++ mid
     /\ step wit3_t wit3_st = Ok st'
     /\ optStart st' = rev []
     /\ words (skipn 4 (indentNL (indentNL wit3_b ++ B "))??"))) = words mid
     /\ (words mid = [] \/ words mid = [B "s"] -> buf st' = firstn 4 wit3_b)
     /\ (words mid <> [] -> words mid <> [B "s"] ->
         buf st' = firstn 4 wit3_b ++ NL :: ind0 ++ B "((" ++ mid
                     ++ NL :: ind ++ B "))??" ++ NL :: ind))
  /\ step wit3_t wit3_st = Ok (mkState 37 37 (B "name") [])
  /\ (exists st' ind0 mid ind,
        Forall (fun c => is_blank c = true) ind0
        /\ Forall (fun c => is_blank c = true) ind
        /\ wit_b = firstn 6 wit_b ++ NL :: ind0 ++ B "((" ++ mid
        /\ step wit_t wit_st = Ok st'
        /\ optStart st' = rev [1]
        /\ words (skipn 6 (indentNL (indentNL wit_b ++ B "))??"))) = words mid
        /\ (words mid = [] \/ words mid = [B "s"] -> buf st' = firstn 6 wit_b)
        /\ (words mid <> [] -> words mid <> [B "s"] ->
            buf st' = firstn 6 wit_b ++ NL :: ind0 ++ B "((" ++ mid
                        ++ NL :: ind ++ B "))??" ++ NL :: ind))
  /\ step wit_t wit_st
     = Ok (mkState 54 54 (B "a" ++ [NL] ++ B "(( b" ++ [NL] ++ B "(( c d" ++ [NL]
                            ++ B "))??" ++ [NL]) [1]).
Proof.
  split.
  { exact (C3_end_optional_discards_or_keeps wit3_t wit3_st wit3_b 4 []
             wit3_reach wit3_atTag eq_refl). }
  split; [vm_compute; reflexivity|].
  split; [|vm_compute; reflexivity].
  exact (C3_end_optional_discards_or_keeps wit_t wit_st wit_b 6 [1]
           wit_reach wit_atTag eq_refl).
Defined.

(** The block of [Signed<<beginOptional>>_<<endOptional>>here] holds no
    letter and no digit, so the text written since its offset has no
    alphanumeric word; the underscore is a word of [wordRE], and the block is
    kept with both markers. *)
Lemma C3_counterexample :
  reach cex3_t cex3_st
  /\ atTag cex3_t cex3_st (B "<<endOptional>>") cex3_b
  /\ rev (optStart cex3_st) = [6]
  /\ alnumWordCount (skipn 6 (indentNL (indentNL cex3_b ++ B "))??"))) = 0
  /\ words (skipn 6 (indentNL (indentNL cex3_b ++ B "))??"))) = [B "_"]
  /\ step cex3_t cex3_st
     = Ok (mkState 39 39 (B "Signed" ++ [NL] ++ B "(( _" ++ [NL] ++ B "))??" ++ [NL]) [])
  /\ (forall st', step cex3_t cex3_st = Ok st' -> buf st' <> firstn 6 cex3_b)
  /\ templateToLRE cex3_t
     = Ok (B "Signed" ++ [NL] ++ B "(( _" ++ [NL] ++ B "))??" ++ [NL] ++ B "here" ++ [NL],
           None).
Proof.
  split; [exact cex3_reach|]. split; [exact cex3_atTag|].
  split; [reflexivity|]. split; [vm_compute; reflexivity|].
  split; [vm_compute; reflexivity|]. split; [vm_compute; reflexivity|].
  split; [|vm_compute; reflexivity].
  intros st' E.
  assert (E' : step cex3_t cex3_st
               = Ok (mkState 39 39 (B "Signed" ++ [NL] ++ B "(( _" ++ [NL]
                                      ++ B "))??" ++ [NL]) []))
    by (vm_compute; reflexivity).
  rewrite E' in E. apply Ok_inj in E. subst st'. vm_compute. discriminate.
Qed.

(* ================================================================= *)
(** ** The second pass of the normalizer *)

Lemma groupsAt_blankish_app (g r : bytes) :
  Forall (fun c => is_blankish c = true) g -> groupsAt (g ++ r) = groupsAt r.
Proof.
  induction 1 as [|c g Hc _ IH]; [reflexivity|].
  cbn [app]. rewrite (groupsAt_blankish c _ Hc). exact IH.
Qed.

(** A group at the head of a text with a newline appended is a group of the
    text, or the whole text is one near-blank line. *)
Lemma groupsAt_snoc1 (r : bytes) :
  1 <= groupsAt (r ++ [NL]) ->
  1 <= groupsAt r \/ Forall (fun c => is_blankish c = true) r.
Proof.
  induction r as [|c r IH]; intros H; [right; constructor|].
  cbn [app] in H.
  destruct (Ascii.eqb c NL) eqn:E1.
  - apply Ascii.eqb_eq in E1. subst c. left. rewrite groupsAt_NL. lia.
  - destruct (is_blankish c) eqn:E2.
    + rewrite (groupsAt_blankish c _ E2) in H.
      destruct (IH H) as [G|G].
      * left. rewrite (groupsAt_blankish c _ E2). exact G.
      * right. constructor; assumption.
    + rewrite (groupsAt_other c _ E1 E2) in H. lia.
Qed.

Lemma groupsAt_snoc2 (r : bytes) :
  2 <= groupsAt (r ++ [NL]) ->
  2 <= groupsAt r
  \/ exists g1 g2, r = g1 ++ NL :: g2
                   /\ Forall (fun c => is_blankish c = true) g1
                   /\ Forall (fun c => is_blankish c = true) g2.
Proof.
  induction r as [|c r IH]; intros H.
  { vm_compute in H. lia. }
  cbn [app] in H.
  destruct (Ascii.eqb c NL) eqn:E1.
  - apply Ascii.eqb_eq in E1. subst c. rewrite groupsAt_NL in H.
    destruct (groupsAt_snoc1 r) as [G|G]; [lia| |].
    + left. rewrite groupsAt_NL. lia.
    + right. exists [], r. split; [reflexivity|]. split; [constructor|exact G].
  - destruct (is_blankish c) eqn:E2.
    + rewrite (groupsAt_blankish c _ E2) in H.
      destruct (IH H) as [G|(g1 & g2 & -> & G1 & G2)].
      * left. rewrite (groupsAt_blankish c _ E2). exact G.
      * right. exists (c :: g1), g2. split; [reflexivity|].
        split; [constructor; assumption|exact G2].
    + rewrite (groupsAt_other c _ E1 E2) in H. lia.
Qed.

(** Appending a newline to a text without a match of [blankRE] creates a
    match only when the result ends with a newline and two near-blank
    lines. *)
Lemma noMatch_snoc (s : bytes) :
  noMatch matchBlank s ->
  ~ twoNearBlankLinesAtEnd (s ++ [NL]) ->
  noMatch matchBlank (s ++ [NL]).
Proof.
  induction s as [|c r IH]; intros N H.
  { split; [reflexivity|exact I]. }
  destruct N as [N1 N2]. cbn [app]. split.
  - destruct (Ascii.eqb c NL) eqn:E1; [|apply matchBlank_not_NL; exact E1].
    apply Ascii.eqb_eq in E1. subst c.
    rewrite matchBlank_NL. rewrite matchBlank_NL in N1.
    destruct (2 <=? groupsAt (r ++ [NL])) eqn:E2; [|reflexivity].
    apply Nat.leb_le in E2.
    destruct (groupsAt_snoc2 r E2) as [G|(g1 & g2 & -> & G1 & G2)].
    + apply Nat.leb_le in G. rewrite G in N1. discriminate.
    + exfalso. apply H. exists [], g1, g2.
      split; [|split; assumption].
      cbn [app]. rewrite <- app_assoc. reflexivity.
  - apply IH; [exact N2|].
    intros (a & g1 & g2 & E & G1 & G2). apply H.
    exists (c :: a), g1, g2. split; [|split; assumption].
    cbn [app]. rewrite E. reflexivity.
Qed.

(** A text that ends with a newline and two near-blank lines has a match of
    [blankRE]. *)
Lemma twoNearBlank_match (s : bytes) :
  twoNearBlankLinesAtEnd s -> ~ noMatch matchBlank s.
Proof.
  intros (a & g1 & g2 & -> & G1 & G2) N.
  apply noMatch_app in N. destruct N as [N _].
  rewrite matchBlank_NL in N.
  rewrite (groupsAt_blankish_app g1 _ G1), groupsAt_NL in N.
  rewrite (groupsAt_blankish_app g2 _ G2), groupsAt_NL in N.
  discriminate.
Qed.

(** The last line of such a text is near-blank. *)
Lemma twoNearBlank_last (s : bytes) :
  twoNearBlankLinesAtEnd s ->
  forallb is_blankish
          (takeWhile (fun c => negb (Ascii.eqb c NL)) (tl (rev s))) = true.
Proof.
  intros (a & g1 & g2 & -> & G1 & G2).
  replace (a ++ NL :: g1 ++ NL :: g2 ++ [NL])
    with ((a ++ NL :: g1 ++ NL :: g2) ++ [NL])
    by (repeat (rewrite <- app_assoc || rewrite <- app_comm_cons); reflexivity).
  rewrite rev_app_distr. cbn [rev app tl].
  replace (a ++ NL :: g1 ++ NL :: g2) with ((a ++ NL :: g1) ++ NL :: g2)
    by (rewrite <- app_assoc; reflexivity).
  rewrite rev_app_distr. cbn [rev]. rewrite <- app_assoc. cbn [app].
  rewrite takeWhile_app_stops by reflexivity.
  assert (G : Forall (fun c => is_blankish c = true) (rev g2)).
  { apply Forall_forall. intros c Hc. apply in_rev in Hc.
    exact (proj1 (Forall_forall _ _) G2 c Hc). }
  rewrite takeWhile_all.
  - apply forallb_forall. intros c Hc.
    exact (proj1 (Forall_forall _ _) G c Hc).
  - eapply Forall_impl; [|exact G]. cbv beta. intros c Hc.
    rewrite (blankish_not_NL c Hc). reflexivity.
Qed.

(** A document of the shape that the normalizer returns is a fixed point of
    the normalizer exactly when it has no match of [blankRE]. *)
Lemma normalized_fixed (s : bytes) :
  noTrailing s -> stops (Ascii.eqb NL) s -> s = [] \/ endsNL s ->
  normalized s = s <-> noMatch matchBlank s.
Proof.
  intros Nt St En. unfold normalized, normalize. cbn [fst].
  rewrite (noTrailing_strip s Nt). split.
  - intros E. destruct En as [->|En]; [exact I|].
    assert (N : noMatch matchBlank (dropWhile (Ascii.eqb NL) (collapseBlank s)))
      by (apply noMatch_dropWhile; apply collapse_noMatch).
    assert (En' : endsNL (collapseBlank s))
      by (apply (collapse_endsNL_n (length s)); [apply le_n|exact En]).
    apply (endsNL_dropWhile (Ascii.eqb NL)) in En'.
    rewrite (ensureNL_endsNL _ En') in E. rewrite E in N. exact N.
  - intros N. unfold collapseBlank. rewrite (replaceAll_noMatch _ _ s N).
    rewrite (dropWhile_id _ s St). apply ensureNL_endsNL. exact En.
Qed.

Lemma normalized_stops (d : bytes) :
  stops (Ascii.eqb NL) (normalized d) /\ (normalized d = [] \/ endsNL (normalized d)).
Proof.
  destruct (normalized_shape d) as [H1 H2]. split.
  - destruct (normalized d) as [|c r]; [exact I|]. cbn [stops].
    destruct (Ascii.eqb NL c) eqn:E; [|reflexivity].
    apply Ascii.eqb_eq in E. subst c. exfalso. apply H1. reflexivity.
  - destruct H2 as [H2|(body & H2 & _)]; [left; exact H2|].
    right. exists body. exact H2.
Qed.

(** The document has a match of [blankRE] only where the last newline was
    appended. *)
Lemma normalized_noMatch (d : bytes) :
  noMatch matchBlank (normalized d) <-> ~ twoNearBlankLinesAtEnd (normalized d).
Proof.
  split.
  - intros N H. exact (twoNearBlank_match _ H N).
  - unfold normalized, normalize. cbn [fst].
    set (x := dropWhile (Ascii.eqb NL) (collapseBlank (stripTrailing d))).
    assert (N : noMatch matchBlank x)
      by (apply noMatch_dropWhile; apply collapse_noMatch).
    destruct (ensureNL_cases x) as [(-> & _)|[(_ & _ & E)|(_ & _ & _ & _ & E)]].
    + intros _. exact I.
    + rewrite E. intros _. exact N.
    + rewrite E. intros H. apply noMatch_snoc; assumption.
Qed.

(** C7 (amended).  A second pass of the normalizer over a document that the
    first pass produced returns the same document if and only if the document
    does not end with a newline followed by two near-blank lines, lines that
    hold nothing but periods, commas, double quotes, spaces and tabs.  Such
    an end arises only when the first pass appended the last newline. *)
Theorem C7_normalize_idempotent_iff (d : bytes) :
  (normalized (normalized d) = normalized d
   <-> ~ twoNearBlankLinesAtEnd (normalized d))
  /\ (twoNearBlankLinesAtEnd (normalized d) -> appendsNL d = true).
Proof.
  split.
  - destruct (normalized_stops d) as [St En].
    rewrite (normalized_fixed (normalized d) (normalized_noTrailing d) St En).
    apply normalized_noMatch.
  - intros H. destruct (appendsNL d) eqn:E; [reflexivity|]. exfalso.
    apply (twoNearBlank_match _ H).
    unfold appendsNL in E. apply negb_false_iff in E. apply bytes_eqb_eq in E.
    unfold normalized, normalize. cbn [fst]. rewrite E.
    apply noMatch_dropWhile. apply collapse_noMatch.
Qed.

Lemma C7_witness :
  (appendsNL (B "abc") = true
   /\ normalized (normalized (B "abc")) = normalized (B "abc"))
  /\ (appendsNL (B "x" ++ [NL; NL] ++ B ".a") = true
      /\ normalized (normalized (B "x" ++ [NL; NL] ++ B ".a"))
         = normalized (B "x" ++ [NL; NL] ++ B ".a"))
  /\ (appendsNL (B "a  " ++ [NL; NL; NL] ++ B " b " ++ [NL]) = false
      /\ normalized (normalized (B "a  " ++ [NL; NL; NL] ++ B " b " ++ [NL]))
         = normalized (B "a  " ++ [NL; NL; NL] ++ B " b " ++ [NL])).
Proof.
  split; [|split].
  - split; [vm_compute; reflexivity|].
    apply (proj2 (proj1 (C7_normalize_idempotent_iff (B "abc")))).
    intros H. apply twoNearBlank_last in H. vm_compute in H. discriminate H.
  - split; [vm_compute; reflexivity|].
    apply (proj2 (proj1 (C7_normalize_idempotent_iff (B "x" ++ [NL; NL] ++ B ".a")))).
    intros H. apply twoNearBlank_last in H. vm_compute in H. discriminate H.
  - split; [vm_compute; reflexivity|].
    apply (proj2 (proj1 (C7_normalize_idempotent_iff
                           (B "a  " ++ [NL; NL; NL] ++ B " b " ++ [NL])))).
    intros H. apply twoNearBlank_last in H. vm_compute in H. discriminate H.
Defined.

(* ================================================================= *)
(** ** The width of the lines of the document *)

Lemma Forall_removelast (A : Type) (P : A -> Prop) (l : list A) :
  Forall P l -> Forall P (removelast l).
Proof.
  induction 1 as [|x l Hx Hl IH]; [constructor|].
  cbn [removelast]. destruct l; [constructor|]. constructor; assumption.
Qed.

Lemma removelast_lines_app (a x : bytes) :
  removelast (lines (a ++ NL :: x)) = lines a ++ removelast (lines x).
Proof. rewrite lines_app_NL. apply removelast_app. apply lines_not_nil. Qed.

Lemma indent_no_NL (l m : bytes) :
  ~ In NL m -> ~ In NL (takeWhile is_blank l ++ m).
Proof.
  intros Hm H. apply in_app_or in H. destruct H as [H|H]; [|exact (Hm H)].
  pose proof (takeWhile_Forall is_blank l) as F.
  rewrite Forall_forall in F. exact (blank_not_NL _ (F _ H) eq_refl).
Qed.

Lemma lines_firstn_NL (b : bytes) s :
  nth_error b s = Some NL ->
  exists r, lines b = lines (firstn s b) ++ lines r.
Proof.
  intros H. apply nth_error_split in H. destruct H as (l1 & l2 & -> & <-).
  exists l2. rewrite lines_app_NL.
  rewrite firstn_app, Nat.sub_diag, firstn_all. cbn [firstn]. rewrite app_nil_r.
  reflexivity.
Qed.

(** [wrap] rewrites the last line of the buffer only: the lines before it
    stay, the lines it writes are within the bound. *)
Lemma wrap_all (Q : bytes -> Prop) (b text out : bytes) :
  (forall l, lineOK l -> Q l) ->
  Forall Q (removelast (lines b)) -> wrap b text = Ok out ->
  Forall Q (lines out).
Proof.
  intros HQ J W. destruct (wrap_spec b text out W) as (T & -> & HT).
  apply (Forall_impl Q HQ) in HT.
  destruct (before_lastLine b) as [E|(pre & E)]; rewrite E; [exact HT|].
  rewrite <- app_assoc. cbn [app]. rewrite lines_app_NL.
  apply Forall_app. split; [|exact HT].
  assert (Eb : lines b = lines pre ++ [lastLine b]).
  { rewrite <- (lastLine_split b) at 1. rewrite E, <- app_assoc. cbn [app].
    rewrite lines_app_NL. f_equal. apply lines_no_NL.
    apply lineStart_tail_no_NL. }
  rewrite Eb, removelast_last in J. exact J.
Qed.

Lemma variable_NL (name original b : bytes) :
  exists x, variable name original b = b ++ NL :: x.
Proof.
  unfold variable.
  repeat match goal with
         | |- context [if ?c then _ else _] => destruct c
         end;
    repeat rewrite indentNL_app; repeat rewrite <- app_assoc;
    repeat rewrite <- app_comm_cons; eexists; reflexivity.
Qed.

(** One iteration adds to the terminated lines of the buffer only lines
    within the bound and lines of the variable handler. *)
Lemma step_terminated (Q : bytes -> Prop) (t : bytes) (st st' : state) :
  (forall l, lineOK l -> Q l) ->
  reach t st -> pos st < length t -> step t st = Ok st' ->
  (forall tag b,
     atTag t st tag b -> HasPrefix tag (B "<<var;") = true ->
     Forall Q
            (removelast
               (lines (skipn (S (length b))
                             (variable (findAttr tag (B "name"))
                                       (findAttr tag (B "original")) b))))) ->
  Forall Q (removelast (lines (buf st))) ->
  Forall Q (removelast (lines (buf st'))).
Proof.
  intros HQ R Hp H HV J. pose proof (reach_stackOK t st R) as Inv.
  unfold step in H.
  destruct (structural (skipn (pos st) t)) eqn:Es.
  { destruct (wrap (buf st) (slice t (start st) (pos st + 1))) as [b|] eqn:W;
      [|discriminate].
    cbn [bind] in H. apply Ok_inj in H. subst st'. cbn [buf].
    apply Forall_removelast. eapply wrap_all; eassumption. }
  destruct (tagOpen (skipn (pos st) t)) eqn:Et.
  2:{ apply Ok_inj in H. subst st'. exact J. }
  destruct (wrap (buf st) (slice t (start st) (pos st))) as [b|] eqn:W;
    [|discriminate].
  assert (Ib : stackOK b (optStart st)) by (eapply stackOK_wrap; eassumption).
  assert (Hb : Forall Q (lines b)) by (eapply wrap_all; eassumption).
  cbn [bind] in H.
  destruct (Index (skipn (pos st) t) (B ">>")) as [j|] eqn:Ej; [|discriminate].
  destruct (bytes_eqb (findAttr (slice t (pos st) (pos st + j + 2)) (B "original"))
              (B "name")) eqn:Ef.
  { destruct (wrap b (B "name")) as [b2|] eqn:W2; [|discriminate].
    cbn [bind] in H. apply Ok_inj in H. subst st'. cbn [buf].
    apply Forall_removelast. apply (wrap_all Q b (B "name")); [exact HQ| |exact W2].
    apply Forall_removelast. exact Hb. }
  assert (A : atTag t st (slice t (pos st) (pos st + j + 2)) b).
  { unfold atTag. repeat split; try assumption. exists j. split; [exact Ej|reflexivity]. }
  destruct (bytes_eqb (slice t (pos st) (pos st + j + 2)) (B "<<beginOptional>>")) eqn:E1.
  { unfold beginOptional in H. apply Ok_inj in H. subst st'. cbn [buf].
    rewrite indentNL_app, <- app_assoc, <- app_comm_cons.
    rewrite removelast_lines_app. apply Forall_app. split; [exact Hb|].
    rewrite lines_no_NL; [constructor|].
    apply indent_no_NL. vm_compute. intuition discriminate. }
  destruct (bytes_eqb (slice t (pos st) (pos st + j + 2)) (B "<<endOptional>>")) eqn:E2.
  { destruct (rev (optStart st)) as [|s ropt] eqn:Er.
    - unfold endOptional in H. rewrite Er in H. discriminate.
    - pose proof (rev_cons_inv _ _ _ _ Er) as Eo. rewrite Eo in Ib.
      apply stackOK_pop in Ib. destruct Ib as (_ & _ & Hs).
      destruct (endOptional_spec b (optStart st) s ropt Er Hs) as [_ Ee].
      rewrite Ee in H. cbn [bind] in H. apply Ok_inj in H. subst st'.
      cbn [buf fst]. apply Forall_removelast.
      destruct (trivialWords _).
      + destruct (lines_firstn_NL b s Hs) as [r Er'].
        rewrite Er' in Hb. apply Forall_app in Hb. apply Hb.
      + rewrite indentNL_marker; [|vm_compute; intuition discriminate|reflexivity].
        set (ind := takeWhile is_blank (skipn (lineStart b (length b)) b)).
        assert (Hi : Forall (fun c => is_blank c = true) ind)
          by apply takeWhile_Forall.
        assert (Ni : ~ In NL ind).
        { unfold ind. rewrite <- (app_nil_r (takeWhile _ _)).
          apply indent_no_NL. intros []. }
        rewrite lines_app_NL. apply Forall_app. split; [exact Hb|].
        rewrite app_assoc, lines_app_NL.
        rewrite (lines_no_NL ind Ni).
        rewrite lines_no_NL
          by (apply indent_no_NL; vm_compute; intuition discriminate).
        constructor.
        * apply HQ. apply lineOK_token; [exact Hi|repeat constructor].
        * constructor; [|constructor]. apply HQ.
          rewrite <- (app_nil_r ind). apply lineOK_token; [exact Hi|constructor]. }
  destruct (HasPrefix (slice t (pos st) (pos st + j + 2)) (B "<<var;")) eqn:E3;
    [|discriminate].
  apply Ok_inj in H. subst st'. cbn [buf].
  specialize (HV _ _ A E3).
  match goal with
  | |- context [variable ?n ?o ?c] => destruct (variable_NL n o c) as [x Ex]
  end.
  rewrite Ex in HV |- *. rewrite skipn_app_NL in HV.
  rewrite removelast_lines_app. apply Forall_app. split; [exact Hb|exact HV].
Qed.

(** The terminated lines of the buffer of a reachable state are within the
    bound or lines of the variable handler. *)
Lemma reach_terminated (t : bytes) (st : state) :
  reach t st ->
  Forall (fun l => lineOK l \/ handlerLine t l) (removelast (lines (buf st))).
Proof.
  intros R. induction R as [|st st' R IH Hp Hs]; [constructor|].
  apply (step_terminated _ t st st'); try assumption.
  - intros l Hl. left. exact Hl.
  - intros tag b A P. apply Forall_forall. intros l Hl. right.
    exists st, tag, b. split; [exact R|]. split; [exact A|]. split; [exact P|exact Hl].
Qed.

Lemma rstrip_prefix (l : bytes) : exists bl, l = rstrip l ++ bl.
Proof.
  exists (rev (takeWhile is_blank (rev l))). unfold rstrip.
  rewrite <- rev_app_distr, takeWhile_dropWhile, rev_involutive. reflexivity.
Qed.

(** The last three passes of the normalizer add empty lines only. *)
Lemma collapse_rest_P (P : bytes -> Prop) n :
  P [] ->
  forall d, length d <= n ->
  Forall P (restLines d) -> Forall P (restLines (collapseBlank d)).
Proof.
  intros P0. induction n as [|n IH]; intros d Hd.
  { destruct d; [|simpl in Hd; lia]. auto. }
  destruct d as [|c r]; [auto|].
  simpl in Hd. assert (Hr : length r <= n) by lia.
  assert (Rec : forall z, length z <= n -> Forall P (lines z) ->
                Forall P (lines (collapseBlank z))).
  { intros z Hz H. rewrite lines_cons in H. inversion H as [|x y H1 H2]; subst.
    rewrite lines_cons.
    rewrite (proj1 (collapse_lines_n (length z) z (le_n _))).
    constructor; [exact H1|apply IH; assumption]. }
  unfold collapseBlank. rewrite replaceAll_cons.
  destruct (Ascii.eqb c NL) eqn:Ec.
  - apply Ascii.eqb_eq in Ec. subst c. rewrite matchBlank_NL.
    destruct (2 <=? groupsAt r) eqn:E2.
    + apply Nat.leb_le in E2.
      destruct (blankGroups r 0) as [k m] eqn:Eg.
      assert (Ek : k = groupsAt r) by (unfold groupsAt; rewrite Eg; reflexivity).
      destruct k as [|k]; [lia|]. cbn [snd].
      destruct (blankGroups_maximal r 0 k m Eg) as (_ & M2 & _).
      destruct (blankGroups_before r 0 k m Eg) as [a Ha].
      rewrite Nat.sub_0_r in *.
      fold (collapseBlank (skipn m r)). cbn [app].
      rewrite !restLines_NL.
      intros H. rewrite Ha, lines_app_NL in H. apply Forall_app in H.
      destruct H as [_ H].
      change (Forall P ([] :: lines (collapseBlank (skipn m r)))).
      constructor; [exact P0|].
      apply Rec; [rewrite length_skipn; lia|exact H].
    + fold (collapseBlank r). rewrite !restLines_NL. apply Rec. exact Hr.
  - rewrite matchBlank_not_NL by exact Ec. fold (collapseBlank r).
    rewrite !restLines_other by exact Ec. apply IH. exact Hr.
Qed.

Lemma normalized_lines_P (P : bytes -> Prop) (d : bytes) :
  P [] ->
  Forall P (map rstrip (lines d)) -> Forall P (lines (normalized d)).
Proof.
  intros P0 H. unfold normalized, normalize. cbn [fst].
  rewrite <- (strip_lines_eq_n (length d) d (le_n _)) in H.
  set (d1 := stripTrailing d) in *.
  assert (H2 : Forall P (lines (collapseBlank d1))).
  { rewrite lines_cons in H. inversion H as [|x y H1 H2]; subst.
    rewrite lines_cons.
    rewrite (proj1 (collapse_lines_n (length d1) d1 (le_n _))).
    constructor; [exact H1|].
    apply (collapse_rest_P P (length d1)); [exact P0|apply le_n|exact H2]. }
  set (d2 := collapseBlank d1) in *.
  assert (H3 : Forall P (lines (dropWhile (Ascii.eqb NL) d2))).
  { clear - H2. induction d2 as [|c r IH]; [exact H2|].
    cbn [dropWhile]. destruct (Ascii.eqb NL c) eqn:E; [|exact H2].
    apply Ascii.eqb_eq in E. subst c. apply IH.
    rewrite lines_cons, firstLine_NL, restLines_NL in H2.
    inversion H2; assumption. }
  set (d3 := dropWhile (Ascii.eqb NL) d2) in *.
  destruct (ensureNL_cases d3) as [[_ ->]|[(body & _ & ->)|(body & c & _ & _ & ->)]];
    try exact H3.
  - constructor; [exact P0|constructor].
  - rewrite lines_app_NL. apply Forall_app. split; [exact H3|].
    constructor; [exact P0|constructor].
Qed.

Lemma lineOKb_ok (l : bytes) : lineOKb l = true -> lineOK l.
Proof.
  unfold lineOKb, lineOK. intros H. apply orb_true_iff in H.
  destruct H as [H|H]; [left; apply Nat.leb_le; exact H|].
  right. apply negb_true_iff. exact H.
Qed.

Lemma forallb_lineOK (ls : list bytes) :
  forallb lineOKb ls = true -> Forall lineOK ls.
Proof.
  intros H. apply Forall_forall. intros l Hl. apply lineOKb_ok.
  exact (proj1 (forallb_forall _ _) H l Hl).
Qed.

Lemma states_head fuel (t : bytes) (st : state) : In st (states fuel t st).
Proof. destruct fuel; left; reflexivity. Qed.

Lemma states_step fuel (t : bytes) :
  forall st0 st st',
    length t - pos st0 <= fuel ->
    In st (states fuel t st0) -> pos st < length t -> step t st = Ok st' ->
    In st' (states fuel t st0).
Proof.
  induction fuel as [|fuel IH]; intros st0 st st' Hf Hi Hp Hs.
  - cbn [states] in Hi.
    destruct (pos st0 <? length t) eqn:E.
    + apply Nat.ltb_lt in E. lia.
    + destruct Hi as [<-|[]]. apply Nat.ltb_ge in E. lia.
  - cbn [states] in Hi |- *.
    destruct Hi as [<-|Hi].
    + right. apply Nat.ltb_lt in Hp. rewrite Hp, Hs. apply states_head.
    + right. destruct (pos st0 <? length t) eqn:E; [|destruct Hi].
      destruct (step t st0) as [st1|] eqn:E1; [|destruct Hi].
      apply Nat.ltb_lt in E. pose proof (step_advances t st0 st1 E E1).
      apply (IH st1 st st'); [lia|assumption..].
Qed.

(** Every reachable state is one of the states that the loop passes
    through. *)
Lemma reach_states (t : bytes) (st : state) :
  reach t st -> In st (states (length t) t init).
Proof.
  induction 1 as [|st st' R IH Hp Hs]; [apply states_head|].
  apply (states_step (length t) t init st st'); [cbn; lia|assumption..].
Qed.

(** C5 (amended).  Every line that [wrap] writes, from the start of the last
    line of the buffer on, has at most 80 characters or is an indentation
    followed by a single token without space or tab, and the buffer before
    that line is kept as it is.  For every template, each line of the
    returned document is such a line, or it is a line that the variable
    handler wrote and terminated itself, without the blanks at its end: no
    other line breaks the bound, whatever the template holds (literal text,
    doubled tokens, optional blocks, name placeholders, a [<] that opens no
    tag).  So when the lines of the variable handler are within the bound,
    every line of the document is. *)
Theorem C5_wrap_respects_width (b text out t doc : bytes) w :
  (wrap b text = Ok out ->
   exists T, out = firstn (lineStart b (length b)) b ++ T
             /\ Forall lineOK (lines T))
  /\ (templateToLRE t = Ok (doc, w) ->
      Forall (fun l => lineOK l \/ exists l', handlerLine t l' /\ l = rstrip l')
             (lines doc))
  /\ ((forall l, handlerLine t l -> lineOK l) ->
      templateToLRE t = Ok (doc, w) ->
      Forall lineOK (lines doc)).
Proof.
  split; [apply wrap_spec|].
  assert (D : templateToLRE t = Ok (doc, w) ->
              Forall (fun l => lineOK l \/ exists l', handlerLine t l' /\ l = rstrip l')
                     (lines doc)).
  { unfold templateToLRE.
    destruct (scan (length t) t init) as [st|] eqn:Es; [|discriminate]. cbn [bind].
    destruct (wrap (buf st) (skipn (start st) t)) as [b1|] eqn:W; [|discriminate].
    cbn [bind]. intros H.
    assert (E : normalize b1 = (doc, w)) by congruence.
    replace doc with (normalized b1) by (unfold normalized; rewrite E; reflexivity).
    apply normalized_lines_P; [left; left; cbn; lia|].
    assert (R : reach t st) by (apply (scan_reach (length t) t init st Es), reach_init).
    pose proof (wrap_all (fun l => lineOK l \/ handlerLine t l)
                  (buf st) (skipn (start st) t) b1
                  (fun l Hl => or_introl Hl) (reach_terminated t st R) W) as F.
    apply Forall_map. eapply Forall_impl; [|exact F]. cbv beta.
    intros l [Hl|Hl].
    - left. destruct (rstrip_prefix l) as [bl Ebl]. rewrite Ebl in Hl.
      apply lineOK_rstrip in Hl. exact Hl.
    - right. exists l. split; [exact Hl|reflexivity]. }
  split; [exact D|].
  intros HV H. specialize (D H). eapply Forall_impl; [|exact D]. cbv beta.
  intros l [Hl|(l' & Hl' & ->)]; [exact Hl|].
  apply HV in Hl'. destruct (rstrip_prefix l') as [bl Ebl]. rewrite Ebl in Hl'.
  apply lineOK_rstrip in Hl'. exact Hl'.
Qed.

Lemma C5_witness :
  (exists T,
     B "ab" ++ [NL] ++ B "  word" ++ [NL] ++ B "  " ++ repeat "x"%char 90
       ++ [NL] ++ B "  and more"
     = firstn 3 (B "ab" ++ [NL] ++ B "  word") ++ T
     /\ Forall lineOK (lines T))
  /\ templateToLRE wit5_t = Ok (wit5_doc, None)
  /\ Forall (fun l => lineOK l \/ exists l', handlerLine wit5_t l' /\ l = rstrip l')
            (lines wit5_doc)
  /\ Forall lineOK (lines wit5_doc).
Proof.
  destruct (C5_wrap_respects_width
              (B "ab" ++ [NL] ++ B "  word")
              (B " " ++ repeat "x"%char 90 ++ B " and more")
              (B "ab" ++ [NL] ++ B "  word" ++ [NL] ++ B "  " ++ repeat "x"%char 90
                 ++ [NL] ++ B "  and more")
              wit5_t wit5_doc None) as (H1 & H2 & H3).
  split; [apply H1; vm_compute; reflexivity|].
  split; [vm_compute; reflexivity|].
  split; [apply H2; vm_compute; reflexivity|].
  apply H3; [|vm_compute; reflexivity].
  intros l (st & tag & b' & R & A & P & Hl). revert l Hl. apply Forall_forall.
  apply reach_states in R. vm_compute in R.
  repeat (destruct R as [<-|R];
          [destruct A as (_ & _ & Ht & Hw & (j & Hj & Etag) & _);
           vm_compute in Ht; try discriminate Ht;
           vm_compute in Hj; injection Hj as <-;
           vm_compute in Etag; subst tag;
           vm_compute in P; try discriminate P;
           vm_compute in Hw; injection Hw as <-;
           apply forallb_lineOK; vm_compute; reflexivity|]).
  destruct R.
Defined.
